(** * Windows split tunneling: application catalog and PE introspection

    A shallow embedding of [gui/src/main/windows-split-tunneling.ts].

    Layout of the development:
    - JavaScript values the code relies on (strings as sequences of UTF-16
      code units, objects used as maps, [Map]);
    - the computation monad: a call returns, throws, or has not finished
      within the loop budget it was given;
    - the binary reader and the PE structures of [windows-pe-parser];
    - the PE functions of the source file, in source order;
    - the application catalog: caches, shortcut discovery, filtering;
    - the properties. *)

From Stdlib Require Import ZArith List String Ascii Bool Lia.
From Stdlib Require Import Strings.Byte.
Import ListNotations.
Open Scope Z_scope.


(* ================================================================== *)
(** ** JavaScript strings *)

(** A JavaScript string is a finite sequence of 16-bit code units. *)
Definition jsstring := list Z.

(** A string literal of the source, code unit by code unit. *)
Definition js (s : string) : jsstring :=
  map (fun a => Z.of_N (N_of_ascii a)) (list_ascii_of_string s).

Fixpoint jseqb (a b : jsstring) : bool :=
  match a, b with
  | [], [] => true
  | x :: a', y :: b' => (x =? y) && jseqb a' b'
  | _, _ => false
  end.

(** [String.prototype.toLowerCase] on the strings the PE functions apply it
    to: module names decoded from 7-bit ASCII, the name of the DLL asked
    for, and the language key that is compared with ['04b0']. The letters
    A-Z are folded, which is all that lower-casing does to 7-bit text; no
    character outside ASCII lower-cases to [0], [4] or [b], so the
    comparison of the key comes out the same. Paths and shortcut names are
    lower-cased with [str_toLowerCase] of the host. *)
Definition lowerUnit (c : Z) : Z :=
  if (65 <=? c) && (c <=? 90) then c + 32 else c.

Definition toLowerCase (s : jsstring) : jsstring := map lowerUnit s.

Fixpoint startsWith (s p : jsstring) : bool :=
  match p, s with
  | [], _ => true
  | y :: p', x :: s' => (x =? y) && startsWith s' p'
  | _ :: _, [] => false
  end.

(** [String.prototype.endsWith]. *)
Definition endsWith (s suffix : jsstring) : bool :=
  (List.length suffix <=? List.length s)%nat &&
  jseqb (skipn (List.length s - List.length suffix) s) suffix.

(** [String.prototype.includes]. *)
Fixpoint includes (s sub : jsstring) : bool :=
  startsWith s sub ||
  match s with
  | [] => false
  | _ :: s' => includes s' sub
  end.

(** [String.prototype.substr(n)] with one argument. *)
Definition substr (n : nat) (s : jsstring) : jsstring := skipn n s.

(** [Array.prototype.includes] on strings and on numbers. *)
Definition includesStr (l : list jsstring) (s : jsstring) : bool :=
  existsb (jseqb s) l.

Definition includesNum (l : list Z) (n : Z) : bool :=
  existsb (Z.eqb n) l.

(** Truthiness of an optional string: [undefined] and [''] are falsy. *)
Definition truthy (s : option jsstring) : bool :=
  match s with
  | Some (_ :: _) => true
  | _ => false
  end.

(* ================================================================== *)
(** ** Insertion-ordered maps

    Both [Map] and a plain object enumerate their string keys in insertion
    order, and overwriting a key keeps its position. (An object enumerates
    keys that are canonical array indices first; the keys of this program are
    file paths and resource names, so that order is not modelled.) *)

Section Assoc.
Variable V : Type.

Definition assoc := list (jsstring * V).

Fixpoint aget (m : assoc) (k : jsstring) : option V :=
  match m with
  | [] => None
  | (k', v) :: m' => if jseqb k' k then Some v else aget m' k
  end.

Fixpoint aset (m : assoc) (k : jsstring) (v : V) : assoc :=
  match m with
  | [] => [(k, v)]
  | (k', v') :: m' =>
      if jseqb k' k then (k', v) :: m' else (k', v') :: aset m' k v
  end.

Definition adelete (m : assoc) (k : jsstring) : assoc :=
  filter (fun kv => negb (jseqb (fst kv) k)) m.

Definition avalues (m : assoc) : list V := map snd m.
Definition akeys (m : assoc) : list jsstring := map fst m.
End Assoc.

Arguments aget {V} m k.
Arguments aset {V} m k v.
Arguments adelete {V} m k.
Arguments avalues {V} m.
Arguments akeys {V} m.

(** The property names every object literal inherits from
    [Object.prototype]: reading one of them from [{}] yields a function (or
    the prototype itself), never [undefined]. *)
Definition objectPrototypeKeys : list jsstring :=
  map js [ "constructor"; "__defineGetter__"; "__defineSetter__";
           "hasOwnProperty"; "__lookupGetter__"; "__lookupSetter__";
           "isPrototypeOf"; "propertyIsEnumerable"; "toString"; "valueOf";
           "__proto__"; "toLocaleString" ]%string.

Definition inherited (k : jsstring) : bool := includesStr objectPrototypeKeys k.

(** What [obj[k]] evaluates to for an object literal used as a record. *)
Inductive propval (V : Type) : Type :=
| Own (v : V)
| Inherited
| Undefined.
Arguments Own {V} v.
Arguments Inherited {V}.
Arguments Undefined {V}.

Definition oget {V} (m : assoc V) (k : jsstring) : propval V :=
  match aget m k with
  | Some v => Own v
  | None => if inherited k then Inherited else Undefined
  end.

(* ================================================================== *)
(** ** Computations

    A call of an [async] function of the source either resolves to a value,
    rejects with an error, or (for the two unbounded loops of the file) is
    still running when the iteration budget of the model is used up. A
    [try]/[catch] sees rejections only. *)

Inductive exn : Type :=
| NotAPEFile                 (* new Error('Not a PE file') *)
| InvalidSzKey (k : jsstring) (* new Error(`Invalid szKey "..."`) *)
| ReadError                  (* the binary reader could not read a structure *)
| NoSection                  (* the RVA lies in no section *)
| RangeError                 (* Buffer.alloc with a negative size *)
| TypeError                  (* a property of undefined was read *)
| StatError                  (* fs.promises.stat on a path that is not there *)
| ShortcutError              (* shell.readShortcutLink could not read the link *)
| ReaddirError.              (* fs.promises.readdir could not list a directory *)

Inductive comp (A : Type) : Type :=
| Ret (a : A)
| Throw (e : exn)
| Running.
Arguments Ret {A} a.
Arguments Throw {A} e.
Arguments Running {A}.

Definition bind {A B} (c : comp A) (k : A -> comp B) : comp B :=
  match c with
  | Ret a => k a
  | Throw e => Throw e
  | Running => Running
  end.

Notation "x <- c ;; k" := (bind c (fun x => k))
  (at level 61, c at next level, right associativity).
Notation "' p <- c ;; k" := (bind c (fun x => let p := x in k))
  (at level 61, p pattern, c at next level, right associativity).

(** [try { c } catch { return h }]. *)
Definition tryCatch {A} (c : comp A) (h : A) : comp A :=
  match c with
  | Ret a => Ret a
  | Throw _ => Ret h
  | Running => Running
  end.

Definition finished {A} (c : comp A) : Prop := c <> Running.

(* ================================================================== *)
(** ** Files and buffers *)

(** The contents of an open file. *)
Definition file := list byte.

Definition byteVal (b : byte) : Z := Z.of_N (Byte.to_N b).

Definition fileSize (f : file) : Z := Z.of_nat (List.length f).

(** [fileHandle.read(Buffer.alloc(n), 0, n, offset)] followed by a use of the
    buffer: the bytes of the file from [offset] on, and zero where the file
    has ended (the buffer is allocated zero-filled and a short read leaves
    its tail alone). Buffers are lists of byte values. Offsets of the
    program are sums of unsigned fields and never negative. *)
Definition byteAt (f : file) (offset : Z) : Z :=
  if offset <? 0 then 0
  else match nth_error f (Z.to_nat offset) with
       | Some b => byteVal b
       | None => 0
       end.

Definition readBuffer (f : file) (offset : Z) (n : nat) : list Z :=
  map (fun i => byteAt f (offset + Z.of_nat i)) (seq 0 n).

(** [Buffer.alloc(size)] throws a [RangeError] for a negative size. *)
Definition bufferAlloc (size : Z) : comp nat :=
  if size <? 0 then Throw RangeError else Ret (Z.to_nat size).

(** Little-endian value of a buffer. *)
Definition leValue (buffer : list Z) : Z :=
  fold_right (fun b acc => b + 256 * acc) 0 buffer.

Inductive encoding : Type := ascii_enc | ucs2_enc.

(** [buffer.toString('ascii')] clears the top bit of every byte. *)
Definition toStringAscii (buffer : list Z) : jsstring :=
  map (fun b => Z.land b 127) buffer.

(** [buffer.toString('ucs2')]: little-endian pairs, a trailing odd byte is
    dropped. *)
Fixpoint toStringUcs2 (buffer : list Z) : jsstring :=
  match buffer with
  | lo :: hi :: rest => (lo + 256 * hi) :: toStringUcs2 rest
  | _ => []
  end.

Definition bufferToString (e : encoding) (buffer : list Z) : jsstring :=
  match e with
  | ascii_enc => toStringAscii buffer
  | ucs2_enc => toStringUcs2 buffer
  end.

(* ================================================================== *)
(** ** The binary reader of [windows-pe-parser] *)

(** Modelled from the spec: the structure layouts of [windows-pe-parser]
    (that module is not part of the sources at hand). A datatype is known
    here by its size in bytes, a field by its position and width inside the
    structure; the numbers are those of the PE format. *)
Definition datatype := Z.

Record field : Type := Field { f_pos : Z; f_width : Z }.

Definition DWORD : datatype := 4.

(** Modelled from the spec: [DOS_HEADER], with its magic number and the
    offset of the NT headers. *)
Definition DOS_HEADER : datatype := 64.
Definition e_magic := Field 0 2.
Definition e_lfanew := Field 60 4.

(** Modelled from the spec: [IMAGE_FILE_HEADER], with the section count and
    the size of the optional header. *)
Definition IMAGE_FILE_HEADER : datatype := 20.
Definition NumberOfSections := Field 2 2.
Definition SizeOfOptionalHeader := Field 16 2.

(** Modelled from the spec: [IMAGE_DATA_DIRECTORY], an entry of the data
    directory (virtual address and size), and the indices of the import and
    resource entries. *)
Definition IMAGE_DATA_DIRECTORY : datatype := 8.
Definition VirtualAddress := Field 0 4.
Definition IMAGE_NUMBEROF_DIRECTORY_ENTRIES : Z := 16.
Definition IMAGE_DIRECTORY_ENTRY_IMPORT : Z := 1.
Definition IMAGE_DIRECTORY_ENTRY_RESOURCE : Z := 2.

(** Modelled from the spec: the optional header in its 32-bit and 64-bit
    layouts; both start with [Magic] and end with the data directory. *)
Definition IMAGE_OPTIONAL_HEADER32 : datatype :=
  96 + IMAGE_NUMBEROF_DIRECTORY_ENTRIES * IMAGE_DATA_DIRECTORY.
Definition IMAGE_OPTIONAL_HEADER64 : datatype :=
  112 + IMAGE_NUMBEROF_DIRECTORY_ENTRIES * IMAGE_DATA_DIRECTORY.
Definition Magic := Field 0 2.

(** Modelled from the spec: [IMAGE_NT_HEADERS] and [IMAGE_NT_HEADERS64]:
    signature, file header, optional header. *)
Definition IMAGE_NT_HEADERS : datatype :=
  DWORD + IMAGE_FILE_HEADER + IMAGE_OPTIONAL_HEADER32.
Definition IMAGE_NT_HEADERS64 : datatype :=
  DWORD + IMAGE_FILE_HEADER + IMAGE_OPTIONAL_HEADER64.
Definition Signature := Field 0 4.
Definition FileHeader := Field 4 IMAGE_FILE_HEADER.
Definition OptionalHeader32 := Field 24 IMAGE_OPTIONAL_HEADER32.
Definition OptionalHeader64 := Field 24 IMAGE_OPTIONAL_HEADER64.
Definition DataDirectory32 := Field 96 (16 * 8).
Definition DataDirectory64 := Field 112 (16 * 8).

(** Modelled from the spec: a section header, read by [rvaToOffset]. *)
Definition IMAGE_SECTION_HEADER : datatype := 40.
Definition VirtualSize := Field 8 4.
Definition SectionVirtualAddress := Field 12 4.
Definition PointerToRawData := Field 20 4.

(** Modelled from the spec: [IMAGE_IMPORT_MODULE_DIRECTORY], an import
    descriptor; [ModuleName] is the RVA of the module's name. *)
Definition IMAGE_IMPORT_MODULE_DIRECTORY : datatype := 20.
Definition ModuleName := Field 12 4.

(** Modelled from the spec: the resource directory table, its ID entries
    and the data entry of a leaf. *)
Definition IMAGE_RESOURCE_DIRECTORY : datatype := 16.
Definition NumberOfNameEntries := Field 12 2.
Definition NumberOfIdEntries := Field 14 2.

Definition IMAGE_RESOURCE_DIRECTORY_ID_ENTRY : datatype := 8.
Definition Id := Field 0 4.
Definition OffsetToData := Field 4 4.

Definition IMAGE_RESOURCE_DIRECTORY_DATA_ENTRY : datatype := 16.
Definition DataRVA := Field 0 4.

(** Modelled from the spec: the fixed part of the version-information
    structures, three words each: [wLength], [wValueLength], [wType]. *)
Definition VS_VERSIONINFO : datatype := 6.
Definition STRING_FILE_INFO : datatype := 6.
Definition STRING_TABLE : datatype := 6.
Definition STRING_TABLE_STRING : datatype := 6.
Definition wLength := Field 0 2.
Definition wValueLength := Field 2 2.

(** Modelled from the spec: [Value.sizeOf]. *)
Definition sizeOf (d : datatype) : Z := d.

(** Modelled from the spec: the values of [windows-pe-parser]. A decoded
    structure is known by where it was read, its size, and the bytes it
    spans. *)
Record StructValue : Type := mkValue {
  v_offset : Z;
  v_size : Z;
  v_buffer : list Z
}.

(** Modelled from the spec: [Value.fromFile] of [windows-pe-parser], which
    is not part of the sources at hand. It reads exactly the bytes spanning
    the structure; reading past the end of the file fails with a read
    error. *)
Definition fromFile (f : file) (off : Z) (d : datatype) : comp StructValue :=
  if (0 <=? off) && (off + sizeOf d <=? fileSize f)
  then Ret (mkValue off (sizeOf d) (readBuffer f off (Z.to_nat (sizeOf d))))
  else Throw ReadError.

(** Modelled from the spec: [v.get(field)], the sub-value at the field's
    position, with its own offset, size and bytes. *)
Definition get (v : StructValue) (fd : field) : StructValue :=
  mkValue (v_offset v + f_pos fd) (f_width fd)
          (firstn (Z.to_nat (f_width fd)) (skipn (Z.to_nat (f_pos fd)) (v_buffer v))).

(** Modelled from the spec: [v.value()] of a primitive, the unsigned
    little-endian number. *)
Definition value (v : StructValue) : Z := leValue (v_buffer v).

(** Modelled from the spec: [array.nth(i)] for an array of structures of
    type [d]. *)
Definition nth_elem (v : StructValue) (d : datatype) (i : Z) : StructValue :=
  get v (Field (i * sizeOf d) (sizeOf d)).

(** Modelled from the spec: [ImageNtHeadersUnion]. The NT headers come in
    two layouts; the value remembers which one it was read with, and its
    optional header and data directory are found accordingly. *)
Inductive ntVariant : Type := Nt32 | Nt64.

Record NtHeaders : Type := mkNt { variant : ntVariant; headers : StructValue }.

Definition optionalHeader (nt : NtHeaders) : StructValue :=
  match variant nt with
  | Nt32 => get (headers nt) OptionalHeader32
  | Nt64 => get (headers nt) OptionalHeader64
  end.

Definition dataDirectory (nt : NtHeaders) : StructValue :=
  match variant nt with
  | Nt32 => get (optionalHeader nt) DataDirectory32
  | Nt64 => get (optionalHeader nt) DataDirectory64
  end.

(** Modelled from the spec: [rvaToOffset] of [windows-pe-parser], which is
    not part of the sources at hand. The section headers start right after
    the optional header; the first section whose range
    [VirtualAddress, VirtualAddress + VirtualSize) holds the RVA gives the
    offset [PointerToRawData + (rva - VirtualAddress)]; no such section is a
    failure. *)
Fixpoint rvaToOffsetSections (f : file) (rva : Z) (n : nat) (sectionOffset : Z)
  : comp Z :=
  match n with
  | O => Throw NoSection
  | S n' =>
      section <- fromFile f sectionOffset IMAGE_SECTION_HEADER ;;
      let va := value (get section SectionVirtualAddress) in
      let vsize := value (get section VirtualSize) in
      if (va <=? rva) && (rva <? va + vsize)
      then Ret (value (get section PointerToRawData) + (rva - va))
      else rvaToOffsetSections f rva n' (sectionOffset + sizeOf IMAGE_SECTION_HEADER)
  end.

Definition rvaToOffsetImpl (f : file) (rva numberOfSections ntHeaderEndOffset : Z)
  : comp Z :=
  rvaToOffsetSections f rva (Z.to_nat numberOfSections) ntHeaderEndOffset.

Definition RvaToOffset := Z -> comp Z.

(* ================================================================== *)
(** ** The PE functions of [windows-split-tunneling.ts] *)

Definition alignDword (offset : Z) : Z := ((offset + 3) / 4) * 4.

Definition getCharacterSize (e : encoding) : Z :=
  match e with
  | ascii_enc => 1
  | ucs2_enc => 2
  end.

(** [readString] calls itself once per character. The budget bounds the
    depth of that recursion. *)
Fixpoint readString_fuel (fuel : nat) (f : file) (offset : Z) (e : encoding)
  : comp (jsstring * Z) :=
  match fuel with
  | O => Running
  | S fuel' =>
      let characterSize := getCharacterSize e in
      let buffer := readBuffer f offset (Z.to_nat characterSize) in
      let nextOffset := offset + characterSize in
      if forallb (Z.eqb 0) buffer
      then Ret ([], nextOffset)
      else
        r <- readString_fuel fuel' f nextOffset e ;;
        Ret (bufferToString e buffer ++ fst r, snd r)
  end.

(** Beyond the end of the file every character reads as zero, so the
    recursion is never deeper than the number of bytes left plus one. *)
Definition readString (f : file) (offset : Z) (e : encoding)
  : comp (jsstring * Z) :=
  readString_fuel (S (Z.to_nat (fileSize f - offset))) f offset e.

Definition PE00 : jsstring := js "PE" ++ [0; 0].

Definition getNtHeader (f : file) : comp NtHeaders :=
  dosHeader <- fromFile f 0 DOS_HEADER ;;
  let eMagic := value (get dosHeader e_magic) in
  if negb (eMagic =? 0x5a4d) then Throw NotAPEFile
  else
    let ntHeaderOffset := value (get dosHeader e_lfanew) in
    ntHeader32 <- fromFile f ntHeaderOffset IMAGE_NT_HEADERS ;;
    let signature := toStringAscii (v_buffer (get ntHeader32 Signature)) in
    if negb (jseqb signature PE00) then Throw NotAPEFile
    else
      let magic := value (get (get ntHeader32 OptionalHeader32) Magic) in
      if magic =? 0x20b
      then
        ntHeader64 <- fromFile f ntHeaderOffset IMAGE_NT_HEADERS64 ;;
        Ret (mkNt Nt64 ntHeader64)
      else Ret (mkNt Nt32 ntHeader32).

(** The loop of [getImportModuleNames]: [i] is the index of the entry read
    next, [moduleNames] the names pushed so far. *)
Fixpoint getImportModuleNames_loop (fuel : nat) (f : file)
  (importTableOffset : Z) (rvaToOffset : RvaToOffset)
  (i : Z) (moduleNames : list jsstring) : comp (list jsstring) :=
  match fuel with
  | O => Running
  | S fuel' =>
      let entrySize := sizeOf IMAGE_IMPORT_MODULE_DIRECTORY in
      importEntry <- fromFile f (importTableOffset + i * entrySize)
                       IMAGE_IMPORT_MODULE_DIRECTORY ;;
      let nameRva := value (get importEntry ModuleName) in
      if negb (nameRva =? 0)
      then
        offset <- rvaToOffset nameRva ;;
        r <- readString f offset ascii_enc ;;
        getImportModuleNames_loop fuel' f importTableOffset rvaToOffset
          (i + 1) (moduleNames ++ [fst r])
      else Ret moduleNames
  end.

Definition getImportModuleNames_fuel (fuel : nat) (f : file)
  (importTableOffset : Z) (rvaToOffset : RvaToOffset) : comp (list jsstring) :=
  getImportModuleNames_loop fuel f importTableOffset rvaToOffset 0 [].

(** Every entry read lies inside the file, so the loop runs at most once per
    byte of the file and once more. *)
Definition getImportModuleNames (f : file) (importTableOffset : Z)
  (rvaToOffset : RvaToOffset) : comp (list jsstring) :=
  getImportModuleNames_fuel (S (List.length f)) f importTableOffset rvaToOffset.

(** The virtual address in entry [tableIndex] of the data directory. *)
Definition directoryRva (ntHeader : NtHeaders) (tableIndex : Z) : Z :=
  value (get (nth_elem (dataDirectory ntHeader) IMAGE_DATA_DIRECTORY tableIndex)
             VirtualAddress).

Definition getTableOffset (f : file) (tableIndex : Z)
  : comp (option (Z * RvaToOffset)) :=
  ntHeader <- getNtHeader f ;;
  let fileHeader := get (headers ntHeader) FileHeader in
  let tableRva := directoryRva ntHeader tableIndex in
  if tableRva =? 0 then Ret None
  else
    let numberOfSections := value (get fileHeader NumberOfSections) in
    let ntHeaderEndOffset :=
      v_offset (headers ntHeader)
      + v_size (get (headers ntHeader) Signature)
      + v_size fileHeader
      + value (get fileHeader SizeOfOptionalHeader) in
    let rvaToOffset : RvaToOffset :=
      fun rva => rvaToOffsetImpl f rva numberOfSections ntHeaderEndOffset in
    tableOffset <- rvaToOffset tableRva ;;
    Ret (Some (tableOffset, rvaToOffset)).

(** The [try] block of [getExeImports]. *)
Definition getExeImports_try (f : file) : comp (list jsstring) :=
  tableOffsetResult <- getTableOffset f IMAGE_DIRECTORY_ENTRY_IMPORT ;;
  match tableOffsetResult with
  | Some (importTableOffset, rvaToOffset) =>
      getImportModuleNames f importTableOffset rvaToOffset
  | None => Ret []
  end.

(** [log.error] has no effect on the result and is left out. *)
Definition getExeImports (f : file) : comp (list jsstring) :=
  tryCatch (getExeImports_try f) [].

Definition getResourceTreeLeafValueOffset (f : file) (offset : Z)
  (rvaToOffset : RvaToOffset) : comp Z :=
  leaf <- fromFile f offset IMAGE_RESOURCE_DIRECTORY_DATA_ENTRY ;;
  let valueRva := value (get leaf DataRVA) in
  rvaToOffset valueRva.

(** The [for] loop of [getResourceTreeLeafOffsets] over the ID entries of the
    table at [tableOffset]: [n] entries are left, [i] is the index of the
    next one. [ids] is [None] when the path was empty, where the
    destructuring [[ids, ...path]] leaves [ids] undefined and
    [ids.includes] throws. [descend] is the recursive call on the rest of
    the path. *)
Fixpoint getResourceTreeLeafOffsets_loop (f : file)
  (sectionOffset tableOffset : Z) (rvaToOffset : RvaToOffset)
  (ids : option (list Z)) (path : list (list Z))
  (descend : Z -> comp (list Z))
  (n : nat) (i : Z) (leaves : list Z) : comp (list Z) :=
  match n with
  | O => Ret leaves
  | S n' =>
      let next := getResourceTreeLeafOffsets_loop f sectionOffset tableOffset
                    rvaToOffset ids path descend n' (i + 1) in
      let offset :=
        tableOffset + sizeOf IMAGE_RESOURCE_DIRECTORY
        + i * sizeOf IMAGE_RESOURCE_DIRECTORY_ID_ENTRY in
      entry <- fromFile f offset IMAGE_RESOURCE_DIRECTORY_ID_ENTRY ;;
      let id := value (get entry Id) in
      match ids with
      | None => Throw TypeError
      | Some ids =>
          if negb (includesNum ids id) then next leaves
          else
            let offsetToData := value (get entry OffsetToData) in
            let isLeaf := Z.land offsetToData 0x80000000 =? 0 in
            if isLeaf && (Nat.eqb (List.length path) 0)
            then
              leafDataOffset <- getResourceTreeLeafValueOffset f
                                  (sectionOffset + offsetToData) rvaToOffset ;;
              next (leaves ++ [leafDataOffset])
            else if negb isLeaf
            then
              let offsetToData := Z.land offsetToData 0x7fffffff in
              subTreeLeaves <- descend (sectionOffset + offsetToData) ;;
              next (leaves ++ subTreeLeaves)
            else next leaves
      end
  end.

Definition getResourceTreeLeafOffsets_table (f : file)
  (sectionOffset tableOffset : Z) (rvaToOffset : RvaToOffset)
  (ids : option (list Z)) (path : list (list Z))
  (descend : Z -> comp (list Z)) : comp (list Z) :=
  table <- fromFile f tableOffset IMAGE_RESOURCE_DIRECTORY ;;
  let numberOfNameEntries := value (get table NumberOfNameEntries) in
  let numberOfIdEntries := value (get table NumberOfIdEntries) in
  getResourceTreeLeafOffsets_loop f sectionOffset tableOffset rvaToOffset
    ids path descend (Z.to_nat numberOfIdEntries) numberOfNameEntries [].

(** The recursion follows the path. With an empty path the first ID entry
    makes the call throw before it could recurse, so no call is made on a
    path that is not shorter. *)
Fixpoint getResourceTreeLeafOffsets (f : file) (sectionOffset tableOffset : Z)
  (rvaToOffset : RvaToOffset) (idsPath : list (list Z))
  {struct idsPath} : comp (list Z) :=
  match idsPath with
  | [] =>
      getResourceTreeLeafOffsets_table f sectionOffset tableOffset rvaToOffset
        None [] (fun _ => Throw TypeError)
  | ids :: path =>
      getResourceTreeLeafOffsets_table f sectionOffset tableOffset rvaToOffset
        (Some ids) path
        (fun subTable =>
           getResourceTreeLeafOffsets f sectionOffset subTable rvaToOffset path)
  end.

(** [getChildrenOffset]: the optional [validateSzKey] is [None] when the
    argument is left out. *)
Definition getChildrenOffset (f : file) (offset : Z) (d : datatype)
  (validateSzKey : option (jsstring -> bool)) : comp Z :=
  let szKeyOffset := offset + sizeOf d in
  r <- readString f szKeyOffset ucs2_enc ;;
  match validateSzKey with
  | Some validate =>
      if negb (validate (fst r)) then Throw (InvalidSzKey (fst r))
      else Ret (alignDword (snd r))
  | None => Ret (alignDword (snd r))
  end.

Definition getVsVersionInfoChildrenOffset (f : file) (offset : Z) : comp Z :=
  valueValueOffset <- getChildrenOffset f offset VS_VERSIONINFO
                        (Some (fun szKey => jseqb szKey (js "VS_VERSION_INFO"))) ;;
  versionInfo <- fromFile f offset VS_VERSIONINFO ;;
  let versionInfoValueLength := value (get versionInfo wValueLength) in
  let valuePadding2Offset := valueValueOffset + versionInfoValueLength in
  Ret (alignDword valuePadding2Offset).

(** One pass through the body of the loop of [parseStrings], for the String
    entry at [currentStringOffset]: the key and the value it stores, the
    number of value bytes it asks the file for, and the offset the loop
    continues at. *)
Record StringEntry : Type := mkEntry {
  szKey : jsstring;
  entryValue : jsstring;
  valueReadSize : Z;
  nextStringOffset : Z
}.

Definition parseStrings_entry (f : file) (currentStringOffset : Z)
  : comp StringEntry :=
  stringValue <- fromFile f currentStringOffset STRING_TABLE_STRING ;;
  let structSize := value (get stringValue wLength) in
  let valueSize := (value (get stringValue wValueLength) - 1) * 2 in
  let szKeyOffset := currentStringOffset + v_size stringValue in
  r <- readString f szKeyOffset ucs2_enc ;;
  let valueOffset := alignDword (snd r) in
  let calculatedValueMaxSize :=
    structSize - (valueOffset - currentStringOffset) - 2 in
  let valueReadSize := Z.min valueSize calculatedValueMaxSize in
  n <- bufferAlloc valueReadSize ;;
  let buffer := readBuffer f valueOffset n in
  let value_ := toStringUcs2 buffer in
  Ret (mkEntry (fst r) value_ valueReadSize
         (currentStringOffset + alignDword (value (get stringValue wLength)))).

(** The [while] loop of [parseStrings]; the budget counts its iterations. *)
Fixpoint parseStrings_loop (fuel : nat) (f : file) (stringTableEnd : Z)
  (currentStringOffset : Z) (strings : assoc jsstring)
  : comp (assoc jsstring) :=
  if currentStringOffset <? stringTableEnd
  then
    match fuel with
    | O => Running
    | S fuel' =>
        e <- parseStrings_entry f currentStringOffset ;;
        parseStrings_loop fuel' f stringTableEnd (nextStringOffset e)
          (aset strings (szKey e) (entryValue e))
    end
  else Ret strings.

Definition parseStrings_fuel (fuel : nat) (f : file)
  (stringsOffset stringTableEnd : Z) : comp (assoc jsstring) :=
  parseStrings_loop fuel f stringTableEnd stringsOffset [].

(** An iteration that does not throw moves the offset forward, so the loop
    runs at most once per byte between the two offsets. *)
Definition parseStrings (f : file) (stringsOffset stringTableEnd : Z)
  : comp (assoc jsstring) :=
  parseStrings_fuel (Z.to_nat (stringTableEnd - stringsOffset)) f
    stringsOffset stringTableEnd.

Definition getVsVersionInfoStrings (f : file) (offset : Z)
  : comp (assoc jsstring) :=
  tryCatch
    (stringFileInfoOffset <- getVsVersionInfoChildrenOffset f offset ;;
     stringTableOffset <- getChildrenOffset f stringFileInfoOffset STRING_FILE_INFO
                            (Some (fun szKey => jseqb szKey (js "StringFileInfo"))) ;;
     stringTable <- fromFile f stringTableOffset STRING_TABLE ;;
     let stringTableLength := value (get stringTable wLength) in
     stringsOffset <- getChildrenOffset f stringTableOffset STRING_TABLE
                        (Some (fun szKey =>
                                 jseqb (toLowerCase (substr 4 szKey)) (js "04b0"))) ;;
     parseStrings f stringsOffset (stringTableOffset + stringTableLength))
    [].

(** [fs.promises.open(path, O_RDONLY)]: the contents of the file, or [None]
    when the promise is rejected. *)
Definition FileSystem := jsstring -> option file.

(** The callback of the [reduce] in [getProductName]. *)
Definition getProductName_step (f : file)
  (alreadyFoundValue : comp (option jsstring)) (leafOffset : Z)
  : comp (option jsstring) :=
  value_ <- alreadyFoundValue ;;
  if truthy value_ then Ret value_
  else
    strings <- getVsVersionInfoStrings f leafOffset ;;
    Ret (match aget strings (js "FileDescription") with
         | Some d => Some d
         | None => aget strings (js "ProductName")
         end).

(** The second [try] block of [getProductName]. *)
Definition getProductName_try (f : file) : comp (option jsstring) :=
  getTableOffsetResult <- getTableOffset f IMAGE_DIRECTORY_ENTRY_RESOURCE ;;
  match getTableOffsetResult with
  | Some (resourceTableOffset, rvaToOffset) =>
      leafOffsets <- getResourceTreeLeafOffsets f resourceTableOffset
                       resourceTableOffset rvaToOffset
                       [[16]; [1]; [0; 1033]] ;;
      fold_left (getProductName_step f) leafOffsets (Ret None)
  | None => Ret None
  end.

(** [undefined] is [None]. Closing the handle in [finally] does not change
    the result. *)
Definition getProductName (fs : FileSystem) (path : jsstring)
  : comp (option jsstring) :=
  match fs path with
  | None => Ret None
  | Some f => tryCatch (getProductName_try f) None
  end.

Definition getProgramName (fs : FileSystem) (exePath : jsstring)
  : comp (option jsstring) :=
  tryCatch (getProductName fs exePath) None.

Definition importsDll (fs : FileSystem) (path dllName : jsstring) : comp bool :=
  match fs path with
  | None => Ret false
  | Some f =>
      imports <- getExeImports f ;;
      Ret (includesStr (map toLowerCase imports) (toLowerCase dllName))
  end.

(* ================================================================== *)
(** ** The application catalog *)

Record ShortcutDetails : Type := mkShortcut {
  target : jsstring;
  name : jsstring;
  args : option jsstring;      (* optional in the interface *)
  deletable : bool             (* absent on scanned shortcuts: [false] *)
}.

(** Modelled from the spec: [IWindowsApplication] of
    [shared/application-types], which is not part of the sources at hand: an
    absolute path, a display name, an icon (an opaque encoded bitmap) and
    the deletable flag. *)
Record IWindowsApplication : Type := mkApplication {
  absolutepath : jsstring;
  app_name : jsstring;
  icon : jsstring;
  app_deletable : bool
}.

(** A directory tree as [fs.promises.stat] and [fs.promises.readdir] show
    it: a file, a directory with its items, an item [stat] is rejected for
    (a link that leads nowhere, an item that may not be examined), and a
    directory [readdir] is rejected for. *)
#[warnings="-register-all"]
Inductive fsnode : Type :=
| FsFile
| FsDir (contents : list (jsstring * fsnode))
| FsNoStat
| FsNoReaddir.

(** What the program asks of its host: the [path] module, Electron's
    [shell.readShortcutLink] (the target and the arguments stored in the
    link, [None] when it throws), the file system, the two environment
    variables the start-menu directories are taken from, and
    [String.prototype.toLowerCase] as the engine has it: the lower-case
    mapping of Unicode, whose tables are not part of the sources. *)
Record Host : Type := mkHost {
  path_resolve : jsstring -> jsstring;
  path_basename : jsstring -> jsstring;
  path_parse_ext : jsstring -> jsstring;
  path_parse_name : jsstring -> jsstring;
  readShortcutLink : jsstring -> option (jsstring * option jsstring);
  fs_open : FileSystem;
  fs_stat : jsstring -> option fsnode;
  env_ProgramData : jsstring;
  env_AppData : jsstring;
  str_toLowerCase : jsstring -> jsstring
}.

Definition APPLICATION_PATHS (h : Host) : list jsstring :=
  [ env_ProgramData h ++ js "/Microsoft/Windows/Start Menu/Programs";
    env_AppData h ++ js "/Microsoft/Windows/Start Menu/Programs" ].

Definition APPLICATION_ALLOW_LIST : list jsstring :=
  map js [ "firefox.exe"; "chrome.exe"; "msedge.exe"; "brave.exe";
           "iexplore.exe" ]%string.

(** The three module-level variables of the file. *)
Record Caches : Type := mkCaches {
  shortcutCache : assoc ShortcutDetails;
  applicationCache : assoc IWindowsApplication;
  additionalShortcuts : list ShortcutDetails
}.

Definition emptyCaches : Caches := mkCaches [] [] [].

(** [findAllLinks] at a path whose node is known. A path that ends in
    [.lnk] is returned without being examined. The calls for the items of a
    directory are the [Promise.all] of the source, written out so that the
    recursion is structural; when several of them are rejected, the
    rejection passed on is that of the first item in the listing (in the
    source: of the one that is rejected first). *)
Fixpoint findAllLinks_node (path : jsstring) (node : fsnode)
  : comp (list jsstring) :=
  if endsWith path (js ".lnk") then Ret [path]
  else
    match node with
    | FsNoStat => Throw StatError
    | FsDir contents =>
        result <- (fix all (items : list (jsstring * fsnode))
                     : comp (list (list jsstring)) :=
                     match items with
                     | [] => Ret []
                     | item :: rest =>
                         b <- findAllLinks_node (path ++ js "/" ++ fst item)
                                (snd item) ;;
                         bs <- all rest ;;
                         Ret (b :: bs)
                     end) contents ;;
        Ret (List.concat result)
    | FsNoReaddir => Throw ReaddirError
    | FsFile => Ret []
    end.

Definition findAllLinks (h : Host) (path : jsstring) : comp (list jsstring) :=
  if endsWith path (js ".lnk") then Ret [path]
  else
    match fs_stat h path with
    | Some node => findAllLinks_node path node
    | None => Throw StatError
    end.

(** [Promise.all(l.map(f))]. *)
Fixpoint promiseAll {A B} (g : A -> comp B) (l : list A) : comp (list B) :=
  match l with
  | [] => Ret []
  | a :: l' =>
      b <- g a ;;
      bs <- promiseAll g l' ;;
      Ret (b :: bs)
  end.

(** The [map] of [resolveLinks]: [None] is the [null] of the [catch]. *)
Definition resolveLink (h : Host) (link : jsstring) : option ShortcutDetails :=
  match readShortcutLink h (path_resolve h link) with
  | Some (t, a) => Some (mkShortcut t (path_parse_name h link) a false)
  | None => None
  end.

(** The [filter] of [resolveLinks]. *)
Definition keepShortcut (h : Host) (shortcut : option ShortcutDetails) : bool :=
  match shortcut with
  | None => false
  | Some shortcut =>
      negb (endsWith (target shortcut) (js "Mullvad VPN.exe")) &&
      endsWith (target shortcut) (js ".exe") &&
      negb (includes (str_toLowerCase h (target shortcut)) (js "install")) &&
      negb (includes (str_toLowerCase h (name shortcut)) (js "install"))
  end.

Definition somes {A} (l : list (option A)) : list A :=
  flat_map (fun o => match o with Some a => [a] | None => [] end) l.

Definition resolveLinks (h : Host) (linkPaths : list jsstring)
  : list ShortcutDetails :=
  somes (filter (keepShortcut h) (map (resolveLink h) linkPaths)).

(** The callback of the [reduce] in [removeDuplicates]. An inherited
    property is truthy and has no [args]. *)
Definition removeDuplicates_step (h : Host) (shortcuts : assoc ShortcutDetails)
  (shortcut : ShortcutDetails) : assoc ShortcutDetails :=
  let lowercaseTarget := str_toLowerCase h (target shortcut) in
  match oget shortcuts lowercaseTarget with
  | Own existing =>
      if truthy (args existing) && negb (truthy (args shortcut))
      then aset shortcuts lowercaseTarget shortcut
      else shortcuts
  | Inherited => shortcuts
  | Undefined => aset shortcuts lowercaseTarget shortcut
  end.

Definition removeDuplicates (h : Host) (shortcuts : list ShortcutDetails)
  : list ShortcutDetails :=
  let unique := fold_left (removeDuplicates_step h) shortcuts [] in
  avalues unique.

(** The condition of the [if] in the loop of [updateShortcutCache]. *)
Definition usesNetwork (h : Host) (shortcut : ShortcutDetails) : comp bool :=
  if includesStr APPLICATION_ALLOW_LIST
       (path_basename h (str_toLowerCase h (target shortcut)))
  then Ret true
  else importsDll (fs_open h) (target shortcut) (js "WS2_32.dll").

(** The loop of [updateShortcutCache]: the local list [shortcuts] and the
    cache are carried along. The targets end in [.exe] and lower-casing
    leaves the full stop in place, so no key is [__proto__] and every
    assignment creates or overwrites an own property. *)
Fixpoint updateShortcutCache_loop (h : Host)
  (resolvedLinks : list ShortcutDetails)
  (shortcuts : list ShortcutDetails) (cache : assoc ShortcutDetails)
  : comp (list ShortcutDetails * assoc ShortcutDetails) :=
  match resolvedLinks with
  | [] => Ret (shortcuts, cache)
  | shortcut :: rest =>
      b <- usesNetwork h shortcut ;;
      if b
      then updateShortcutCache_loop h rest (shortcuts ++ [shortcut])
             (aset cache (str_toLowerCase h (target shortcut)) shortcut)
      else updateShortcutCache_loop h rest shortcuts cache
  end.

(** The scan, with the shortcuts it stored. *)
Definition updateShortcutCache_scan (h : Host) (c : Caches)
  : comp (list ShortcutDetails * assoc ShortcutDetails) :=
  links <- promiseAll (findAllLinks h) (APPLICATION_PATHS h) ;;
  let resolvedLinks := removeDuplicates h (resolveLinks h (List.concat links)) in
  updateShortcutCache_loop h resolvedLinks [] (shortcutCache c).

Definition updateShortcutCache (h : Host) (c : Caches) : comp Caches :=
  r <- updateShortcutCache_scan h c ;;
  Ret (mkCaches (snd r) (applicationCache c) (additionalShortcuts c)).

Definition addApplicationToAdditionalShortcuts (h : Host)
  (applicationPath : jsstring) (c : Caches) : comp Caches :=
  if match oget (shortcutCache c) (str_toLowerCase h applicationPath) with
     | Undefined => true
     | _ => false
     end
     && negb (existsb (fun shortcut =>
                         jseqb (str_toLowerCase h (target shortcut))
                               (str_toLowerCase h applicationPath))
                      (additionalShortcuts c))
  then
    programName <- getProgramName (fs_open h) applicationPath ;;
    let name_ := match programName with
                 | Some n => n
                 | None => path_parse_name h applicationPath
                 end in
    Ret (mkCaches (shortcutCache c) (applicationCache c)
           (additionalShortcuts c ++ [mkShortcut applicationPath name_ None true]))
  else Ret c.

(** The result is the returned string and the caches after the call. *)
Definition addApplicationPathToCache (h : Host) (applicationPath : jsstring)
  (c : Caches) : comp (jsstring * Caches) :=
  if jseqb (path_parse_ext h applicationPath) (js ".lnk")
  then
    match readShortcutLink h (path_resolve h applicationPath) with
    | Some (t, a) =>
        Ret (t, mkCaches (shortcutCache c) (applicationCache c)
                  (additionalShortcuts c
                   ++ [mkShortcut t (path_parse_name h applicationPath) a true]))
    | None => Throw ShortcutError
    end
  else
    c' <- addApplicationToAdditionalShortcuts h applicationPath c ;;
    Ret (applicationPath, c').

Definition removeApplicationFromCache (h : Host)
  (application : IWindowsApplication) (c : Caches) : Caches :=
  mkCaches (shortcutCache c)
    (adelete (applicationCache c)
       (str_toLowerCase h (absolutepath application)))
    (filter (fun shortcut =>
               negb (jseqb (target shortcut) (absolutepath application)))
            (additionalShortcuts c)).

(* ================================================================== *)
(** ** Descriptions of file contents

    What the properties say about a file, stated on its bytes and not
    through the functions that decode it. *)

(** The bytes [bytes] stand in the file from [offset] on. *)
Fixpoint bytesAt (f : file) (offset : Z) (bytes : list Z) : Prop :=
  match bytes with
  | [] => True
  | b :: rest => byteAt f offset = b /\ bytesAt f (offset + 1) rest
  end.

(** A null-terminated single-byte string stands at [offset] and reads as
    [s]. *)
Definition cstringAt (f : file) (offset : Z) (s : jsstring) : Prop :=
  exists bytes,
    bytesAt f offset (bytes ++ [0])
    /\ Forall (fun b => b <> 0) bytes
    /\ s = toStringAscii bytes.

(** The name RVA of the import descriptor at [offset]. *)
Definition moduleNameRva (f : file) (offset : Z) : comp Z :=
  importEntry <- fromFile f offset IMAGE_IMPORT_MODULE_DIRECTORY ;;
  Ret (value (get importEntry ModuleName)).

(** From [offset] on stand consecutive import descriptors with the name
    RVAs [rvas], none of them zero, followed by a descriptor whose name RVA
    is zero. *)
Fixpoint importTableAt (f : file) (offset : Z) (rvas : list Z) : Prop :=
  match rvas with
  | [] => moduleNameRva f offset = Ret 0
  | r :: rest =>
      moduleNameRva f offset = Ret r /\ r <> 0
      /\ importTableAt f (offset + sizeOf IMAGE_IMPORT_MODULE_DIRECTORY) rest
  end.

(** The resource directory table at [tableOffset] has an ID entry, after
    its named entries, with the given id and data-offset field. *)
Definition idEntryAt (f : file) (tableOffset id offsetToData : Z) : Prop :=
  exists table entry i,
    fromFile f tableOffset IMAGE_RESOURCE_DIRECTORY = Ret table
    /\ value (get table NumberOfNameEntries) <= i
    /\ i < value (get table NumberOfNameEntries)
           + value (get table NumberOfIdEntries)
    /\ fromFile f (tableOffset + sizeOf IMAGE_RESOURCE_DIRECTORY
                     + i * sizeOf IMAGE_RESOURCE_DIRECTORY_ID_ENTRY)
                 IMAGE_RESOURCE_DIRECTORY_ID_ENTRY = Ret entry
    /\ value (get entry Id) = id
    /\ value (get entry OffsetToData) = offsetToData.

(** Following the path of ID sets from the table at [tableOffset] leads to a
    leaf whose data is at file offset [leaf]: at every level an ID entry
    with an accepted id is taken; it is a subdirectory (high bit set, the
    low 31 bits its offset in the section) while the path goes on, and a
    data entry at the end of the path. *)
Inductive leafAt (f : file) (sectionOffset : Z) (rvaToOffset : RvaToOffset)
  : list (list Z) -> Z -> Z -> Prop :=
| leaf_here ids tableOffset id offsetToData dataEntry leaf :
    idEntryAt f tableOffset id offsetToData ->
    In id ids ->
    Z.testbit offsetToData 31 = false ->
    fromFile f (sectionOffset + offsetToData)
      IMAGE_RESOURCE_DIRECTORY_DATA_ENTRY = Ret dataEntry ->
    rvaToOffset (value (get dataEntry DataRVA)) = Ret leaf ->
    leafAt f sectionOffset rvaToOffset [ids] tableOffset leaf
| leaf_below ids path tableOffset id offsetToData leaf :
    idEntryAt f tableOffset id offsetToData ->
    In id ids ->
    Z.testbit offsetToData 31 = true ->
    leafAt f sectionOffset rvaToOffset path
      (sectionOffset + offsetToData mod 2 ^ 31) leaf ->
    leafAt f sectionOffset rvaToOffset (ids :: path) tableOffset leaf.

(** The offsets at which the loop of [parseStrings] reads a String entry
    when it runs over the region from [stringsOffset] to
    [stringTableEnd]. *)
Inductive entryRead (f : file) (stringsOffset stringTableEnd : Z) : Z -> Prop :=
| read_first :
    stringsOffset < stringTableEnd ->
    entryRead f stringsOffset stringTableEnd stringsOffset
| read_next cur e :
    entryRead f stringsOffset stringTableEnd cur ->
    parseStrings_entry f cur = Ret e ->
    nextStringOffset e < stringTableEnd ->
    entryRead f stringsOffset stringTableEnd (nextStringOffset e).


(** The import table of the file at [path] names a module equal to
    [dllName] up to letter case. *)
Definition importsModule (fs : FileSystem) (path dllName : jsstring) : Prop :=
  exists f names m,
    fs path = Some f
    /\ getExeImports f = Ret names
    /\ In m names
    /\ toLowerCase m = toLowerCase dllName.






Definition lowerIdempotent (h : Host) : Prop :=
  forall s, str_toLowerCase h (str_toLowerCase h s) = str_toLowerCase h s.

(** What holds of the object built up by the [reduce] of [removeDuplicates]
    once the shortcuts [seen] have gone through it: every property is a
    shortcut that was seen, stored under its lower-cased target; no key
    occurs twice; and every shortcut seen has a property under its key,
    unless that key names an inherited property. *)
Definition uniqueShortcuts (h : Host) (unique : assoc ShortcutDetails)
  (seen : list ShortcutDetails) : Prop :=
  (forall k v, In (k, v) unique ->
               k = str_toLowerCase h (target v) /\ In v seen)
  /\ NoDup (akeys unique)
  /\ (forall s, In s seen ->
                inherited (str_toLowerCase h (target s)) = false ->
                aget unique (str_toLowerCase h (target s)) <> None).

From Stdlib Require Import Permutation.

(* ================================================================== *)
(** ** Listing applications

    [getApplications] and [updateApplicationCache] start several
    asynchronous calls at once with [Promise.all]. Every call runs up to its
    first [await] when it is started, so all of them look at the caches as
    they were; what each one writes, it writes when its file or icon has
    been read, and the order in which that happens is up to the host. The
    order is a parameter of the model, a rearrangement of the calls that
    were started. *)

Record Runtime : Type := mkRuntime {
  (* app.getFileIcon(exe, { size: 'large' }) and toDataURL; None when the
     promise is rejected *)
  getFileIcon : jsstring -> option jsstring;
  (* String.prototype.localeCompare under the collation of the host *)
  localeCompare : jsstring -> jsstring -> Z;
  (* the order in which the program names become available *)
  pathsOrder : list jsstring -> list jsstring;
  (* the order in which the icons become available *)
  iconsOrder : list ShortcutDetails -> list ShortcutDetails
}.

(** Every call that was started completes, once. *)
Definition fair (rt : Runtime) : Prop :=
  (forall l, Permutation (pathsOrder rt l) l)
  /\ (forall l, Permutation (iconsOrder rt l) l).

Definition retrieveIcon (rt : Runtime) (exe : jsstring) : option jsstring :=
  getFileIcon rt exe.

(** [None] when the icon cannot be retrieved and the promise is
    rejected. *)
Definition convertToSplitTunnelingApplication (rt : Runtime)
  (shortcut : ShortcutDetails) : option IWindowsApplication :=
  match retrieveIcon rt (target shortcut) with
  | Some icon_ =>
      Some (mkApplication (target shortcut) (name shortcut) icon_
              (deletable shortcut))
  | None => None
  end.

(** The test [applicationCache[lowercaseTarget] === undefined]. *)
Definition notCached (h : Host) (cache : assoc IWindowsApplication)
  (shortcut : ShortcutDetails) : bool :=
  match oget cache (str_toLowerCase h (target shortcut)) with
  | Undefined => true
  | _ => false
  end.

(** What a conversion that has completed does to the cache. *)
Definition storeApplication (h : Host) (rt : Runtime)
  (cache : assoc IWindowsApplication) (shortcut : ShortcutDetails)
  : assoc IWindowsApplication :=
  match convertToSplitTunnelingApplication rt shortcut with
  | Some application =>
      aset cache (str_toLowerCase h (target shortcut)) application
  | None => cache
  end.

(** [updateApplicationCache]: the caches once every conversion has
    completed, and whether the promise was fulfilled (it is rejected when
    an icon could not be retrieved). *)
Definition updateApplicationCache (h : Host) (rt : Runtime) (c : Caches)
  : bool * Caches :=
  let shortcuts := avalues (shortcutCache c) ++ additionalShortcuts c in
  let started := filter (notCached h (applicationCache c)) shortcuts in
  (forallb (fun shortcut =>
              match convertToSplitTunnelingApplication rt shortcut with
              | Some _ => true
              | None => false
              end) started,
   mkCaches (shortcutCache c)
     (fold_left (storeApplication h rt) (iconsOrder rt started)
        (applicationCache c))
     (additionalShortcuts c)).

(** The test at the head of [addApplicationToAdditionalShortcuts]. *)
Definition notKnown (h : Host) (c : Caches) (applicationPath : jsstring)
  : bool :=
  match oget (shortcutCache c) (str_toLowerCase h applicationPath) with
  | Undefined => true
  | _ => false
  end
  && negb (existsb (fun shortcut =>
                      jseqb (str_toLowerCase h (target shortcut))
                            (str_toLowerCase h applicationPath))
                   (additionalShortcuts c)).

(** The descriptor [addApplicationToAdditionalShortcuts] pushes. *)
Definition addedShortcut (h : Host) (applicationPath : jsstring)
  : comp ShortcutDetails :=
  programName <- getProgramName (fs_open h) applicationPath ;;
  Ret (mkShortcut applicationPath
         (match programName with
          | Some n => n
          | None => path_parse_name h applicationPath
          end)
         None true).

(** [Promise.all(options.applicationPaths.map(addApplicationToAdditionalShortcuts))]. *)
Definition addApplicationsToAdditionalShortcuts (h : Host) (rt : Runtime)
  (applicationPaths : list jsstring) (c : Caches) : comp Caches :=
  let started := filter (notKnown h c) applicationPaths in
  pushed <- promiseAll (addedShortcut h) (pathsOrder rt started) ;;
  Ret (mkCaches (shortcutCache c) (applicationCache c)
         (additionalShortcuts c ++ pushed)).

(** [Array.prototype.sort] with the comparator of [getApplications]. The
    sort is stable; for a comparator that orders consistently every stable
    sort gives the result of this one. *)
Fixpoint insertApplication (rt : Runtime) (a : IWindowsApplication)
  (sorted : list IWindowsApplication) : list IWindowsApplication :=
  match sorted with
  | [] => [a]
  | b :: rest =>
      if localeCompare rt (app_name a) (app_name b) <=? 0
      then a :: b :: rest
      else b :: insertApplication rt a rest
  end.

Definition sortApplications (rt : Runtime) (l : list IWindowsApplication)
  : list IWindowsApplication :=
  fold_right (insertApplication rt) [] l.

(** The argument of [getApplications]; an absent [updateCaches] is
    [false]. *)
Record Options : Type := mkOptions {
  applicationPaths : option (list jsstring);
  updateCaches : bool
}.

Record Applications : Type := mkApplications {
  fromCache : bool;
  applications : list IWindowsApplication
}.

(** How the promise of [getApplications] ends. *)
Inductive reason : Type :=
| Thrown (e : exn)
| IconUnavailable.

Inductive settled (A : Type) : Type :=
| Fulfilled (a : A)
| Rejected (r : reason)
| Unsettled.
Arguments Fulfilled {A} a.
Arguments Rejected {A} r.
Arguments Unsettled {A}.

(** The filter of [getApplications]. *)
Definition requested (h : Host) (options : Options)
  (application : IWindowsApplication) : bool :=
  match applicationPaths options with
  | None => true
  | Some paths =>
      existsb (fun applicationPath =>
                 jseqb (str_toLowerCase h applicationPath)
                       (str_toLowerCase h (absolutepath application)))
              paths
  end.

(** The first two steps of [getApplications]. *)
Definition cacheIsEmpty (c : Caches) : bool :=
  Nat.eqb (List.length (akeys (shortcutCache c))) 0.

Definition getApplications_scan (h : Host) (options : Options) (c : Caches)
  : comp Caches :=
  if updateCaches options || cacheIsEmpty c
  then updateShortcutCache h c
  else Ret c.

Definition getApplications_add (h : Host) (rt : Runtime) (options : Options)
  (c : Caches) : comp Caches :=
  match applicationPaths options with
  | Some paths => addApplicationsToAdditionalShortcuts h rt paths c
  | None => Ret c
  end.

(** [getApplications]: how the promise ends, and the caches once all that
    was started has completed. *)
Definition getApplications (h : Host) (rt : Runtime) (options : Options)
  (c : Caches) : settled Applications * Caches :=
  match getApplications_scan h options c with
  | Throw e => (Rejected (Thrown e), c)
  | Running => (Unsettled, c)
  | Ret c1 =>
      match getApplications_add h rt options c1 with
      | Throw e => (Rejected (Thrown e), c1)
      | Running => (Unsettled, c1)
      | Ret c2 =>
          let (ok, c3) := updateApplicationCache h rt c2 in
          if ok
          then (Fulfilled
                  (mkApplications
                     (negb (updateCaches options) && negb (cacheIsEmpty c))
                     (sortApplications rt
                        (filter (requested h options)
                                (avalues (applicationCache c3))))),
                c3)
          else (Rejected IconUnavailable, c3)
      end
  end.

(* ================================================================== *)
(** ** Further descriptions *)

(** The key a shortcut is stored under. *)
Definition shortcutKey (h : Host) (s : ShortcutDetails) : jsstring :=
  str_toLowerCase h (target s).

(** The name a version block gives: its file description, or else its
    product name. *)
Definition versionName (strings : assoc jsstring) : option jsstring :=
  match aget strings (js "FileDescription") with
  | Some d => Some d
  | None => aget strings (js "ProductName")
  end.

(** The [try] block of [getVsVersionInfoStrings]. *)
Definition getVsVersionInfoStrings_try (f : file) (offset : Z)
  : comp (assoc jsstring) :=
  stringFileInfoOffset <- getVsVersionInfoChildrenOffset f offset ;;
  stringTableOffset <- getChildrenOffset f stringFileInfoOffset STRING_FILE_INFO
                         (Some (fun szKey => jseqb szKey (js "StringFileInfo"))) ;;
  stringTable <- fromFile f stringTableOffset STRING_TABLE ;;
  let stringTableLength := value (get stringTable wLength) in
  stringsOffset <- getChildrenOffset f stringTableOffset STRING_TABLE
                     (Some (fun szKey =>
                              jseqb (toLowerCase (substr 4 szKey)) (js "04b0"))) ;;
  parseStrings f stringsOffset (stringTableOffset + stringTableLength).

(** The strings of the version block at [leafOffset]. *)
Definition stringsAt (f : file) (leafOffset : Z) : assoc jsstring :=
  match getVsVersionInfoStrings f leafOffset with
  | Ret strings => strings
  | _ => []
  end.

(** Of the names the leaves give, the first that is not empty; when there
    is none, the last one, and [undefined] without leaves. *)
Definition firstNamed (candidates : list (option jsstring)) : option jsstring :=
  match find truthy candidates with
  | Some v => v
  | None => last candidates None
  end.

(** Of the shortcuts of a list that are stored under the key [k], the first
    one without arguments; when all of them have arguments, the first
    one. *)
Definition chosen (h : Host) (k : jsstring) (shortcuts : list ShortcutDetails)
  : option ShortcutDetails :=
  match find (fun s => jseqb (shortcutKey h s) k && negb (truthy (args s)))
             shortcuts with
  | Some s => Some s
  | None => find (fun s => jseqb (shortcutKey h s) k) shortcuts
  end.

(** Every property of a cache of shortcuts is stored under the lower-cased
    target of its value, and no key occurs twice. *)
Definition wellKeyed (h : Host) (cache : assoc ShortcutDetails) : Prop :=
  (forall k v, In (k, v) cache -> k = shortcutKey h v) /\ NoDup (akeys cache).

(** Every application of a cache is stored under the lower-cased form of
    its absolute path. *)
Definition applicationsWellKeyed (h : Host)
  (cache : assoc IWindowsApplication) : Prop :=
  forall k v, In (k, v) cache -> k = str_toLowerCase h (absolutepath v).

Definition cachesWellKeyed (h : Host) (c : Caches) : Prop :=
  wellKeyed h (shortcutCache c)
  /\ applicationsWellKeyed h (applicationCache c).

(** The shortcuts [updateApplicationCache] goes through. *)
Definition allShortcuts (c : Caches) : list ShortcutDetails :=
  avalues (shortcutCache c) ++ additionalShortcuts c.

(** [findAllLinks] cannot examine an item at or below [path]: it calls
    [stat] or [readdir] for it and the call is rejected. An item whose path
    ends in [.lnk] is taken for a link as it is and not examined. *)
Inductive unreadable : jsstring -> fsnode -> Prop :=
| unreadable_stat path :
    endsWith path (js ".lnk") = false ->
    unreadable path FsNoStat
| unreadable_readdir path :
    endsWith path (js ".lnk") = false ->
    unreadable path FsNoReaddir
| unreadable_below path contents item :
    endsWith path (js ".lnk") = false ->
    In item contents ->
    unreadable (path ++ js "/" ++ fst item) (snd item) ->
    unreadable path (FsDir contents).

Definition unreadableFrom (h : Host) (path : jsstring) : Prop :=
  endsWith path (js ".lnk") = false
  /\ match fs_stat h path with
     | Some node => unreadable path node
     | None => True
     end.

(** One of the start-menu directories, or an item below it, cannot be
    examined. *)
Definition startMenuUnreadable (h : Host) : Prop :=
  exists path, In path (APPLICATION_PATHS h) /\ unreadableFrom h path.

(* ================================================================== *)
(** ** Sample hosts and files

    Concrete inputs the properties are exercised on. *)

Definition byteOf (z : Z) : byte :=
  match Byte.of_N (Z.to_N (z mod 256)) with
  | Some b => b
  | None => x00
  end.

Definition u16 (v : Z) : list Z := [v mod 256; (v / 256) mod 256].

Definition u32 (v : Z) : list Z :=
  [v mod 256; (v / 256) mod 256; (v / 65536) mod 256; (v / 16777216) mod 256].

Definition zeros (n : nat) : list Z := repeat 0 n.

(** A string as one byte per character and a terminating zero. *)
Definition cstring (s : string) : list Z := js s ++ [0].

(** A string as two bytes per character, without terminator. *)
Definition wstring (s : string) : list Z :=
  flat_map (fun c => [c; 0]) (js s).

Definition padTo4 (l : list Z) : list Z :=
  l ++ zeros (Z.to_nat (alignDword (Z.of_nat (List.length l))
                        - Z.of_nat (List.length l))).

(** *** An executable with one section *)

(** The import directory for the given module names, placed at [rva]: one
    descriptor per module, the terminating descriptor, then the names. *)
Fixpoint importDescriptors (nameRva : Z) (names : list string) : list Z :=
  match names with
  | [] => zeros 20
  | n :: rest =>
      zeros 12 ++ u32 nameRva ++ zeros 4
      ++ importDescriptors (nameRva + Z.of_nat (List.length (cstring n))) rest
  end.

Definition importDirectory (rva : Z) (names : list string) : list Z :=
  importDescriptors (rva + 20 * (Z.of_nat (List.length names) + 1)) names
  ++ flat_map cstring names.

(** A 32-bit image: DOS header, NT headers at 64, one section header at 312
    and the section itself at 352, mapped at RVA 0x1000. [importRva] and
    [resourceRva] go into the data directory. *)
Definition imageBytes (signature : list Z) (importRva resourceRva : Z)
  (section : list Z) : list Z :=
  (* DOS header *)
  [0x4d; 0x5a] ++ zeros 58 ++ u32 64
  (* NT headers: signature, file header, optional header *)
  ++ signature
  ++ u16 0x14c ++ u16 1 ++ zeros 12 ++ u16 224 ++ u16 0
  ++ u16 0x10b ++ zeros 94
  ++ zeros 8 ++ u32 importRva ++ zeros 4 ++ u32 resourceRva ++ zeros 4
  ++ zeros (13 * 8)
  (* section header *)
  ++ zeros 8 ++ u32 0x1000 ++ u32 0x1000 ++ u32 (Z.of_nat (List.length section))
  ++ u32 352 ++ zeros 16
  ++ section.

Definition image (signature : list Z) (importRva resourceRva : Z)
  (section : list Z) : file :=
  map byteOf (imageBytes signature importRva resourceRva section).

Definition PEsignature : list Z := [0x50; 0x45; 0; 0].

(** An executable importing the networking library. *)
Definition networkingExe : file :=
  image PEsignature 0x1000 0
    (importDirectory 0x1000 ["KERNEL32.dll"; "WS2_32.dll"]%string).

(** An executable importing only the kernel library. *)
Definition offlineExe : file :=
  image PEsignature 0x1000 0 (importDirectory 0x1000 ["KERNEL32.dll"]%string).

(** An executable whose import table breaks off after its first
    descriptor. *)
Definition truncatedExe : file :=
  image PEsignature 0x1000 0
    (firstn 20 (importDirectory 0x1000 ["KERNEL32.dll"]%string)).

(** An executable without import and resource directories. *)
Definition bareExe : file := image PEsignature 0 0 [].

(** A file that starts like another format. *)
Definition notAnExe : file := map byteOf (js "%PDF-1.7" ++ zeros 400).

(** The headers of an executable whose signature bytes have their top bits
    set: 0xD0 0xC5 0x80 0x80. *)
Definition highBitExe : file := image [0xd0; 0xc5; 0x80; 0x80] 0 0 [].

(** An import directory on its own, at offset 0 of its file, so that RVAs
    are file offsets. *)
Definition importSection : file :=
  map byteOf (importDirectory 0 ["ws2_32.dll"; "kernel32.dll"]%string).

Definition emptyImportSection : file := map byteOf (importDirectory 0 []).

Definition identityRva : RvaToOffset := fun rva => Ret rva.

(** *** A resource directory

    Type 16 (version) -> name 1 -> languages 1031 and 1033. The root table
    also has a named entry in front of its ID entry. The section is its own
    file here and starts at offset 0; leaf RVAs are translated by
    [sampleRvaToOffset]. *)
Definition resourceTable (named ids : Z) (entries : list (Z * Z)) : list Z :=
  zeros 12 ++ u16 named ++ u16 ids
  ++ flat_map (fun e => u32 (fst e) ++ u32 (snd e)) entries.

Definition subdirectory (off : Z) : Z := 0x80000000 + off.

Definition resourceSection : file :=
  map byteOf
    ((* 0: root, one named entry (skipped) and one ID entry *)
     resourceTable 1 1 [(subdirectory 200, subdirectory 64); (16, subdirectory 32)]
     (* 32: type 16 *)
     ++ resourceTable 0 2 [(1, subdirectory 64); (2, subdirectory 64)]
     (* 64: name 1 *)
     ++ resourceTable 0 3 [(1031, 104); (1033, 120); (2057, 136)]
     (* 104, 120, 136: data entries *)
     ++ u32 0x5000 ++ zeros 12
     ++ u32 0x5100 ++ zeros 12
     ++ u32 0x5200 ++ zeros 12).

Definition sampleRvaToOffset : RvaToOffset := fun rva => Ret (rva - 0x4000).

(** *** A string table region

    String entries as a resource compiler lays them out: the three header
    words, the key, padding, the value with its terminator. *)
Definition stringEntryBytes (wValueLength_ : Z) (key val : string) : list Z :=
  let body := padTo4 (zeros 6 ++ wstring key ++ [0; 0]) ++ wstring val ++ [0; 0] in
  padTo4 (u16 (Z.of_nat (List.length body)) ++ u16 wValueLength_ ++ u16 1
          ++ skipn 6 body).

Definition stringEntry (key val : string) : list Z :=
  stringEntryBytes (Z.of_nat (String.length val) + 1) key val.

Definition sampleStrings : file :=
  map byteOf (stringEntry "ProductName" "Example App"
              ++ stringEntry "CompanyName" "Example").

(** The first value is declared with a length of zero words. *)
Definition emptyValueStrings : file :=
  map byteOf (stringEntryBytes 0 "Comments" ""
              ++ stringEntry "ProductName" "Example App").

(** *** A host *)

Definition isSeparator (c : Z) : bool := (c =? 47) || (c =? 92).

Fixpoint lastSegment (s : jsstring) : jsstring :=
  match s with
  | [] => []
  | c :: s' =>
      if existsb isSeparator s' then lastSegment s'
      else if isSeparator c then s' else s
  end.

Fixpoint extension (s : jsstring) : jsstring :=
  match s with
  | [] => []
  | c :: s' =>
      if existsb (Z.eqb 46) s' then extension s'
      else if c =? 46 then s else []
  end.

Definition stem (s : jsstring) : jsstring :=
  firstn (List.length s - List.length (extension s)) s.

Definition startMenu : jsstring :=
  js "C:/ProgramData/Microsoft/Windows/Start Menu/Programs".

(** Lower-casing as Unicode has it on the code units below U+0100: the
    letters A to Z and the capitals from U+00C0 to U+00DE are moved up by
    32, the multiplication sign U+00D7 among them is not. The sample hosts
    lower-case with it; their paths stay within this range. *)
Definition lowerLatin1Unit (c : Z) : Z :=
  if ((65 <=? c) && (c <=? 90))
     || ((192 <=? c) && (c <=? 222) && negb (c =? 215))
  then c + 32 else c.

Definition lowerLatin1 (s : jsstring) : jsstring := map lowerLatin1Unit s.

(** A host with the given start menu, shortcut links and files. Paths are
    looked up without regard to letter case. *)
Definition sampleHost (menu : fsnode)
  (links : assoc (jsstring * option jsstring)) (files : assoc file) : Host :=
  mkHost (fun p => p)
         lastSegment
         (fun p => extension (lastSegment p))
         (fun p => stem (lastSegment p))
         (fun p => aget links p)
         (fun p => aget files (lowerLatin1 p))
         (fun p => if jseqb p startMenu then Some menu else Some (FsDir []))
         (js "C:/ProgramData")
         (js "C:/Users/u/AppData/Roaming")
         lowerLatin1.

Definition firefoxPath : jsstring := js "C:\Program Files\Mozilla Firefox\firefox.exe".
Definition chatPath : jsstring := js "C:\Apps\Chat\Chat.exe".
Definition notesPath : jsstring := js "C:\Apps\Notes\notes.exe".

(** Two links lead to the browser, one of them named after its installer;
    one link leads to a program that uses the network and one to a program
    that does not. *)
Definition sampleMenu : fsnode :=
  FsDir [ (js "Firefox.lnk", FsFile);
          (js "Firefox Installer.lnk", FsFile);
          (js "Tools", FsDir [ (js "Chat.lnk", FsFile);
                               (js "Notes.lnk", FsFile);
                               (js "readme.txt", FsFile) ]) ].

Definition sampleLinks : assoc (jsstring * option jsstring) :=
  [ (startMenu ++ js "/Firefox.lnk", (firefoxPath, None));
    (startMenu ++ js "/Firefox Installer.lnk", (firefoxPath, None));
    (startMenu ++ js "/Tools/Chat.lnk", (chatPath, Some (js "--tray")));
    (startMenu ++ js "/Tools/Notes.lnk", (notesPath, None)) ].

Definition sampleFiles : assoc file :=
  [ (lowerLatin1 chatPath, networkingExe);
    (lowerLatin1 notesPath, offlineExe) ].

Definition host1 : Host := sampleHost sampleMenu sampleLinks sampleFiles.

Definition firefoxShortcut : ShortcutDetails :=
  mkShortcut firefoxPath (js "Firefox") None false.


(** Two shortcuts to one program, their targets differing in letter case. *)
Definition plainShortcut : ShortcutDetails :=
  mkShortcut (js "C:\Apps\Chat\Chat.exe") (js "Chat") (Some []) false.

Definition flaggedShortcut : ShortcutDetails :=
  mkShortcut (js "c:\apps\chat\CHAT.exe") (js "Chat (flag)") (Some (js "--flag")) false.

(** Two shortcuts to one program whose name begins with a capital E acute
    (U+00C9) in one target and with a small one (U+00E9) in the other. *)
Definition ecolePlain : ShortcutDetails :=
  mkShortcut (js "C:\Apps\" ++ [233] ++ js "cole.exe") (js "Ecole") None false.

Definition ecoleFlagged : ShortcutDetails :=
  mkShortcut (js "C:\Apps\" ++ [201] ++ js "cole.exe") (js "Ecole")
             (Some (js "-a")) false.

(** The application cache holds an application for the target with the
    small letter. *)
Definition ecoleApplication : IWindowsApplication :=
  mkApplication (target ecolePlain) (js "Ecole") (js "data:image/png;base64,")
                false.

Definition cachesWithEcole : Caches :=
  mkCaches [] [ (lowerLatin1 (target ecolePlain), ecoleApplication) ] [].

(** A link on the desktop to a program the user added before. *)
Definition desktopLink : jsstring := js "C:\Users\u\Desktop\Chat.lnk".

Definition host2 : Host :=
  sampleHost (FsDir []) [ (desktopLink, (chatPath, None)) ]
             [ (lowerLatin1 chatPath, networkingExe) ].

Definition cachesWithChat : Caches :=
  mkCaches [] [] [ mkShortcut chatPath (js "Chat") None true ].

(** The same, and the link itself was passed to [getApplications] as an
    application path before, which made it an additional shortcut too. *)
Definition cachesWithLink : Caches :=
  mkCaches [] []
    [ mkShortcut chatPath (js "Chat") None true;
      mkShortcut desktopLink (js "Chat") None true ].

(** Caches after the user added the chat program and the catalog was
    listed. *)
Definition chatApplication : IWindowsApplication :=
  mkApplication chatPath (js "Chat") (js "data:image/png;base64,") true.

Definition notesApplication : IWindowsApplication :=
  mkApplication notesPath (js "Notes") (js "data:image/png;base64,") true.

Definition cachesListed : Caches :=
  mkCaches [ (lowerLatin1 firefoxPath, firefoxShortcut) ]
           [ (lowerLatin1 chatPath, chatApplication);
             (lowerLatin1 notesPath, notesApplication) ]
           [ mkShortcut chatPath (js "Chat") None true;
             mkShortcut notesPath (js "Notes") None true ].

(** *** An executable with version information

    The resource section holds the tree type 16 -> name 1 -> language 1033
    and, behind it, the version block with one string table. *)
Definition versionInfoBytes (strings : list (string * string)) : list Z :=
  let entries := flat_map (fun kv => stringEntry (fst kv) (snd kv)) strings in
  let table :=
    u16 (24 + Z.of_nat (List.length entries)) ++ u16 0 ++ u16 1
    ++ wstring "040904B0" ++ [0; 0] ++ entries in
  let info :=
    u16 (36 + Z.of_nat (List.length table)) ++ u16 0 ++ u16 1
    ++ wstring "StringFileInfo" ++ [0; 0] ++ table in
  u16 (92 + Z.of_nat (List.length info)) ++ u16 52 ++ u16 0
  ++ wstring "VS_VERSION_INFO" ++ [0; 0] ++ zeros 2
  ++ zeros 52
  ++ info.

Definition versionedExe (strings : list (string * string)) : file :=
  image PEsignature 0 0x1000
    (resourceTable 0 1 [(16, subdirectory 24)]
     ++ resourceTable 0 1 [(1, subdirectory 48)]
     ++ resourceTable 0 1 [(1033, 72)]
     ++ u32 (0x1000 + 88) ++ zeros 12
     ++ versionInfoBytes strings).

Definition exampleApp : file :=
  versionedExe [("CompanyName", "Example"); ("ProductName", "Example App")]%string.

Definition describedApp : file :=
  versionedExe [("FileDescription", "Example Chat");
                ("ProductName", "Example App")]%string.

(** *** An executable with two version blocks

    The language level of the resource tree has the leaves 0 and 1033. The
    block of language 0 carries a key that is not [VS_VERSION_INFO]; the
    block of language 1033 is in order. *)
Definition brokenVersionBlock : list Z :=
  u16 40 ++ u16 0 ++ u16 0 ++ wstring "XX_VERSION_INFO" ++ [0; 0] ++ zeros 2.

Definition twoBlockExe : file :=
  image PEsignature 0 0x1000
    (resourceTable 0 1 [(16, subdirectory 24)]
     ++ resourceTable 0 1 [(1, subdirectory 48)]
     ++ resourceTable 0 2 [(0, 80); (1033, 96)]
     ++ u32 (0x1000 + 112) ++ zeros 12
     ++ u32 (0x1000 + 152) ++ zeros 12
     ++ brokenVersionBlock
     ++ versionInfoBytes [("ProductName", "Example App")]%string).

(* ================================================================== *)
(** ** A sample run *)

(** Icons are there for every file; names are compared code unit by code
    unit; what was started completes in reverse order. *)
Fixpoint compareUnits (a b : jsstring) : Z :=
  match a, b with
  | [], [] => 0
  | [], _ :: _ => -1
  | _ :: _, [] => 1
  | x :: a', y :: b' => if x =? y then compareUnits a' b' else x - y
  end.

Definition runtime1 : Runtime :=
  mkRuntime (fun exe => Some (js "data:image/png;base64," ++ exe))
            compareUnits
            (fun l => rev l)
            (fun l => rev l).

(** A start menu with a folder one of whose items cannot be examined. *)
Definition brokenMenu : fsnode :=
  FsDir [ (js "Firefox.lnk", FsFile);
          (js "Tools", FsDir [ (js "Chat.lnk", FsFile);
                               (js "Gone", FsNoStat) ]) ].

Definition host3 : Host := sampleHost brokenMenu sampleLinks sampleFiles.

(* ================================================================== *)
(** * Properties *)

(** ** Strings and maps *)

Lemma jseqb_eq (a b : jsstring) : jseqb a b = true <-> a = b.
Proof.
  revert b; induction a as [|x a IH]; intros [|y b]; simpl;
    try (split; [discriminate | congruence]); try tauto.
  rewrite andb_true_iff, Z.eqb_eq, IH. split.
  - intros [-> ->]; reflexivity.
  - intros E; injection E; auto.
Qed.

Lemma jseqb_refl (a : jsstring) : jseqb a a = true.
Proof. apply jseqb_eq; reflexivity. Qed.

Lemma jseqb_neq (a b : jsstring) : jseqb a b = false <-> a <> b.
Proof.
  rewrite <- jseqb_eq. destruct (jseqb a b); split; congruence.
Qed.

Lemma jseqb_sym (a b : jsstring) : jseqb a b = jseqb b a.
Proof.
  destruct (jseqb a b) eqn:E.
  - apply jseqb_eq in E; subst; symmetry; apply jseqb_refl.
  - apply jseqb_neq in E. symmetry. apply jseqb_neq. congruence.
Qed.

Section AssocFacts.
Variable V : Type.
Implicit Types (m : assoc V) (k : jsstring) (v : V).

Lemma aget_aset_same m k v : aget (aset m k v) k = Some v.
Proof.
  induction m as [|[k' v'] m IH]; simpl.
  - now rewrite jseqb_refl.
  - destruct (jseqb k' k) eqn:E; simpl; rewrite E; auto.
Qed.

Lemma aget_aset_other m k k' v :
  k' <> k -> aget (aset m k v) k' = aget m k'.
Proof.
  intros N.
  assert (jseqb k k' = false) as Nb by (apply jseqb_neq; congruence).
  induction m as [|[k0 v0] m IH]; simpl.
  - now rewrite Nb.
  - destruct (jseqb k0 k) eqn:E; simpl.
    + apply jseqb_eq in E; subst k0. now rewrite Nb.
    + destruct (jseqb k0 k'); auto.
Qed.

Lemma aget_adelete_same m k : aget (adelete m k) k = None.
Proof.
  induction m as [|[k' v'] m IH]; simpl; auto.
  destruct (jseqb k' k) eqn:E; simpl; auto. now rewrite E.
Qed.

Lemma aget_adelete_other m k k' :
  k' <> k -> aget (adelete m k) k' = aget m k'.
Proof.
  intros N. induction m as [|[k0 v0] m IH]; simpl; auto.
  destruct (jseqb k0 k) eqn:E; simpl.
  - apply jseqb_eq in E; subst k0.
    assert (jseqb k k' = false) as -> by (apply jseqb_neq; congruence).
    exact IH.
  - destruct (jseqb k0 k'); auto.
Qed.

Lemma aget_In m k v : aget m k = Some v -> In (k, v) m.
Proof.
  induction m as [|[k' v'] m IH]; simpl; [discriminate|].
  destruct (jseqb k' k) eqn:E.
  - apply jseqb_eq in E; subst. intros [= ->]. now left.
  - intros H; right; auto.
Qed.

Lemma aget_None_keys m k : aget m k = None <-> ~ In k (akeys m).
Proof.
  induction m as [|[k' v'] m IH]; simpl; [tauto|].
  destruct (jseqb k' k) eqn:E.
  - apply jseqb_eq in E; subst. split; [discriminate | tauto].
  - apply jseqb_neq in E. rewrite IH. tauto.
Qed.

Lemma akeys_aset m k v :
  akeys (aset m k v)
  = match aget m k with Some _ => akeys m | None => akeys m ++ [k] end.
Proof.
  induction m as [|[k' v'] m IH]; simpl; auto.
  destruct (jseqb k' k) eqn:E; simpl; auto.
  rewrite IH. destruct (aget m k); reflexivity.
Qed.
End AssocFacts.

(* ================================================================== *)
(** ** Removing an application *)

(** C9. [removeApplicationFromCache] keeps, in order, exactly the additional
    shortcuts whose target differs from the entry's absolute path, deletes
    the entry's lower-cased path (lower-cased as the host does it) from the
    application cache and leaves every other key of it alone, and does not
    change the shortcut cache. *)
Theorem removeApplicationFromCache_effect (h : Host)
  (application : IWindowsApplication) (c : Caches) :
  let c' := removeApplicationFromCache h application c in
  (forall s, In s (additionalShortcuts c') <->
             In s (additionalShortcuts c) /\ target s <> absolutepath application)
  /\ aget (applicationCache c') (str_toLowerCase h (absolutepath application)) = None
  /\ (forall k, k <> str_toLowerCase h (absolutepath application) ->
                aget (applicationCache c') k = aget (applicationCache c) k)
  /\ shortcutCache c' = shortcutCache c.
Proof.
  cbv zeta. unfold removeApplicationFromCache; simpl.
  split; [|split; [|split]].
  - intros s. rewrite filter_In, negb_true_iff, jseqb_neq. tauto.
  - apply aget_adelete_same.
  - intros k N. now apply aget_adelete_other.
  - reflexivity.
Qed.

Lemma removeApplicationFromCache_effect_witness :
  ((In (mkShortcut notesPath (js "Notes") None true)
       (additionalShortcuts
          (removeApplicationFromCache host1 chatApplication cachesListed))
    /\ ~ In (mkShortcut chatPath (js "Chat") None true)
           (additionalShortcuts
              (removeApplicationFromCache host1 chatApplication cachesListed)))
   /\ aget (applicationCache
              (removeApplicationFromCache host1 chatApplication cachesListed))
           (str_toLowerCase host1 notesPath) = Some notesApplication
   /\ shortcutCache (removeApplicationFromCache host1 chatApplication cachesListed)
      = [ (str_toLowerCase host1 firefoxPath, firefoxShortcut) ])
  /\ aget (applicationCache
             (removeApplicationFromCache host1
                (mkApplication (target ecoleFlagged) (js "Ecole") [] false)
                cachesWithEcole))
          (lowerLatin1 (target ecolePlain)) = None.
Proof.
  destruct (removeApplicationFromCache_effect host1 chatApplication cachesListed)
    as [Hadd [_ [Hother Hsame]]].
  destruct (removeApplicationFromCache_effect host1
              (mkApplication (target ecoleFlagged) (js "Ecole") [] false)
              cachesWithEcole) as [_ [Hgone _]].
  split; [split; [split|split]|].
  - apply Hadd. split; [right; left; reflexivity|]. vm_compute. discriminate.
  - intros Hin. apply Hadd in Hin. destruct Hin as [_ Hne]. now apply Hne.
  - rewrite Hother; [reflexivity|]. vm_compute. discriminate.
  - rewrite Hsame. reflexivity.
  - exact Hgone.
Defined.

(* ================================================================== *)
(** ** Duplicate shortcuts *)

Lemma removeDuplicates_pair_first (h : Host) (a b : ShortcutDetails) :
  str_toLowerCase h (target a) = str_toLowerCase h (target b) ->
  inherited (str_toLowerCase h (target a)) = false ->
  truthy (args a) = false ->
  removeDuplicates h [a; b] = [a].
Proof.
  intros K I A. unfold removeDuplicates; simpl.
  unfold removeDuplicates_step at 2. unfold oget; simpl. rewrite I. simpl.
  unfold removeDuplicates_step, oget; simpl.
  rewrite <- K, jseqb_refl, A. reflexivity.
Qed.

Lemma removeDuplicates_pair_second (h : Host) (a b : ShortcutDetails) :
  str_toLowerCase h (target a) = str_toLowerCase h (target b) ->
  inherited (str_toLowerCase h (target a)) = false ->
  truthy (args a) = false ->
  truthy (args b) = true ->
  removeDuplicates h [b; a] = [a].
Proof.
  intros K I A B. unfold removeDuplicates; simpl.
  unfold removeDuplicates_step at 2. unfold oget; simpl.
  rewrite <- K, I. simpl.
  unfold removeDuplicates_step, oget; simpl.
  rewrite jseqb_refl, A, B. reflexivity.
Qed.

(** C2, as the code has it. Of two shortcuts whose targets are equal up to
    letter case, that is, have the same lower-cased form (which does not
    name an inherited object property), one without arguments and one
    with, [removeDuplicates] returns exactly one descriptor: the one
    without arguments, whichever comes first. *)
Theorem removeDuplicates_keeps_plain (h : Host) (a b : ShortcutDetails) :
  str_toLowerCase h (target a) = str_toLowerCase h (target b) ->
  inherited (str_toLowerCase h (target a)) = false ->
  truthy (args a) = false ->
  truthy (args b) = true ->
  removeDuplicates h [a; b] = [a] /\ removeDuplicates h [b; a] = [a].
Proof.
  intros K I A B. split.
  - now apply removeDuplicates_pair_first.
  - now apply removeDuplicates_pair_second.
Qed.

Lemma removeDuplicates_keeps_plain_witness :
  (removeDuplicates host1 [plainShortcut; flaggedShortcut] = [plainShortcut]
   /\ removeDuplicates host1 [flaggedShortcut; plainShortcut] = [plainShortcut])
  /\ (removeDuplicates host1 [ecolePlain; ecoleFlagged] = [ecolePlain]
      /\ removeDuplicates host1 [ecoleFlagged; ecolePlain] = [ecolePlain]).
Proof.
  split.
  - apply (removeDuplicates_keeps_plain host1 plainShortcut flaggedShortcut);
      vm_compute; reflexivity.
  - apply (removeDuplicates_keeps_plain host1 ecolePlain ecoleFlagged);
      vm_compute; reflexivity.
Defined.

(** C2 as stated fails: the two shortcuts have the same target up to letter
    case, one has empty arguments and the other the arguments [--flag], and
    the descriptor returned is not the one with the arguments, in either
    order. *)
Lemma removeDuplicates_drops_flagged :
  str_toLowerCase host1 (target plainShortcut) = str_toLowerCase host1 (target flaggedShortcut)
  /\ args plainShortcut = Some []
  /\ args flaggedShortcut = Some (js "--flag")
  /\ removeDuplicates host1 [plainShortcut; flaggedShortcut] <> [flaggedShortcut]
  /\ removeDuplicates host1 [flaggedShortcut; plainShortcut] <> [flaggedShortcut].
Proof.
  repeat split; try (vm_compute; reflexivity); vm_compute; discriminate.
Qed.

(* ================================================================== *)
(** ** Adding an application *)

(** A path that is not a link and is already known, by its lower-cased form,
    to the shortcut cache or to the additional shortcuts, is not added
    again. *)
Lemma addApplicationPathToCache_known_executable
  (h : Host) (applicationPath : jsstring) (c : Caches) :
  path_parse_ext h applicationPath <> js ".lnk" ->
  (aget (shortcutCache c) (str_toLowerCase h applicationPath) <> None
   \/ exists s, In s (additionalShortcuts c)
                /\ str_toLowerCase h (target s) = str_toLowerCase h applicationPath) ->
  addApplicationPathToCache h applicationPath c = Ret (applicationPath, c).
Proof.
  intros E K. unfold addApplicationPathToCache.
  apply jseqb_neq in E. rewrite E.
  unfold addApplicationToAdditionalShortcuts.
  destruct K as [K | [s [Hs Ks]]].
  - unfold oget. destruct (aget (shortcutCache c) _); [|congruence].
    reflexivity.
  - match goal with |- context [negb (existsb ?p ?l)] =>
      assert (existsb p l = true) as ->
    end.
    { apply existsb_exists. exists s. split; auto. now apply jseqb_eq. }
    rewrite andb_false_r. reflexivity.
Qed.

(** C8 at a link. The link on the desktop is among the additional
    shortcuts, as a path and with the program it resolves to; the call
    appends one more descriptor for that program all the same. (The branch
    for paths that are not links checks first, see
    [addApplicationPathToCache_known_executable].) *)
Theorem addApplicationPathToCache_link_appends_known_target :
  path_parse_ext host2 desktopLink = js ".lnk"
  /\ (exists s, In s (additionalShortcuts cachesWithLink)
                /\ str_toLowerCase host2 (target s) = str_toLowerCase host2 desktopLink)
  /\ (exists s, In s (additionalShortcuts cachesWithLink)
                /\ str_toLowerCase host2 (target s) = str_toLowerCase host2 chatPath)
  /\ exists c',
       addApplicationPathToCache host2 desktopLink cachesWithLink
       = Ret (chatPath, c')
       /\ map target (additionalShortcuts c')
          = [chatPath; desktopLink; chatPath].
Proof.
  split; [vm_compute; reflexivity|]. split; [|split].
  - eexists. split; [right; left; reflexivity|]. reflexivity.
  - eexists. split; [left; reflexivity|]. reflexivity.
  - eexists. split; vm_compute; reflexivity.
Qed.

(* ================================================================== *)
(** ** Every call comes to an end

    The budgets built into [readString], [getImportModuleNames] and
    [parseStrings] are never used up, and the other functions have no loop
    without a bound: no call of the model is left [Running]. *)

Lemma finished_Ret {A} (a : A) : finished (Ret a).
Proof. discriminate. Qed.

Lemma finished_Throw {A} (e : exn) : finished (@Throw A e).
Proof. discriminate. Qed.

Lemma finished_bind {A B} (c : comp A) (k : A -> comp B) :
  finished c -> (forall a, c = Ret a -> finished (k a)) -> finished (bind c k).
Proof.
  unfold finished. destruct c; simpl; intros Hc Hk; auto. discriminate.
Qed.

Lemma finished_tryCatch {A} (c : comp A) (h : A) :
  finished c -> exists a, tryCatch c h = Ret a.
Proof.
  unfold finished. destruct c; simpl; intros Hc; eauto. congruence.
Qed.

Lemma finished_fromFile f off d : finished (fromFile f off d).
Proof. unfold fromFile. destruct (_ && _); discriminate. Qed.

Lemma fromFile_inv f off d v :
  fromFile f off d = Ret v ->
  0 <= off /\ off + sizeOf d <= fileSize f
  /\ v = mkValue off (sizeOf d) (readBuffer f off (Z.to_nat (sizeOf d))).
Proof.
  unfold fromFile. destruct (_ && _) eqn:E; [|discriminate].
  apply andb_true_iff in E. destruct E as [E1 E2].
  apply Z.leb_le in E1, E2. intros [= <-]. auto.
Qed.

Ltac fin_step :=
  match goal with
  | |- finished (bind _ _) => apply finished_bind; [|intros ? ?]
  | |- finished (if ?b then _ else _) => destruct b eqn:?
  | |- finished (match ?o with Some _ => _ | None => _ end) => destruct o eqn:?
  | |- finished (Ret _) => apply finished_Ret
  | |- finished (Throw _) => apply finished_Throw
  | |- finished (fromFile _ _ _) => apply finished_fromFile
  end.

Lemma byteAt_outside f off : fileSize f <= off -> byteAt f off = 0.
Proof.
  unfold byteAt, fileSize. intros H.
  destruct (off <? 0) eqn:E; auto.
  apply Z.ltb_ge in E.
  assert (nth_error f (Z.to_nat off) = None) as ->; auto.
  apply nth_error_None. lia.
Qed.

Lemma byteAt_nonzero_inside f off :
  byteAt f off <> 0 -> 0 <= off < fileSize f.
Proof.
  intros H. split.
  - unfold byteAt in H. destruct (off <? 0) eqn:E; [congruence|].
    now apply Z.ltb_ge in E.
  - destruct (Z.lt_ge_cases off (fileSize f)); auto.
    now rewrite byteAt_outside in H.
Qed.

Lemma readBuffer_nonzero_inside f off n :
  forallb (Z.eqb 0) (readBuffer f off n) = false ->
  exists j, (j < n)%nat /\ 0 <= off + Z.of_nat j < fileSize f.
Proof.
  unfold readBuffer. intros H.
  destruct (forallb_forall (Z.eqb 0) (map (fun i => byteAt f (off + Z.of_nat i)) (seq 0 n)))
    as [_ All].
  destruct (existsb (fun j => negb (0 =? byteAt f (off + Z.of_nat j))) (seq 0 n)) eqn:E.
  - apply existsb_exists in E. destruct E as [j [Hj Hb]].
    apply in_seq in Hj. exists j. split; [lia|].
    apply byteAt_nonzero_inside. apply negb_true_iff, Z.eqb_neq in Hb. congruence.
  - rewrite All in H; [discriminate|].
    intros x Hx. apply in_map_iff in Hx. destruct Hx as [j [<- Hj]].
    destruct (0 =? byteAt f (off + Z.of_nat j)) eqn:Z0; auto.
    assert (existsb (fun j => negb (0 =? byteAt f (off + Z.of_nat j))) (seq 0 n) = true)
      as T; [|congruence].
    apply existsb_exists. exists j. split; auto. now rewrite Z0.
Qed.

Lemma getCharacterSize_pos e : 1 <= getCharacterSize e <= 2.
Proof. destruct e; simpl; lia. Qed.

(** With a budget above the number of bytes left, [readString] returns: a
    string and an end offset past its first character. It never throws. *)
Lemma readString_fuel_returns fuel f off e :
  Z.max 0 (fileSize f - off) < Z.of_nat fuel ->
  exists s endOffset,
    readString_fuel fuel f off e = Ret (s, endOffset)
    /\ off + getCharacterSize e <= endOffset.
Proof.
  revert off. induction fuel as [|fuel IH]; intros off Hf; [lia|].
  simpl. destruct (forallb _ _) eqn:Zs.
  - eexists _, _. split; [reflexivity|lia].
  - apply readBuffer_nonzero_inside in Zs. destruct Zs as [j [Hj Hin]].
    pose proof (getCharacterSize_pos e) as Hc.
    destruct (IH (off + getCharacterSize e)) as [s [eo [-> Heo]]]; [lia|].
    simpl. eexists _, _. split; [reflexivity|lia].
Qed.

Lemma readString_returns f off e :
  exists s endOffset,
    readString f off e = Ret (s, endOffset)
    /\ off + getCharacterSize e <= endOffset.
Proof. apply readString_fuel_returns. lia. Qed.

Lemma finished_readString f off e : finished (readString f off e).
Proof.
  destruct (readString_returns f off e) as [s [eo [-> _]]]. discriminate.
Qed.

Lemma finished_rvaToOffsetImpl f rva n e : finished (rvaToOffsetImpl f rva n e).
Proof.
  unfold rvaToOffsetImpl. generalize (Z.to_nat n) as k. intros k. revert e.
  induction k as [|k IH]; intros e; simpl; repeat fin_step. apply IH.
Qed.

Lemma finished_getNtHeader f : finished (getNtHeader f).
Proof. unfold getNtHeader. repeat fin_step. Qed.

(** What [getTableOffset] hands back translates RVAs without looping. *)
Lemma getTableOffset_translator f idx off rvaToOffset :
  getTableOffset f idx = Ret (Some (off, rvaToOffset)) ->
  forall rva, finished (rvaToOffset rva).
Proof.
  unfold getTableOffset. destruct (getNtHeader f) as [nt| |]; simpl; try discriminate.
  destruct (_ =? 0); [discriminate|].
  destruct (rvaToOffsetImpl _ _ _ _); simpl; try discriminate.
  intros [= _ <-] rva. apply finished_rvaToOffsetImpl.
Qed.

Lemma finished_getTableOffset f idx : finished (getTableOffset f idx).
Proof.
  unfold getTableOffset. repeat fin_step; auto using finished_getNtHeader.
  apply finished_rvaToOffsetImpl.
Qed.

Lemma finished_getImportModuleNames_loop fuel f off (rvaToOffset : RvaToOffset) i names :
  (forall rva, finished (rvaToOffset rva)) ->
  (1 <= fuel)%nat ->
  (0 <= off + i * 20 -> fileSize f - (off + i * 20) < 20 * Z.of_nat fuel) ->
  finished (getImportModuleNames_loop fuel f off rvaToOffset i names).
Proof.
  intros Hr. revert i names.
  induction fuel as [|fuel IH]; intros i names H1 H2; [lia|].
  simpl. apply finished_bind; [apply finished_fromFile|].
  intros entry He. apply fromFile_inv in He. destruct He as [P1 [P2 _]].
  unfold sizeOf, IMAGE_IMPORT_MODULE_DIRECTORY in *.
  destruct (negb _); [|apply finished_Ret].
  apply finished_bind; [apply Hr|]. intros o _.
  apply finished_bind; [apply finished_readString|]. intros r _.
  apply IH; lia.
Qed.

Lemma finished_getImportModuleNames f off (rvaToOffset : RvaToOffset) :
  (forall rva, finished (rvaToOffset rva)) ->
  finished (getImportModuleNames f off rvaToOffset).
Proof.
  intros Hr. unfold getImportModuleNames, getImportModuleNames_fuel.
  apply finished_getImportModuleNames_loop; auto; [lia|].
  unfold fileSize. lia.
Qed.

(** [getExeImports] always returns a list. *)
Lemma getExeImports_returns f : exists names, getExeImports f = Ret names.
Proof.
  unfold getExeImports, getExeImports_try. apply finished_tryCatch.
  apply finished_bind; [apply finished_getTableOffset|].
  intros [[off rva]|] H; [|apply finished_Ret].
  apply finished_getImportModuleNames.
  eapply getTableOffset_translator; eauto.
Qed.

Lemma finished_getResourceTreeLeafValueOffset f off (rvaToOffset : RvaToOffset) :
  (forall rva, finished (rvaToOffset rva)) ->
  finished (getResourceTreeLeafValueOffset f off rvaToOffset).
Proof.
  intros Hr. unfold getResourceTreeLeafValueOffset. fin_step; [fin_step|apply Hr].
Qed.

Lemma finished_getResourceTreeLeafOffsets_loop f sec tbl (rvaToOffset : RvaToOffset)
  ids path descend n i leaves :
  (forall rva, finished (rvaToOffset rva)) ->
  (forall t, finished (descend t)) ->
  finished (getResourceTreeLeafOffsets_loop f sec tbl rvaToOffset ids path
              descend n i leaves).
Proof.
  intros Hr Hd. revert i leaves.
  induction n as [|n IH]; intros i leaves; simpl; [apply finished_Ret|].
  apply finished_bind; [apply finished_fromFile|]. intros entry _.
  destruct ids as [ids|]; [|apply finished_Throw].
  destruct (negb (includesNum _ _)); [apply IH|].
  destruct (_ && _).
  - apply finished_bind;
      [now apply finished_getResourceTreeLeafValueOffset | intros; apply IH].
  - destruct (negb _); [|apply IH].
    apply finished_bind; [apply Hd | intros; apply IH].
Qed.

Lemma finished_getResourceTreeLeafOffsets f sec tbl (rvaToOffset : RvaToOffset) path :
  (forall rva, finished (rvaToOffset rva)) ->
  finished (getResourceTreeLeafOffsets f sec tbl rvaToOffset path).
Proof.
  intros Hr. revert tbl.
  induction path as [|ids path IH]; intros tbl; simpl;
    unfold getResourceTreeLeafOffsets_table;
    (apply finished_bind; [apply finished_fromFile|]); intros table _;
    apply finished_getResourceTreeLeafOffsets_loop; auto.
  intros; apply finished_Throw.
Qed.

Lemma alignDword_ge x : x <= alignDword x.
Proof.
  unfold alignDword.
  pose proof (Z.div_mod (x + 3) 4 ltac:(lia)).
  pose proof (Z.mod_pos_bound (x + 3) 4 ltac:(lia)). lia.
Qed.

Lemma alignDword_lt x : alignDword x < x + 4.
Proof.
  unfold alignDword.
  pose proof (Z.div_mod (x + 3) 4 ltac:(lia)).
  pose proof (Z.mod_pos_bound (x + 3) 4 ltac:(lia)). lia.
Qed.

Lemma finished_bufferAlloc n : finished (bufferAlloc n).
Proof. unfold bufferAlloc. destruct (_ <? _); discriminate. Qed.

Lemma finished_parseStrings_entry f cur : finished (parseStrings_entry f cur).
Proof.
  unfold parseStrings_entry.
  apply finished_bind; [apply finished_fromFile|]. intros sv _.
  apply finished_bind; [apply finished_readString|]. intros r _.
  apply finished_bind; [apply finished_bufferAlloc|]. intros n _.
  apply finished_Ret.
Qed.

(** What a pass of the loop body that does not throw has computed. *)
Lemma parseStrings_entry_inv f cur e :
  parseStrings_entry f cur = Ret e ->
  exists sv key endOffset,
    fromFile f cur STRING_TABLE_STRING = Ret sv
    /\ readString f (cur + 6) ucs2_enc = Ret (key, endOffset)
    /\ szKey e = key
    /\ valueReadSize e
       = Z.min ((value (get sv wValueLength) - 1) * 2)
               (value (get sv wLength) - (alignDword endOffset - cur) - 2)
    /\ 0 <= valueReadSize e
    /\ entryValue e
       = toStringUcs2 (readBuffer f (alignDword endOffset)
                         (Z.to_nat (valueReadSize e)))
    /\ nextStringOffset e = cur + alignDword (value (get sv wLength)).
Proof.
  unfold parseStrings_entry. intros H.
  destruct (fromFile f cur STRING_TABLE_STRING) as [sv| |] eqn:Hsv;
    simpl in H; try discriminate.
  pose proof (fromFile_inv _ _ _ _ Hsv) as [_ [_ Esv]].
  assert (v_size sv = 6) as Hsz by (subst sv; reflexivity).
  rewrite Hsz in H.
  destruct (readString f (cur + 6) ucs2_enc) as [[key eo]| |] eqn:Hk;
    simpl in H; try discriminate.
  unfold bufferAlloc in H.
  destruct (_ <? 0) eqn:Hneg; simpl in H; [discriminate|].
  apply Z.ltb_ge in Hneg. injection H as <-. simpl.
  exists sv, key, eo. repeat split; auto.
Qed.

(** A pass of the loop body that does not throw moves the offset on. *)
Lemma parseStrings_entry_advances f cur e :
  parseStrings_entry f cur = Ret e -> cur + 10 <= nextStringOffset e.
Proof.
  intros H. apply parseStrings_entry_inv in H.
  destruct H as [sv [key [eo [_ [Hk [_ [Hsz [Hpos [_ Hn]]]]]]]]].
  destruct (readString_returns f (cur + 6) ucs2_enc) as [s [eo' [Hk' Heo]]].
  rewrite Hk in Hk'. injection Hk' as _ <-. simpl in Heo.
  pose proof (alignDword_ge eo). pose proof (alignDword_ge (value (get sv wLength))).
  lia.
Qed.

Lemma finished_parseStrings_loop fuel f stringTableEnd cur strings :
  stringTableEnd - cur <= Z.of_nat fuel ->
  finished (parseStrings_loop fuel f stringTableEnd cur strings).
Proof.
  revert cur strings. induction fuel as [|fuel IH]; intros cur strings Hf;
    simpl; destruct (cur <? stringTableEnd) eqn:Hc;
    try apply finished_Ret; apply Z.ltb_lt in Hc; [lia|].
  apply finished_bind; [apply finished_parseStrings_entry|].
  intros e He. apply parseStrings_entry_advances in He. apply IH. lia.
Qed.

Lemma finished_parseStrings f stringsOffset stringTableEnd :
  finished (parseStrings f stringsOffset stringTableEnd).
Proof.
  unfold parseStrings, parseStrings_fuel. apply finished_parseStrings_loop. lia.
Qed.

Lemma finished_getChildrenOffset f off d validate :
  finished (getChildrenOffset f off d validate).
Proof.
  unfold getChildrenOffset.
  apply finished_bind; [apply finished_readString|]. intros r _.
  destruct validate as [v|]; [destruct (negb _)|]; discriminate.
Qed.

Lemma getVsVersionInfoStrings_returns f off :
  exists strings, getVsVersionInfoStrings f off = Ret strings.
Proof.
  unfold getVsVersionInfoStrings. apply finished_tryCatch.
  apply finished_bind.
  { unfold getVsVersionInfoChildrenOffset.
    apply finished_bind; [apply finished_getChildrenOffset|]. intros.
    apply finished_bind; [apply finished_fromFile|]. intros. apply finished_Ret. }
  intros. apply finished_bind; [apply finished_getChildrenOffset|]. intros.
  apply finished_bind; [apply finished_fromFile|]. intros.
  apply finished_bind; [apply finished_getChildrenOffset|]. intros.
  apply finished_parseStrings.
Qed.

Lemma finished_getProductName_reduce f leafOffsets acc :
  finished acc ->
  finished (fold_left (getProductName_step f) leafOffsets acc).
Proof.
  revert acc. induction leafOffsets as [|l ls IH]; intros acc Ha; simpl; auto.
  apply IH. unfold getProductName_step.
  apply finished_bind; auto. intros v _.
  destruct (truthy v); [apply finished_Ret|].
  destruct (getVsVersionInfoStrings_returns f l) as [s ->]. simpl. discriminate.
Qed.

(** [getProductName] always returns a name or [undefined]. *)
Lemma getProductName_returns fs path :
  exists r, getProductName fs path = Ret r.
Proof.
  unfold getProductName. destruct (fs path) as [f|]; [|eauto].
  apply finished_tryCatch. unfold getProductName_try.
  apply finished_bind; [apply finished_getTableOffset|].
  intros [[off rva]|] H; [|apply finished_Ret].
  apply finished_bind.
  - apply finished_getResourceTreeLeafOffsets.
    eapply getTableOffset_translator; eauto.
  - intros. apply finished_getProductName_reduce. apply finished_Ret.
Qed.

Lemma importsDll_returns fs path dllName :
  exists b, importsDll fs path dllName = Ret b.
Proof.
  unfold importsDll. destruct (fs path) as [f|]; [|eauto].
  destruct (getExeImports_returns f) as [names ->]. simpl. eauto.
Qed.

(* ================================================================== *)
(** ** Headers *)

Lemma getNtHeader_rejects_magic f dosHeader :
  fromFile f 0 DOS_HEADER = Ret dosHeader ->
  value (get dosHeader e_magic) <> 0x5a4d ->
  getNtHeader f = Throw NotAPEFile.
Proof.
  intros Hd Hm. unfold getNtHeader. rewrite Hd. cbn [bind].
  apply Z.eqb_neq in Hm. now rewrite Hm.
Qed.

(** The signature as the code compares it: the four bytes decoded as
    ASCII. *)
Lemma getNtHeader_rejects_signature f dosHeader ntHeader32 :
  fromFile f 0 DOS_HEADER = Ret dosHeader ->
  value (get dosHeader e_magic) = 0x5a4d ->
  fromFile f (value (get dosHeader e_lfanew)) IMAGE_NT_HEADERS = Ret ntHeader32 ->
  toStringAscii (v_buffer (get ntHeader32 Signature)) <> PE00 ->
  getNtHeader f = Throw NotAPEFile.
Proof.
  intros Hd Hm Hn Hs. unfold getNtHeader. rewrite Hd. cbn [bind].
  apply Z.eqb_eq in Hm. rewrite Hm. cbn [negb]. rewrite Hn. cbn [bind].
  apply jseqb_neq in Hs. now rewrite Hs.
Qed.

(** A header that is returned was read at [e_lfanew] of a file with the
    right magic number, and its decoded signature is the expected one. *)
Lemma getNtHeader_returns_checked f nt :
  getNtHeader f = Ret nt ->
  exists dosHeader,
    fromFile f 0 DOS_HEADER = Ret dosHeader
    /\ value (get dosHeader e_magic) = 0x5a4d
    /\ v_offset (headers nt) = value (get dosHeader e_lfanew)
    /\ toStringAscii (v_buffer (get (headers nt) Signature)) = PE00
    /\ fromFile f (value (get dosHeader e_lfanew))
         (match variant nt with
          | Nt32 => IMAGE_NT_HEADERS
          | Nt64 => IMAGE_NT_HEADERS64
          end) = Ret (headers nt).
Proof.
  unfold getNtHeader. intros H.
  destruct (fromFile f 0 DOS_HEADER) as [dos| |] eqn:Hd; cbn [bind] in H;
    try discriminate.
  destruct (value (get dos e_magic) =? 0x5a4d) eqn:Hm; cbn [negb] in H;
    [|discriminate].
  apply Z.eqb_eq in Hm.
  destruct (fromFile f (value (get dos e_lfanew)) IMAGE_NT_HEADERS) as [n32| |] eqn:H32;
    cbn [bind] in H; try discriminate.
  destruct (jseqb _ PE00) eqn:Hs; cbn [negb] in H; [|discriminate].
  apply jseqb_eq in Hs.
  destruct (_ =? 0x20b).
  - destruct (fromFile f (value (get dos e_lfanew)) IMAGE_NT_HEADERS64) as [n64| |] eqn:H64;
      cbn [bind] in H; try discriminate.
    injection H as <-. cbn [headers variant]. exists dos. repeat split; auto.
    + apply fromFile_inv in H64. destruct H64 as [_ [_ ->]]. reflexivity.
    + (* the 64-bit value starts with the same four bytes *)
      apply fromFile_inv in H64, H32.
      destruct H64 as [_ [_ ->]], H32 as [_ [_ E32]].
      rewrite E32 in Hs. exact Hs.
  - injection H as <-. cbn [headers variant]. exists dos. repeat split; auto.
    apply fromFile_inv in H32. destruct H32 as [_ [_ ->]]. reflexivity.
Qed.

(** C4 at a file whose signature is not the four bytes of ["PE\0\0"]. The
    DOS header has the right magic number and points to offset 64, where
    the four signature bytes are D0 C5 80 80; decoding them as ASCII clears
    the top bits, the comparison succeeds, and a header is returned. *)
Theorem getNtHeader_accepts_high_bit_signature :
  (exists dosHeader,
      fromFile highBitExe 0 DOS_HEADER = Ret dosHeader
      /\ value (get dosHeader e_magic) = 0x5a4d
      /\ value (get dosHeader e_lfanew) = 64)
  /\ readBuffer highBitExe 64 4 = [0xd0; 0xc5; 0x80; 0x80]
  /\ readBuffer highBitExe 64 4 <> [0x50; 0x45; 0; 0]
  /\ exists nt,
       getNtHeader highBitExe = Ret nt
       /\ v_offset (headers nt) = 64
       /\ v_buffer (get (headers nt) Signature) = [0xd0; 0xc5; 0x80; 0x80].
Proof.
  split; [|split; [|split]].
  - eexists. split; [vm_compute; reflexivity|]. split; vm_compute; reflexivity.
  - vm_compute; reflexivity.
  - vm_compute; discriminate.
  - eexists. split; [vm_compute; reflexivity|]. split; vm_compute; reflexivity.
Qed.

(* ================================================================== *)
(** ** Failures stay inside the file they occur in *)

Lemma getTableOffset_absent f nt idx :
  getNtHeader f = Ret nt -> directoryRva nt idx = 0 ->
  getTableOffset f idx = Ret None.
Proof.
  intros Hn Hz. unfold getTableOffset. rewrite Hn. cbn [bind]. now rewrite Hz.
Qed.

Lemma getTableOffset_header_error f idx e :
  getNtHeader f = Throw e -> getTableOffset f idx = Throw e.
Proof. intros Hn. unfold getTableOffset. now rewrite Hn. Qed.

Lemma last_cons_default {A} (c : A) cs d : last (c :: cs) d = last cs c.
Proof.
  revert c d. induction cs as [|x cs IH]; intros c d; [reflexivity|].
  change (last (c :: x :: cs) d) with (last (x :: cs) d).
  rewrite IH. symmetry. apply IH.
Qed.

Lemma getProductName_reduce f leafOffsets :
  forall acc,
    fold_left (getProductName_step f) leafOffsets (Ret acc)
    = Ret (if truthy acc then acc
           else match find truthy
                        (map (fun l => versionName (stringsAt f l)) leafOffsets) with
                | Some v => v
                | None => last (map (fun l => versionName (stringsAt f l))
                                    leafOffsets) acc
                end).
Proof.
  induction leafOffsets as [|l ls IH]; intros acc; cbn [fold_left map find].
  - destruct (truthy acc); reflexivity.
  - unfold getProductName_step at 2. cbn [bind].
    destruct (truthy acc) eqn:Ta.
    + rewrite IH, Ta. reflexivity.
    + destruct (getVsVersionInfoStrings_returns f l) as [strings Hs].
      assert (stringsAt f l = strings) as Es by (unfold stringsAt; now rewrite Hs).
      rewrite Hs, Es. cbn [bind]. fold (versionName strings). rewrite IH.
      destruct (truthy (versionName strings)); [reflexivity|].
      now rewrite last_cons_default.
Qed.

Lemma getVsVersionInfoStrings_try_catch f offset :
  getVsVersionInfoStrings f offset
  = tryCatch (getVsVersionInfoStrings_try f offset) [].
Proof. reflexivity. Qed.

(** C3, as the code has it. For a file at [path]: when the import
    (resource) entry of the data directory has virtual address zero,
    [getExeImports] returns the empty list ([getProductName] returns
    [undefined]); when the headers are rejected, or anything else thrown
    while the file is decoded reaches the [try] block of the function, the
    same. What is thrown inside a version block does not reach it: the
    block then counts as one without strings, and [getProductName] gives
    the first name the blocks of the leaves have, whether or not a block
    before it failed. In every case, also when the file cannot be opened,
    both calls return and throw nothing. *)
Theorem per_file_failures_absorbed (fs : FileSystem) (path : jsstring) :
  (forall f, fs path = Some f ->
     (forall nt, getNtHeader f = Ret nt ->
                 directoryRva nt IMAGE_DIRECTORY_ENTRY_IMPORT = 0 ->
                 getExeImports f = Ret [])
     /\ (forall nt, getNtHeader f = Ret nt ->
                    directoryRva nt IMAGE_DIRECTORY_ENTRY_RESOURCE = 0 ->
                    getProductName fs path = Ret None)
     /\ (forall e, getNtHeader f = Throw e ->
                   getExeImports f = Ret []
                   /\ getProductName fs path = Ret None)
     /\ (forall e, getExeImports_try f = Throw e -> getExeImports f = Ret [])
     /\ (forall e, getProductName_try f = Throw e ->
                   getProductName fs path = Ret None)
     /\ (forall leafOffset e,
            getVsVersionInfoStrings_try f leafOffset = Throw e ->
            getVsVersionInfoStrings f leafOffset = Ret []
            /\ versionName (stringsAt f leafOffset) = None)
     /\ (forall resourceTableOffset rvaToOffset leafOffsets,
            getTableOffset f IMAGE_DIRECTORY_ENTRY_RESOURCE
            = Ret (Some (resourceTableOffset, rvaToOffset)) ->
            getResourceTreeLeafOffsets f resourceTableOffset
              resourceTableOffset rvaToOffset [[16]; [1]; [0; 1033]]
            = Ret leafOffsets ->
            getProductName fs path
            = Ret (firstNamed (map (fun l => versionName (stringsAt f l))
                                   leafOffsets)))
     /\ (exists names, getExeImports f = Ret names))
  /\ (fs path = None -> getProductName fs path = Ret None)
  /\ (exists r, getProductName fs path = Ret r)
  /\ (exists b, importsDll fs path (js "WS2_32.dll") = Ret b).
Proof.
  split; [|split; [|split]].
  - intros f Hf.
    split; [|split; [|split; [|split; [|split; [|split; [|split]]]]]].
    + intros nt Hn Hz. unfold getExeImports, getExeImports_try.
      now rewrite (getTableOffset_absent _ _ _ Hn Hz).
    + intros nt Hn Hz. unfold getProductName, getProductName_try. rewrite Hf.
      now rewrite (getTableOffset_absent _ _ _ Hn Hz).
    + intros e He. split.
      * unfold getExeImports, getExeImports_try.
        now rewrite (getTableOffset_header_error _ _ _ He).
      * unfold getProductName, getProductName_try. rewrite Hf.
        now rewrite (getTableOffset_header_error _ _ _ He).
    + intros e He. unfold getExeImports. now rewrite He.
    + intros e He. unfold getProductName. rewrite Hf. now rewrite He.
    + intros leafOffset e He.
      assert (getVsVersionInfoStrings f leafOffset = Ret []) as E
        by (rewrite getVsVersionInfoStrings_try_catch; now rewrite He).
      split; [exact E|]. unfold stringsAt. now rewrite E.
    + intros resourceTableOffset rvaToOffset leafOffsets Ht Hl.
      unfold getProductName, getProductName_try.
      rewrite Hf, Ht. cbn [bind]. rewrite Hl. cbn [bind].
      rewrite getProductName_reduce. reflexivity.
    + apply getExeImports_returns.
  - intros Hf. unfold getProductName. now rewrite Hf.
  - apply getProductName_returns.
  - apply importsDll_returns.
Qed.

Lemma per_file_failures_absorbed_witness :
  getExeImports bareExe = Ret []
  /\ getProductName (fun _ => Some bareExe) chatPath = Ret None
  /\ getExeImports notAnExe = Ret []
  /\ getProductName (fun _ => Some notAnExe) chatPath = Ret None
  /\ getExeImports truncatedExe = Ret []
  /\ getProductName (fun _ => None) chatPath = Ret None.
Proof.
  destruct (per_file_failures_absorbed (fun _ => Some bareExe) chatPath)
    as [Bare _].
  destruct (Bare bareExe eq_refl) as [B1 [B2 _]].
  destruct (per_file_failures_absorbed (fun _ => Some notAnExe) chatPath)
    as [Not _].
  destruct (Not notAnExe eq_refl) as [_ [_ [N1 _]]].
  destruct (per_file_failures_absorbed (fun _ => Some truncatedExe) chatPath)
    as [Cut _].
  destruct (Cut truncatedExe eq_refl) as [_ [_ [_ [T1 _]]]].
  destruct (per_file_failures_absorbed (fun _ => None) chatPath)
    as [_ [Closed _]].
  split; [|split; [|split; [|split; [|split]]]].
  - apply (B1 (mkNt Nt32 (mkValue 64 IMAGE_NT_HEADERS
                            (readBuffer bareExe 64 (Z.to_nat IMAGE_NT_HEADERS)))));
      vm_compute; reflexivity.
  - apply (B2 (mkNt Nt32 (mkValue 64 IMAGE_NT_HEADERS
                            (readBuffer bareExe 64 (Z.to_nat IMAGE_NT_HEADERS)))));
      vm_compute; reflexivity.
  - apply (N1 NotAPEFile). vm_compute; reflexivity.
  - apply (N1 NotAPEFile). vm_compute; reflexivity.
  - apply (T1 ReadError). vm_compute; reflexivity.
  - apply Closed. reflexivity.
Defined.

(** C3 as stated fails. The resource tree of the file has the leaves 0 and
    1033. Decoding the version block of leaf 0 throws, its key is not
    [VS_VERSION_INFO]; the error is caught where the block is decoded, the
    block of leaf 1033 is read next, and [getProductName] returns its
    product name, not [undefined]. *)
Lemma version_block_error_is_passed_over :
  (exists rvaToOffset,
      getTableOffset twoBlockExe IMAGE_DIRECTORY_ENTRY_RESOURCE
      = Ret (Some (352, rvaToOffset))
      /\ getResourceTreeLeafOffsets twoBlockExe 352 352 rvaToOffset
           [[16]; [1]; [0; 1033]] = Ret [464; 504])
  /\ getVsVersionInfoChildrenOffset twoBlockExe 464
     = Throw (InvalidSzKey (js "XX_VERSION_INFO"))
  /\ getVsVersionInfoStrings_try twoBlockExe 464
     = Throw (InvalidSzKey (js "XX_VERSION_INFO"))
  /\ getProductName (fun _ => Some twoBlockExe) chatPath
     = Ret (Some (js "Example App"))
  /\ getProductName (fun _ => Some twoBlockExe) chatPath <> Ret None.
Proof.
  split; [|split; [|split; [|split]]].
  - eexists. split; vm_compute; reflexivity.
  - vm_compute. reflexivity.
  - vm_compute. reflexivity.
  - vm_compute. reflexivity.
  - vm_compute. discriminate.
Qed.

(* ================================================================== *)
(** ** The import table *)

Lemma bytesAt_app f off a b :
  bytesAt f off (a ++ b) <->
  bytesAt f off a /\ bytesAt f (off + Z.of_nat (List.length a)) b.
Proof.
  revert off. induction a as [|x a IH]; intros off; simpl.
  - rewrite Z.add_0_r. tauto.
  - rewrite IH. replace (off + 1 + Z.of_nat (List.length a))
      with (off + Z.pos (Pos.of_succ_nat (List.length a))) by lia. tauto.
Qed.

Lemma readBuffer_one f off : readBuffer f off 1 = [byteAt f off].
Proof. unfold readBuffer. simpl. now rewrite Z.add_0_r. Qed.

(** [readString] on a null-terminated string of non-zero bytes. *)
Lemma readString_fuel_ascii f bytes :
  forall fuel off,
    bytesAt f off (bytes ++ [0]) ->
    Forall (fun b => b <> 0) bytes ->
    (List.length bytes < fuel)%nat ->
    readString_fuel fuel f off ascii_enc
    = Ret (toStringAscii bytes, off + Z.of_nat (List.length bytes) + 1).
Proof.
  induction bytes as [|b bytes IH]; intros fuel off Hb Hnz Hf;
    (destruct fuel as [|fuel]; [simpl in Hf; lia|]).
  - simpl in Hb. destruct Hb as [Hz _].
    cbn [readString_fuel getCharacterSize]. change (Z.to_nat 1) with 1%nat.
    rewrite readBuffer_one, Hz. cbn [forallb Z.eqb andb toStringAscii map List.length].
    do 2 f_equal. lia.
  - simpl in Hb. destruct Hb as [Hx Hrest].
    inversion Hnz as [|? ? Hb0 Hnz']; subst.
    cbn [readString_fuel getCharacterSize]. change (Z.to_nat 1) with 1%nat.
    rewrite readBuffer_one.
    assert (forallb (Z.eqb 0) [byteAt f off] = false) as ->.
    { cbn [forallb]. rewrite andb_true_r. apply Z.eqb_neq. congruence. }
    rewrite (IH fuel (off + 1) Hrest Hnz'); [|simpl in Hf; lia].
    cbn [bind fst snd bufferToString]. simpl toStringAscii.
    do 2 f_equal. simpl List.length. lia.
Qed.

Lemma bytesAt_nonzero_inside f bytes :
  forall off,
    bytesAt f off bytes -> Forall (fun b => b <> 0) bytes ->
    bytes = [] \/ off + Z.of_nat (List.length bytes) <= fileSize f.
Proof.
  induction bytes as [|b bytes IH]; intros off Hb Hnz; [now left|right].
  simpl in Hb. destruct Hb as [Hx Hrest].
  inversion Hnz as [|? ? Hb0 Hnz']; subst.
  pose proof (byteAt_nonzero_inside f off Hb0) as Hin.
  destruct (IH (off + 1) Hrest Hnz') as [-> | Hle]; simpl List.length; lia.
Qed.

Lemma readString_cstring f off s :
  cstringAt f off s -> exists endOffset, readString f off ascii_enc = Ret (s, endOffset).
Proof.
  intros [bytes [Hb [Hnz ->]]]. eexists. unfold readString.
  apply readString_fuel_ascii; auto.
  apply bytesAt_app in Hb. destruct Hb as [Hb _].
  destruct (bytesAt_nonzero_inside _ _ _ Hb Hnz) as [-> | Hle]; simpl; lia.
Qed.

Lemma importTableAt_inside f rvas :
  forall off,
    importTableAt f off rvas ->
    0 <= off /\ off + 20 * (Z.of_nat (List.length rvas) + 1) <= fileSize f.
Proof.
  unfold moduleNameRva.
  induction rvas as [|r rvas IH]; intros off H; simpl in H.
  - unfold moduleNameRva in H.
    destruct (fromFile f off IMAGE_IMPORT_MODULE_DIRECTORY) eqn:E; try discriminate.
    apply fromFile_inv in E. unfold sizeOf, IMAGE_IMPORT_MODULE_DIRECTORY in E.
    simpl List.length. lia.
  - destruct H as [Hr [_ Hrest]]. apply IH in Hrest.
    unfold moduleNameRva in Hr.
    destruct (fromFile f off IMAGE_IMPORT_MODULE_DIRECTORY) eqn:E; try discriminate.
    apply fromFile_inv in E. unfold sizeOf, IMAGE_IMPORT_MODULE_DIRECTORY in *.
    simpl List.length. lia.
Qed.

Lemma moduleNameRva_entry f off r :
  moduleNameRva f off = Ret r ->
  exists entry, fromFile f off IMAGE_IMPORT_MODULE_DIRECTORY = Ret entry
                /\ value (get entry ModuleName) = r.
Proof.
  unfold moduleNameRva.
  destruct (fromFile f off IMAGE_IMPORT_MODULE_DIRECTORY); try discriminate.
  cbn [bind]. intros [= <-]. eauto.
Qed.

Lemma getImportModuleNames_loop_table f off (rvaToOffset : RvaToOffset) rvas :
  forall names fuel i acc,
    importTableAt f (off + i * 20) rvas ->
    Forall2 (fun r n => exists o, rvaToOffset r = Ret o /\ cstringAt f o n)
            rvas names ->
    (List.length rvas < fuel)%nat ->
    getImportModuleNames_loop fuel f off rvaToOffset i acc = Ret (acc ++ names).
Proof.
  induction rvas as [|r rvas IH]; intros names fuel i acc Ht Hn Hf;
    (destruct fuel as [|fuel]; [simpl in Hf; lia|]);
    inversion Hn as [|? n ? names' [o [Ho Hs]] Hn']; subst;
    cbn [getImportModuleNames_loop];
    change (sizeOf IMAGE_IMPORT_MODULE_DIRECTORY) with 20 in *.
  - simpl in Ht. apply moduleNameRva_entry in Ht. destruct Ht as [entry [-> Hv]].
    cbn [bind]. rewrite Hv. simpl. now rewrite app_nil_r.
  - simpl in Ht. destruct Ht as [Hr [Hnz Hrest]].
    apply moduleNameRva_entry in Hr. destruct Hr as [entry [-> Hv]].
    cbn [bind]. rewrite Hv. apply Z.eqb_neq in Hnz. rewrite Hnz. cbn [negb].
    rewrite Ho. cbn [bind].
    destruct (readString_cstring _ _ _ Hs) as [eo ->]. cbn [bind fst].
    rewrite (IH names' fuel (i + 1) (acc ++ [n])); auto.
    + now rewrite <- app_assoc.
    + replace (off + (i + 1) * 20) with (off + i * 20 + 20) by lia. exact Hrest.
    + simpl in Hf. lia.
Qed.

(** C5. When consecutive import descriptors with the non-zero name RVAs
    [rvas] stand at the table offset, followed by a descriptor whose name
    RVA is zero, and every RVA translates to an offset where a
    null-terminated string stands, [getImportModuleNames] returns exactly
    those strings in table order, and the empty list when the first
    descriptor is the terminator. *)
Theorem getImportModuleNames_table (f : file) (importTableOffset : Z)
  (rvaToOffset : RvaToOffset) (rvas : list Z) (names : list jsstring) :
  importTableAt f importTableOffset rvas ->
  Forall2 (fun r n => exists o, rvaToOffset r = Ret o /\ cstringAt f o n)
          rvas names ->
  getImportModuleNames f importTableOffset rvaToOffset = Ret names
  /\ (rvas = [] -> names = []).
Proof.
  intros Ht Hn. split.
  - unfold getImportModuleNames, getImportModuleNames_fuel.
    rewrite (getImportModuleNames_loop_table f importTableOffset rvaToOffset
               rvas names (S (List.length f)) 0 []); auto.
    + replace (importTableOffset + 0 * 20) with importTableOffset by lia. exact Ht.
    + apply importTableAt_inside in Ht. unfold fileSize in Ht. lia.
  - intros ->. now inversion Hn.
Qed.

Lemma getImportModuleNames_table_witness :
  getImportModuleNames importSection 0 identityRva
  = Ret [js "ws2_32.dll"; js "kernel32.dll"]
  /\ getImportModuleNames emptyImportSection 0 identityRva = Ret [].
Proof.
  split.
  - apply (getImportModuleNames_table importSection 0 identityRva [60; 71]).
    + vm_compute. repeat split; discriminate.
    + constructor; [|constructor; [|constructor]].
      * exists 60. split; [reflexivity|].
        exists (js "ws2_32.dll"). split; [vm_compute; tauto|].
        split; [|reflexivity]. repeat (constructor; [discriminate|]). constructor.
      * exists 71. split; [reflexivity|].
        exists (js "kernel32.dll"). split; [vm_compute; tauto|].
        split; [|reflexivity]. repeat (constructor; [discriminate|]). constructor.
  - apply (getImportModuleNames_table emptyImportSection 0 identityRva []).
    + vm_compute. reflexivity.
    + constructor.
Defined.

(* ================================================================== *)
(** ** String entries *)

(** C7. For every String entry the loop body of [parseStrings] decodes, at
    whatever offset [cur], the number of value bytes read is
    [max 0 (wValueLength * 2 - 2)], clamped to what the declared [wLength]
    of the entry leaves after the aligned end of the key and the trailing
    null terminator; that many bytes are read and decoded as the value. (The
    code writes the size without the clamp at zero; an entry is decoded only
    when the size is not negative, and then the two agree.) *)
Theorem parseStrings_value_read_size (f : file) (cur : Z) (e : StringEntry) :
  parseStrings_entry f cur = Ret e ->
  exists sv key endOffset,
    fromFile f cur STRING_TABLE_STRING = Ret sv
    /\ readString f (cur + sizeOf STRING_TABLE_STRING) ucs2_enc
       = Ret (key, endOffset)
    /\ let declared := value (get sv wValueLength) in
       let available :=
         value (get sv wLength) - (alignDword endOffset - cur) - 2 in
       valueReadSize e = Z.min (declared * 2 - 2) available
       /\ 0 <= valueReadSize e
       /\ valueReadSize e = Z.min (Z.max 0 (declared * 2 - 2)) available
       /\ entryValue e
          = toStringUcs2 (readBuffer f (alignDword endOffset)
                            (Z.to_nat (valueReadSize e)))
       /\ Z.of_nat (List.length (readBuffer f (alignDword endOffset)
                                   (Z.to_nat (valueReadSize e))))
          = valueReadSize e.
Proof.
  intros H. apply parseStrings_entry_inv in H.
  destruct H as [sv [key [eo [Hsv [Hk [_ [Hsz [Hpos [Hval _]]]]]]]]].
  exists sv, key, eo. split; [exact Hsv|]. split; [exact Hk|].
  cbv zeta. repeat split; auto; try lia.
  unfold readBuffer. rewrite length_map, length_seq. lia.
Qed.

Lemma parseStrings_value_read_size_witness :
  exists e, parseStrings_entry sampleStrings 0 = Ret e /\ valueReadSize e = 22.
Proof.
  eexists. split; [vm_compute; reflexivity|].
  destruct (parseStrings_value_read_size sampleStrings 0 _
              ltac:(vm_compute; reflexivity))
    as [sv [key [eo [Hsv [Hk [Hsz _]]]]]].
  vm_compute in Hsv. injection Hsv as <-.
  vm_compute in Hk. injection Hk as <- <-.
  rewrite Hsz. vm_compute. reflexivity.
Defined.

(** An entry that is not decoded. The first entry of the region declares a
    value of zero words and leaves no room after its key: the size the code
    computes is -2, the buffer allocation throws, no value byte is read, and
    the loop is left without the entries that follow. *)
Lemma parseStrings_zero_length_value_throws :
  (exists sv key endOffset,
      fromFile emptyValueStrings 0 STRING_TABLE_STRING = Ret sv
      /\ readString emptyValueStrings (0 + sizeOf STRING_TABLE_STRING) ucs2_enc
         = Ret (key, endOffset)
      /\ value (get sv wValueLength) = 0
      /\ Z.min (Z.max 0 (value (get sv wValueLength) * 2 - 2))
               (value (get sv wLength) - (alignDword endOffset - 0) - 2) = 0
      /\ Z.min ((value (get sv wValueLength) - 1) * 2)
               (value (get sv wLength) - (alignDword endOffset - 0) - 2) = -2)
  /\ parseStrings_entry emptyValueStrings 0 = Throw RangeError
  /\ parseStrings emptyValueStrings 0 (fileSize emptyValueStrings)
     = Throw RangeError.
Proof.
  split; [|split; vm_compute; reflexivity].
  eexists _, _, _. split; [vm_compute; reflexivity|].
  split; [vm_compute; reflexivity|].
  split; [|split]; vm_compute; reflexivity.
Qed.

(* ================================================================== *)
(** ** The loop over the string table *)

Lemma alignDword_positive w : 1 <= w -> 4 <= alignDword w.
Proof.
  intros H. unfold alignDword.
  assert (1 <= (w + 3) / 4) by (apply Z.div_le_lower_bound; lia). lia.
Qed.

Lemma alignDword_zero : alignDword 0 = 0.
Proof. reflexivity. Qed.

Lemma parseStrings_loop_ends (f : file) (stringsOffset stringTableEnd : Z) :
  (forall cur sv,
      entryRead f stringsOffset stringTableEnd cur ->
      fromFile f cur STRING_TABLE_STRING = Ret sv ->
      1 <= value (get sv wLength)) ->
  forall fuel cur strings,
    (cur < stringTableEnd -> entryRead f stringsOffset stringTableEnd cur) ->
    stringTableEnd - cur <= Z.of_nat fuel ->
    finished (parseStrings_loop fuel f stringTableEnd cur strings).
Proof.
  intros Hlen. induction fuel as [|fuel IH]; intros cur strings Hread Hf;
    simpl; destruct (cur <? stringTableEnd) eqn:Hc;
    try apply finished_Ret; apply Z.ltb_lt in Hc; [lia|].
  apply finished_bind; [apply finished_parseStrings_entry|].
  intros e He.
  pose proof (parseStrings_entry_inv _ _ _ He)
    as [sv [key [eo [Hsv [_ [_ [_ [_ [_ Hnext]]]]]]]]].
  pose proof (Hlen cur sv (Hread Hc) Hsv) as Hw.
  apply alignDword_positive in Hw.
  apply IH.
  - intros Hlt.
    apply (read_next f stringsOffset stringTableEnd cur e); auto.
  - lia.
Qed.

(** C10. Over a region in which every String entry the loop reads declares
    a [wLength] of at least 1, [parseStrings] comes to an end: there is a
    number of iterations within which it has returned or thrown. Such an
    entry moves the offset forward by [alignDword wLength], which is at
    least 4; for a [wLength] of 0 that step is 0. *)
Theorem parseStrings_terminates (f : file) (stringsOffset stringTableEnd : Z) :
  (forall cur sv,
      entryRead f stringsOffset stringTableEnd cur ->
      fromFile f cur STRING_TABLE_STRING = Ret sv ->
      1 <= value (get sv wLength)) ->
  (exists n, forall fuel, (n <= fuel)%nat ->
      finished (parseStrings_fuel fuel f stringsOffset stringTableEnd))
  /\ (forall cur e sv,
        entryRead f stringsOffset stringTableEnd cur ->
        parseStrings_entry f cur = Ret e ->
        fromFile f cur STRING_TABLE_STRING = Ret sv ->
        nextStringOffset e = cur + alignDword (value (get sv wLength))
        /\ cur + 4 <= nextStringOffset e)
  /\ (forall w, 1 <= w -> 4 <= alignDword w)
  /\ alignDword 0 = 0.
Proof.
  intros Hlen. split; [|split; [|split]].
  - exists (Z.to_nat (stringTableEnd - stringsOffset)). intros fuel Hfuel.
    unfold parseStrings_fuel.
    apply (parseStrings_loop_ends f stringsOffset stringTableEnd Hlen); [|lia].
    intros Hlt. now apply read_first.
  - intros cur e sv Hread He Hsv.
    pose proof (parseStrings_entry_inv _ _ _ He)
      as [sv' [key [eo [Hsv' [_ [_ [_ [_ [_ Hnext]]]]]]]]].
    rewrite Hsv in Hsv'. injection Hsv' as <-.
    pose proof (alignDword_positive _ (Hlen cur sv Hread Hsv)). lia.
  - apply alignDword_positive.
  - apply alignDword_zero.
Qed.

Lemma entryRead_sampleStrings cur :
  entryRead sampleStrings 0 (fileSize sampleStrings) cur -> cur = 0 \/ cur = 56.
Proof.
  induction 1 as [|cur e _ IH He Hlt]; [now left|].
  destruct IH as [-> | ->]; vm_compute in He; injection He as <-.
  - now right.
  - vm_compute in Hlt. discriminate.
Qed.

Lemma parseStrings_terminates_witness :
  exists n, forall fuel, (n <= fuel)%nat ->
    finished (parseStrings_fuel fuel sampleStrings 0 (fileSize sampleStrings)).
Proof.
  apply (parseStrings_terminates sampleStrings 0 (fileSize sampleStrings)).
  intros cur sv Hread Hsv.
  destruct (entryRead_sampleStrings cur Hread) as [-> | ->];
    vm_compute in Hsv; injection Hsv as <-; vm_compute; discriminate.
Defined.

(* ================================================================== *)
(** ** The resource tree *)

Lemma land_pow2_testbit x n :
  0 <= n -> (Z.land x (2 ^ n) =? 0) = negb (Z.testbit x n).
Proof.
  intros Hn. destruct (Z.testbit x n) eqn:B; simpl.
  - apply Z.eqb_neq. intros E.
    assert (Z.testbit (Z.land x (2 ^ n)) n = true) as T.
    { rewrite Z.land_spec, B, Z.pow2_bits_true by lia. reflexivity. }
    rewrite E in T. now rewrite Z.bits_0 in T.
  - apply Z.eqb_eq. apply Z.bits_inj'. intros m Hm.
    rewrite Z.land_spec, Z.bits_0.
    destruct (Z.eq_dec m n) as [->|Ne].
    + now rewrite B.
    + rewrite (Z.pow2_bits_false n m) by lia. apply andb_false_r.
Qed.

Lemma high_bit_clear x :
  (Z.land x 0x80000000 =? 0) = negb (Z.testbit x 31).
Proof. apply (land_pow2_testbit x 31). lia. Qed.

Lemma low_bits x : Z.land x 0x7fffffff = x mod 2 ^ 31.
Proof. change 0x7fffffff with (Z.ones 31). apply Z.land_ones. lia. Qed.

Lemma includesNum_In ids id : includesNum ids id = true <-> In id ids.
Proof.
  unfold includesNum. rewrite existsb_exists. split.
  - intros [x [Hx E]]. apply Z.eqb_eq in E. now subst.
  - intros H. exists id. split; auto. apply Z.eqb_refl.
Qed.

Section Loop.
Variables (f : file) (sectionOffset tableOffset : Z) (rvaToOffset : RvaToOffset).
Variables (ids : list Z) (path : list (list Z)).
Variable descend : Z -> comp (list Z).

(** What the subtables yield. *)
Variable below : Z -> Z -> Prop.
Hypothesis descend_below :
  forall t ls, descend t = Ret ls -> forall leaf, In leaf ls <-> below t leaf.

(** The entry with index [j] has an accepted id and leads to [leaf]. *)
Let yields (j leaf : Z) : Prop :=
  exists entry,
    fromFile f (tableOffset + sizeOf IMAGE_RESOURCE_DIRECTORY
                + j * sizeOf IMAGE_RESOURCE_DIRECTORY_ID_ENTRY)
             IMAGE_RESOURCE_DIRECTORY_ID_ENTRY = Ret entry
    /\ In (value (get entry Id)) ids
    /\ ((Z.testbit (value (get entry OffsetToData)) 31 = false
         /\ path = []
         /\ exists dataEntry,
              fromFile f (sectionOffset + value (get entry OffsetToData))
                IMAGE_RESOURCE_DIRECTORY_DATA_ENTRY = Ret dataEntry
              /\ rvaToOffset (value (get dataEntry DataRVA)) = Ret leaf)
        \/ (Z.testbit (value (get entry OffsetToData)) 31 = true
            /\ below (sectionOffset
                      + value (get entry OffsetToData) mod 2 ^ 31) leaf)).

Lemma getResourceTreeLeafOffsets_loop_leaves n :
  forall i leaves out,
    getResourceTreeLeafOffsets_loop f sectionOffset tableOffset rvaToOffset
      (Some ids) path descend n i leaves = Ret out ->
    forall leaf,
      In leaf out <->
      In leaf leaves \/ exists j, i <= j < i + Z.of_nat n /\ yields j leaf.
Proof.
  induction n as [|n IH]; intros i leaves out H leaf.
  - simpl in H. injection H as <-. split; [tauto|].
    intros [?|[j [Hj _]]]; [auto|lia].
  - cbn [getResourceTreeLeafOffsets_loop] in H.
    destruct (fromFile f _ IMAGE_RESOURCE_DIRECTORY_ID_ENTRY) as [entry| |] eqn:He;
      cbn [bind] in H; try discriminate.
    assert (forall leaves',
               (forall l, In l leaves' <-> In l leaves \/ yields i l) ->
               getResourceTreeLeafOffsets_loop f sectionOffset tableOffset
                 rvaToOffset (Some ids) path descend n (i + 1) leaves' = Ret out ->
               In leaf out <->
               In leaf leaves \/ exists j, i <= j < i + Z.of_nat (S n) /\ yields j leaf)
      as Step.
    { intros leaves' Hl Hrest. rewrite (IH _ _ _ Hrest leaf), Hl. split.
      - intros [[?|Hy]|[j [Hj Hy]]]; auto.
        + right. exists i. split; [lia|auto].
        + right. exists j. split; [lia|auto].
      - intros [?|[j [Hj Hy]]]; auto.
        destruct (Z.eq_dec j i) as [->|Ne]; auto.
        right. exists j. split; [lia|auto]. }
    assert (forall ent,
               fromFile f (tableOffset + sizeOf IMAGE_RESOURCE_DIRECTORY
                           + i * sizeOf IMAGE_RESOURCE_DIRECTORY_ID_ENTRY)
                 IMAGE_RESOURCE_DIRECTORY_ID_ENTRY = Ret ent -> ent = entry)
      as Same by (intros ent E; rewrite He in E; now injection E).
    destruct (includesNum ids (value (get entry Id))) eqn:Hid; cbn [negb] in H.
    2:{ apply (Step leaves); auto. intros l. split; [tauto|].
        intros [?|[ent [E [Hin _]]]]; auto.
        apply Same in E. subst ent.
        apply includesNum_In in Hin. congruence. }
    apply includesNum_In in Hid.
    rewrite high_bit_clear in H.
    destruct (Z.testbit (value (get entry OffsetToData)) 31) eqn:Hbit;
      cbn [negb andb] in H.
    + (* a subdirectory *)
      rewrite low_bits in H.
      destruct (descend _) as [sub| |] eqn:Hd; cbn [bind] in H; try discriminate.
      apply (Step (leaves ++ sub)); auto. intros l. rewrite in_app_iff.
      rewrite (descend_below _ _ Hd l). split.
      * intros [?|Hb]; auto. right. exists entry. auto.
      * intros [?|[ent [E [_ [[Hc _]|[_ Hb]]]]]]; auto;
          apply Same in E; subst ent; [congruence|auto].
    + destruct (Nat.eqb (List.length path) 0) eqn:Hp.
      * (* a leaf at the end of the path *)
        apply Nat.eqb_eq in Hp. apply length_zero_iff_nil in Hp.
        unfold getResourceTreeLeafValueOffset in H.
        destruct (fromFile f _ IMAGE_RESOURCE_DIRECTORY_DATA_ENTRY)
          as [dataEntry| |] eqn:Hde; cbn [bind] in H; try discriminate.
        destruct (rvaToOffset _) as [o| |] eqn:Ho; cbn [bind] in H;
          try discriminate.
        apply (Step (leaves ++ [o])); auto. intros l. rewrite in_app_iff.
        split.
        -- intros [?|[<-|[]]]; auto. right. exists entry.
           split; auto. split; auto. left. split; auto. split; auto.
           exists dataEntry. auto.
        -- intros [?|[ent [E [_ [[_ [_ [de [Ede Eo]]]]|[Hc _]]]]]]; auto;
             apply Same in E; subst ent; [|congruence].
           rewrite Hde in Ede. injection Ede as <-.
           rewrite Ho in Eo. injection Eo as <-. right. now left.
      * (* a leaf before the end of the path *)
        apply (Step leaves); auto. intros l. split; [tauto|].
        intros [?|[ent [E [_ [[_ [Hnil _]]|[Hc _]]]]]]; auto;
          apply Same in E; subst ent; [|congruence].
        subst path. discriminate.
Qed.
End Loop.

(** With an empty path nothing is returned unless the table has no ID
    entries. *)
Lemma getResourceTreeLeafOffsets_loop_no_ids f sec tbl rvaToOffset path descend n i leaves out :
  getResourceTreeLeafOffsets_loop f sec tbl rvaToOffset None path descend n i leaves
  = Ret out -> out = leaves.
Proof.
  destruct n as [|n]; simpl; [congruence|].
  destruct (fromFile f _ _); simpl; discriminate.
Qed.

Lemma getResourceTreeLeafOffsets_sound_complete f sec rvaToOffset path :
  forall tbl leaves,
    getResourceTreeLeafOffsets f sec tbl rvaToOffset path = Ret leaves ->
    forall leaf, In leaf leaves <-> leafAt f sec rvaToOffset path tbl leaf.
Proof.
  induction path as [|ids path IH]; intros tbl leaves H leaf.
  - simpl in H. unfold getResourceTreeLeafOffsets_table in H.
    destruct (fromFile f tbl IMAGE_RESOURCE_DIRECTORY); cbn [bind] in H;
      try discriminate.
    apply getResourceTreeLeafOffsets_loop_no_ids in H. subst leaves.
    split; [intros []|]. inversion 1.
  - simpl in H. unfold getResourceTreeLeafOffsets_table in H.
    destruct (fromFile f tbl IMAGE_RESOURCE_DIRECTORY) as [table| |] eqn:Ht;
      cbn [bind] in H; try discriminate.
    rewrite (getResourceTreeLeafOffsets_loop_leaves f sec tbl rvaToOffset ids path
               _ (leafAt f sec rvaToOffset path) IH _ _ _ _ H leaf).
    split.
    + intros [[]|[j [Hj [entry [He [Hid Hcase]]]]]].
      assert (idEntryAt f tbl (value (get entry Id)) (value (get entry OffsetToData)))
        as Hentry.
      { exists table, entry, j. repeat split; auto; lia. }
      destruct Hcase as [[Hbit [-> [de [Hde Ho]]]] | [Hbit Hb]].
      * eapply leaf_here; eauto.
      * eapply leaf_below; eauto.
    + intros Hl. right.
      inversion Hl as [ids' tbl' id otd de leaf' Hentry Hid Hbit Hde Ho
                      |ids' path' tbl' id otd leaf' Hentry Hid Hbit Hb]; subst;
        destruct Hentry as [table' [entry [j [Ht' [Hlo [Hhi [He [<- <-]]]]]]]];
        rewrite Ht in Ht'; injection Ht' as <-;
        exists j; (split; [lia|]); exists entry; (split; [exact He|]);
        (split; [exact Hid|]).
      * left. split; auto. split; auto. exists de. auto.
      * right. auto.
Qed.

(** C6. The offsets [getResourceTreeLeafOffsets] returns are exactly the
    translated data offsets of the leaves reached by following the path of
    ID sets: at each table only entries after the named ones are looked at,
    only those with an accepted id are followed, subdirectories while the
    path goes on and data entries at its end. On the sample tree, with two
    levels of subdirectories below the root, the path [[16],[1],[0,1033]]
    gives the one leaf under language 1033 and not its siblings under 1031
    and 2057. *)
Theorem getResourceTreeLeafOffsets_leaves :
  (forall f sectionOffset tableOffset rvaToOffset path leaves,
      getResourceTreeLeafOffsets f sectionOffset tableOffset rvaToOffset path
      = Ret leaves ->
      forall leaf,
        In leaf leaves <-> leafAt f sectionOffset rvaToOffset path tableOffset leaf)
  /\ getResourceTreeLeafOffsets resourceSection 0 0 sampleRvaToOffset
       [[16]; [1]; [0; 1033]] = Ret [0x5100 - 0x4000]
  /\ (forall f sectionOffset tableOffset rvaToOffset path,
        (forall rva, finished (rvaToOffset rva)) ->
        finished (getResourceTreeLeafOffsets f sectionOffset tableOffset
                    rvaToOffset path)).
Proof.
  split; [|split].
  - intros. now apply getResourceTreeLeafOffsets_sound_complete.
  - vm_compute. reflexivity.
  - intros. now apply finished_getResourceTreeLeafOffsets.
Qed.

Lemma getResourceTreeLeafOffsets_leaves_witness :
  leafAt resourceSection 0 sampleRvaToOffset [[16]; [1]; [0; 1033]] 0 0x1100
  /\ ~ leafAt resourceSection 0 sampleRvaToOffset [[16]; [1]; [0; 1033]] 0 0x1000.
Proof.
  destruct getResourceTreeLeafOffsets_leaves as [Char _].
  pose proof (Char resourceSection 0 0 sampleRvaToOffset [[16]; [1]; [0; 1033]]
                [0x1100] ltac:(vm_compute; reflexivity)) as Here.
  split.
  - apply Here. now left.
  - intros Hl. apply Here in Hl. destruct Hl as [E|[]]. discriminate.
Defined.

(* ================================================================== *)
(** ** The scan of the start menu *)







Lemma aset_In {V} (m : assoc V) k v kv :
  In kv (aset m k v) -> kv = (k, v) \/ In kv m.
Proof.
  induction m as [|[k' v'] m IH]; simpl.
  - intros [<-|[]]. now left.
  - destruct (jseqb k' k) eqn:E.
    + apply jseqb_eq in E. subst k'. intros [<-|H]; auto.
    + intros [<-|H]; auto. destruct (IH H); auto.
Qed.

Lemma removeDuplicates_step_unique h unique seen s :
  uniqueShortcuts h unique seen ->
  uniqueShortcuts h (removeDuplicates_step h unique s) (seen ++ [s]).
Proof.
  intros [Hkv [Hnd Hall]].
  assert (forall k v, In (k, v) unique ->
                      k = str_toLowerCase h (target v) /\ In v (seen ++ [s])) as Hkv'.
  { intros k v H. destruct (Hkv k v H). rewrite in_app_iff. auto. }
  assert (uniqueShortcuts h (aset unique (str_toLowerCase h (target s)) s) (seen ++ [s]))
    as Set_.
  { split; [|split].
    - intros k v H. apply aset_In in H. destruct H as [[= -> ->]|H]; auto.
      split; auto. apply in_or_app. right. now left.
    - rewrite akeys_aset.
      destruct (aget unique (str_toLowerCase h (target s))) eqn:G; auto.
      apply aget_None_keys in G.
      apply NoDup_app; [auto|repeat constructor; intros []|].
      intros x Hx [<-|[]]. contradiction.
    - intros s' Hs' Hi.
      destruct (list_eq_dec Z.eq_dec (str_toLowerCase h (target s')) (str_toLowerCase h (target s)))
        as [E|N].
      + rewrite E, aget_aset_same. discriminate.
      + rewrite aget_aset_other by auto.
        apply in_app_iff in Hs'. destruct Hs' as [Hs'|[<-|[]]]; auto;
          congruence. }
  unfold removeDuplicates_step, oget.
  destruct (aget unique (str_toLowerCase h (target s))) as [existing|] eqn:G.
  - destruct (_ && _); auto.
    split; [auto|split; [auto|]].
    intros s' Hs' Hi. apply in_app_iff in Hs'.
    destruct Hs' as [Hs'|[<-|[]]]; auto; congruence.
  - destruct (inherited (str_toLowerCase h (target s))) eqn:I; auto.
    split; [auto|split; [auto|]].
    intros s' Hs' Hi. apply in_app_iff in Hs'.
    destruct Hs' as [Hs'|[<-|[]]]; auto; congruence.
Qed.

Lemma removeDuplicates_fold_unique h shortcuts :
  forall unique seen,
    uniqueShortcuts h unique seen ->
    uniqueShortcuts h (fold_left (removeDuplicates_step h) shortcuts unique)
                    (seen ++ shortcuts).
Proof.
  induction shortcuts as [|s rest IH]; intros unique seen H; simpl.
  - now rewrite app_nil_r.
  - replace (seen ++ s :: rest) with ((seen ++ [s]) ++ rest)
      by (rewrite <- app_assoc; reflexivity).
    apply IH. now apply removeDuplicates_step_unique.
Qed.

(** What [removeDuplicates] returns: shortcuts of its argument, with
    lower-cased targets that differ from one another, and one for every
    target of the argument that does not name an inherited property. *)
Lemma removeDuplicates_result h shortcuts :
  (forall d, In d (removeDuplicates h shortcuts) -> In d shortcuts)
  /\ NoDup (map (fun d => str_toLowerCase h (target d)) (removeDuplicates h shortcuts))
  /\ (forall s, In s shortcuts ->
                inherited (str_toLowerCase h (target s)) = false ->
                exists d, In d (removeDuplicates h shortcuts)
                          /\ str_toLowerCase h (target d) = str_toLowerCase h (target s)).
Proof.
  assert (uniqueShortcuts h [] []) as H0.
  { split; [intros ? ? []|split; [constructor|intros ? []]]. }
  pose proof (removeDuplicates_fold_unique h shortcuts [] [] H0) as [Hkv [Hnd Hall]].
  simpl in Hkv, Hall. unfold removeDuplicates.
  set (unique := fold_left (removeDuplicates_step h) shortcuts []) in *.
  split; [|split].
  - intros d Hd. unfold avalues in Hd. apply in_map_iff in Hd.
    destruct Hd as [[k v] [<- Hin]]. apply (Hkv k v Hin).
  - unfold avalues. rewrite map_map.
    replace (map (fun x => str_toLowerCase h (target (snd x))) unique) with (akeys unique);
      auto.
    unfold akeys. apply map_ext_in. intros [k v] Hin. apply (Hkv k v Hin).
  - intros s Hs Hi. specialize (Hall s Hs Hi).
    destruct (aget unique (str_toLowerCase h (target s))) as [d|] eqn:G; [|congruence].
    apply aget_In in G. exists d. split.
    + unfold avalues. apply in_map_iff. exists (str_toLowerCase h (target s), d). auto.
    + symmetry. apply (Hkv _ _ G).
Qed.

Lemma includesStr_In l s : includesStr l s = true <-> In s l.
Proof.
  unfold includesStr. rewrite existsb_exists. split.
  - intros [x [Hx E]]. apply jseqb_eq in E. now subst.
  - intros H. exists s. split; auto. apply jseqb_refl.
Qed.

Lemma importsDll_true fs path dllName :
  importsDll fs path dllName = Ret true <-> importsModule fs path dllName.
Proof.
  unfold importsDll, importsModule. destruct (fs path) as [f|].
  - destruct (getExeImports_returns f) as [names Hn]. rewrite Hn. cbn [bind].
    split.
    + intros [= E]. apply includesStr_In, in_map_iff in E.
      destruct E as [m [E Hm]]. exists f, names, m. auto.
    + intros [f' [names' [m [[= <-] [Hn' [Hm E]]]]]].
      rewrite Hn in Hn'. injection Hn' as <-. f_equal.
      apply includesStr_In, in_map_iff. eauto.
  - split; [discriminate|]. intros [f [names [m [E _]]]]. discriminate.
Qed.


Lemma usesNetwork_returns h s : exists b, usesNetwork h s = Ret b.
Proof.
  unfold usesNetwork. destruct (includesStr _ _); eauto. apply importsDll_returns.
Qed.










Lemma updateShortcutCache_loop_returns h resolved :
  forall shortcuts cache,
    exists r, updateShortcutCache_loop h resolved shortcuts cache = Ret r.
Proof.
  induction resolved as [|s rest IH]; intros shortcuts cache; simpl; eauto.
  destruct (usesNetwork_returns h s) as [b ->]. cbn [bind].
  destruct b; apply IH.
Qed.

(* ================================================================== *)
(** ** The functions at work on the sample files *)

Example getExeImports_networkingExe :
  getExeImports networkingExe = Ret [js "KERNEL32.dll"; js "WS2_32.dll"].
Proof. vm_compute. reflexivity. Qed.

Example importsDll_samples :
  importsDll (fs_open host1) chatPath (js "WS2_32.dll") = Ret true
  /\ importsDll (fs_open host1) notesPath (js "WS2_32.dll") = Ret false
  /\ importsDll (fs_open host1) firefoxPath (js "WS2_32.dll") = Ret false.
Proof. split; [|split]; vm_compute; reflexivity. Qed.

(** Without a [FileDescription] the product name is used. *)
Example getProductName_exampleApp :
  getProductName (fun _ => Some exampleApp) chatPath
  = Ret (Some (js "Example App")).
Proof. vm_compute. reflexivity. Qed.

Example getProductName_describedApp :
  getProductName (fun _ => Some describedApp) chatPath
  = Ret (Some (js "Example Chat")).
Proof. vm_compute. reflexivity. Qed.

Example parseStrings_sampleStrings :
  parseStrings sampleStrings 0 (fileSize sampleStrings)
  = Ret [ (js "ProductName", js "Example App");
          (js "CompanyName", js "Example") ].
Proof. vm_compute. reflexivity. Qed.

(** A subdirectory where the path has ended makes the walk throw, once the
    table below has an entry. *)
Example getResourceTreeLeafOffsets_short_path :
  getResourceTreeLeafOffsets resourceSection 0 0 sampleRvaToOffset [[16]; [1]]
  = Throw TypeError.
Proof. vm_compute. reflexivity. Qed.

(** The scan of the sample start menu stores the browser once, under the
    link that is not named after the installer, and the chat program. *)
Example updateShortcutCache_host1 :
  exists c',
    updateShortcutCache host1 emptyCaches = Ret c'
    /\ akeys (shortcutCache c') = [lowerLatin1 firefoxPath; lowerLatin1 chatPath]
    /\ map name (avalues (shortcutCache c')) = [js "Firefox"; js "Chat"].
Proof.
  eexists. split; [vm_compute; reflexivity|]. split; vm_compute; reflexivity.
Qed.

(** A program that is among the additional shortcuts is not added again
    under another spelling of its path. *)
Example addApplicationPathToCache_known_spelling :
  addApplicationPathToCache host2 (js "c:\apps\chat\CHAT.EXE") cachesWithChat
  = Ret (js "c:\apps\chat\CHAT.EXE", cachesWithChat).
Proof.
  apply addApplicationPathToCache_known_executable.
  - vm_compute. discriminate.
  - right. eexists. split; [left; reflexivity|]. vm_compute. reflexivity.
Qed.

(* ================================================================== *)
(** ** Alignment *)

Lemma alignDword_multiple (x : Z) :
  alignDword x mod 4 = 0 /\ x <= alignDword x < x + 4.
Proof.
  split.
  - unfold alignDword. apply Z.mod_mul. lia.
  - split; [apply alignDword_ge|apply alignDword_lt].
Qed.

(** X1. [alignDword] rounds up to the next multiple of four: the result is a
    multiple of four, not below the argument and less than four above it,
    the least such multiple, and aligning twice changes nothing. *)
Theorem alignDword_rounds_up (x : Z) :
  alignDword x mod 4 = 0
  /\ x <= alignDword x < x + 4
  /\ (forall y, y mod 4 = 0 -> x <= y -> alignDword x <= y)
  /\ alignDword (alignDword x) = alignDword x.
Proof.
  unfold alignDword.
  pose proof (Z.div_mod (x + 3) 4 ltac:(lia)) as Hd.
  pose proof (Z.mod_pos_bound (x + 3) 4 ltac:(lia)) as Hm.
  split; [apply Z.mod_mul; lia|]. split; [lia|]. split.
  - intros y Hy Hxy.
    pose proof (Z.div_mod y 4 ltac:(lia)) as Hdy. rewrite Hy in Hdy. lia.
  - replace ((x + 3) / 4 * 4 + 3) with (3 + (x + 3) / 4 * 4) by lia.
    rewrite Z.div_add by lia. change (3 / 4) with 0. lia.
Qed.

Lemma alignDword_rounds_up_witness :
  alignDword 38 = 40 /\ alignDword 40 = 40 /\ alignDword 41 <= 44.
Proof.
  destruct (alignDword_rounds_up 41) as [_ [_ [Least _]]].
  split; [reflexivity|]. split; [reflexivity|].
  apply Least; [reflexivity|lia].
Defined.

(* ================================================================== *)
(** ** Reading strings *)

Lemma map_seq_shifted {A} (g : nat -> A) s n :
  forall k, map g (seq (s + k) n) = map (fun i => g (s + i)%nat) (seq k n).
Proof.
  induction n as [|n IH]; intros k; simpl; auto.
  f_equal. rewrite <- IH. f_equal. f_equal. lia.
Qed.

Lemma map_seq_from {A} (g : nat -> A) n s :
  map g (seq s n) = map (fun i => g (s + i)%nat) (seq 0 n).
Proof. rewrite <- map_seq_shifted. now rewrite Nat.add_0_r. Qed.

Lemma readBuffer_app f off a b :
  readBuffer f off (a + b)
  = readBuffer f off a ++ readBuffer f (off + Z.of_nat a) b.
Proof.
  unfold readBuffer. rewrite seq_app, map_app. f_equal.
  rewrite map_seq_from. apply map_ext. intros i. f_equal. lia.
Qed.

Lemma bufferToString_unit e f off n :
  bufferToString e (readBuffer f off (Z.to_nat (getCharacterSize e) + n))
  = bufferToString e (readBuffer f off (Z.to_nat (getCharacterSize e)))
    ++ bufferToString e (readBuffer f (off + getCharacterSize e) n)
  /\ List.length (bufferToString e (readBuffer f off (Z.to_nat (getCharacterSize e))))
     = 1%nat.
Proof.
  rewrite readBuffer_app.
  destruct e; cbn [getCharacterSize bufferToString].
  - change (Z.to_nat 1) with 1%nat. split; [|reflexivity].
    unfold toStringAscii. now rewrite map_app.
  - change (Z.to_nat 2) with 2%nat. split; reflexivity.
Qed.

Lemma readString_fuel_spec fuel :
  forall f off e s eo,
    readString_fuel fuel f off e = Ret (s, eo) ->
    eo = off + getCharacterSize e * (Z.of_nat (List.length s) + 1)
    /\ s = bufferToString e
             (readBuffer f off (Z.to_nat (getCharacterSize e) * List.length s))
    /\ forallb (Z.eqb 0)
         (readBuffer f (eo - getCharacterSize e) (Z.to_nat (getCharacterSize e)))
       = true
    /\ forall i, (i < List.length s)%nat ->
         forallb (Z.eqb 0)
           (readBuffer f (off + getCharacterSize e * Z.of_nat i)
              (Z.to_nat (getCharacterSize e))) = false.
Proof.
  induction fuel as [|fuel IH]; intros f off e s eo H; [discriminate|].
  cbn [readString_fuel] in H.
  destruct (forallb (Z.eqb 0) _) eqn:Hz.
  - injection H as <- <-. cbn [List.length]. rewrite Nat.mul_0_r.
    split; [lia|]. split; [destruct e; reflexivity|]. split.
    + replace (off + getCharacterSize e - getCharacterSize e) with off by lia.
      exact Hz.
    + intros i Hi. inversion Hi.
  - destruct (readString_fuel fuel f (off + getCharacterSize e) e)
      as [[s' eo']| |] eqn:Hr; cbn [bind fst snd] in H; try discriminate.
    injection H as <- <-.
    destruct (IH _ _ _ _ _ Hr) as [Heo [Hs [Hterm Hunits]]].
    destruct (bufferToString_unit e f off
                (Z.to_nat (getCharacterSize e) * List.length s')) as [Happ Hlen].
    rewrite length_app, Hlen.
    pose proof (getCharacterSize_pos e) as Hc.
    split; [rewrite Heo; lia|]. split; [|split].
    + replace (Z.to_nat (getCharacterSize e) * (1 + List.length s'))%nat
        with (Z.to_nat (getCharacterSize e)
              + Z.to_nat (getCharacterSize e) * List.length s')%nat by lia.
      rewrite Happ. now rewrite <- Hs.
    + exact Hterm.
    + intros [|i] Hi.
      * replace (off + getCharacterSize e * Z.of_nat 0) with off by lia. exact Hz.
      * specialize (Hunits i ltac:(simpl in Hi; lia)).
        replace (off + getCharacterSize e * Z.of_nat (S i))
          with (off + getCharacterSize e + getCharacterSize e * Z.of_nat i) by lia.
        exact Hunits.
Qed.

(** X2. [readString] always returns. The string is the decoding of the bytes
    from the offset up to the first character that is zero in all its
    bytes, none of the characters before it is, and the end offset is just
    behind that terminator. *)
Theorem readString_reads_to_terminator (f : file) (offset : Z) (e : encoding) :
  exists s endOffset,
    readString f offset e = Ret (s, endOffset)
    /\ endOffset = offset + getCharacterSize e * (Z.of_nat (List.length s) + 1)
    /\ s = bufferToString e
             (readBuffer f offset (Z.to_nat (getCharacterSize e) * List.length s))
    /\ forallb (Z.eqb 0)
         (readBuffer f (endOffset - getCharacterSize e)
            (Z.to_nat (getCharacterSize e))) = true
    /\ forall i, (i < List.length s)%nat ->
         forallb (Z.eqb 0)
           (readBuffer f (offset + getCharacterSize e * Z.of_nat i)
              (Z.to_nat (getCharacterSize e))) = false.
Proof.
  destruct (readString_returns f offset e) as [s [eo [H _]]].
  exists s, eo. split; [exact H|].
  unfold readString in H. now apply (readString_fuel_spec _ _ _ _ _ _ H).
Qed.

Lemma readString_reads_to_terminator_witness :
  readString importSection 60 ascii_enc = Ret (js "ws2_32.dll", 71).
Proof.
  destruct (readString_reads_to_terminator importSection 60 ascii_enc)
    as [s [eo [H _]]].
  rewrite H. vm_compute in H. injection H as <- <-. reflexivity.
Defined.

(** X3. At or behind the end of the file [readString] returns the empty string
    and the offset one character further. *)
Theorem readString_past_end (f : file) (offset : Z) (e : encoding) :
  fileSize f <= offset ->
  readString f offset e = Ret ([], offset + getCharacterSize e).
Proof.
  intros Hend. unfold readString.
  replace (Z.to_nat (fileSize f - offset)) with 0%nat by lia.
  cbn [readString_fuel].
  destruct (forallb (Z.eqb 0) _) eqn:Hz; [reflexivity|].
  apply readBuffer_nonzero_inside in Hz. destruct Hz as [j [_ Hin]]. lia.
Qed.

Lemma readString_past_end_witness :
  readString importSection 84 ucs2_enc = Ret ([], 86).
Proof. apply (readString_past_end importSection 84 ucs2_enc). vm_compute. discriminate. Defined.

(* ================================================================== *)
(** ** The header variant *)

(** X4. The header [getNtHeader] returns was read with the 64-bit layout exactly
    when the [Magic] field of its optional header is 0x20b; its size is that
    of the layout it was read with. *)
Theorem getNtHeader_variant_by_magic (f : file) (nt : NtHeaders) :
  getNtHeader f = Ret nt ->
  (variant nt = Nt64 <-> value (get (optionalHeader nt) Magic) = 0x20b)
  /\ v_size (headers nt)
     = match variant nt with
       | Nt32 => sizeOf IMAGE_NT_HEADERS
       | Nt64 => sizeOf IMAGE_NT_HEADERS64
       end.
Proof.
  unfold getNtHeader. intros H.
  destruct (fromFile f 0 DOS_HEADER) as [dos| |]; cbn [bind] in H;
    try discriminate.
  destruct (negb _); [discriminate|].
  destruct (fromFile f (value (get dos e_lfanew)) IMAGE_NT_HEADERS) as [n32| |] eqn:H32;
    cbn [bind] in H; try discriminate.
  destruct (negb _); [discriminate|].
  apply fromFile_inv in H32. destruct H32 as [_ [_ E32]].
  destruct (value (get (get n32 OptionalHeader32) Magic) =? 0x20b) eqn:Hm.
  - destruct (fromFile f (value (get dos e_lfanew)) IMAGE_NT_HEADERS64) as [n64| |] eqn:H64;
      cbn [bind] in H; try discriminate.
    injection H as <-. apply fromFile_inv in H64. destruct H64 as [_ [_ E64]].
    apply Z.eqb_eq in Hm. subst n32 n64.
    split; [|reflexivity]. split; [intros _|reflexivity]. exact Hm.
  - injection H as <-. apply Z.eqb_neq in Hm.
    split; [|subst n32; reflexivity]. split; [discriminate|].
    intros E. exfalso. apply Hm. exact E.
Qed.

Lemma getNtHeader_variant_by_magic_witness :
  exists nt, getNtHeader networkingExe = Ret nt
             /\ variant nt = Nt32
             /\ value (get (optionalHeader nt) Magic) <> 0x20b.
Proof.
  eexists. split; [vm_compute; reflexivity|]. split; [reflexivity|].
  intros E.
  destruct (getNtHeader_variant_by_magic networkingExe _
              ltac:(vm_compute; reflexivity)) as [[_ To64] _].
  specialize (To64 E). discriminate.
Defined.

(* ================================================================== *)
(** ** Locating a table *)

(** X5. Once the headers are accepted, [getTableOffset] returns [undefined]
    exactly for a directory entry with virtual address zero. Otherwise it
    asks the translator for the offset of that address: what it returns is
    the translator's answer together with the translator, and when the call
    throws, the address was not zero (a failed translation is thrown, not
    turned into [undefined]). *)
Theorem getTableOffset_translates (f : file) (tableIndex : Z) (nt : NtHeaders) :
  getNtHeader f = Ret nt ->
  (directoryRva nt tableIndex = 0 <-> getTableOffset f tableIndex = Ret None)
  /\ (forall tableOffset rvaToOffset,
        getTableOffset f tableIndex = Ret (Some (tableOffset, rvaToOffset)) ->
        rvaToOffset (directoryRva nt tableIndex) = Ret tableOffset)
  /\ (forall e, getTableOffset f tableIndex = Throw e ->
                directoryRva nt tableIndex <> 0).
Proof.
  intros Hn. unfold getTableOffset. rewrite Hn. cbn [bind].
  destruct (directoryRva nt tableIndex =? 0) eqn:Hz.
  - apply Z.eqb_eq in Hz. split; [tauto|]. split; discriminate.
  - apply Z.eqb_neq in Hz.
    destruct (rvaToOffsetImpl f (directoryRva nt tableIndex) _ _) as [o|e'|] eqn:Hr;
      cbn [bind];
      (split; [split; [contradiction|discriminate]|]);
      (split; [|auto; discriminate]); try discriminate.
    intros off r [= <- <-]. exact Hr.
Qed.

Lemma getTableOffset_translates_witness :
  getTableOffset bareExe IMAGE_DIRECTORY_ENTRY_IMPORT = Ret None
  /\ exists rvaToOffset,
       getTableOffset networkingExe IMAGE_DIRECTORY_ENTRY_IMPORT
       = Ret (Some (352, rvaToOffset))
       /\ rvaToOffset 0x1000 = Ret 352.
Proof.
  split.
  - apply (getTableOffset_translates bareExe IMAGE_DIRECTORY_ENTRY_IMPORT
             (mkNt Nt32 (mkValue 64 IMAGE_NT_HEADERS
                           (readBuffer bareExe 64 (Z.to_nat IMAGE_NT_HEADERS)))));
      vm_compute; reflexivity.
  - eexists. split; [vm_compute; reflexivity|].
    destruct (getTableOffset_translates networkingExe IMAGE_DIRECTORY_ENTRY_IMPORT
                (mkNt Nt32 (mkValue 64 IMAGE_NT_HEADERS
                              (readBuffer networkingExe 64
                                 (Z.to_nat IMAGE_NT_HEADERS))))
                ltac:(vm_compute; reflexivity)) as [_ [Some_ _]].
    exact (Some_ _ _ ltac:(vm_compute; reflexivity)).
Defined.

(* ================================================================== *)
(** ** The unbounded loops *)

Lemma getImportModuleNames_loop_more_fuel fuel :
  forall f off (rvaToOffset : RvaToOffset) i names k,
    finished (getImportModuleNames_loop fuel f off rvaToOffset i names) ->
    getImportModuleNames_loop (fuel + k) f off rvaToOffset i names
    = getImportModuleNames_loop fuel f off rvaToOffset i names.
Proof.
  induction fuel as [|fuel IH]; intros f off r i names k Hfin.
  - now contradiction Hfin.
  - cbn [getImportModuleNames_loop Nat.add] in *.
    destruct (fromFile f _ IMAGE_IMPORT_MODULE_DIRECTORY); cbn [bind] in *; auto.
    destruct (negb _); auto.
    destruct (r _); cbn [bind] in *; auto.
    destruct (readString f _ ascii_enc); cbn [bind] in *; auto.
Qed.

(** X6. The loop of [getImportModuleNames] has no exit but a zero name RVA or a
    throw. On every file it comes to one of them: with a translator that
    returns or throws, a number of iterations above the length of the file
    is never used up, and more iterations give the same result. *)
Theorem getImportModuleNames_ends (f : file) (importTableOffset : Z)
  (rvaToOffset : RvaToOffset) :
  (forall rva, finished (rvaToOffset rva)) ->
  finished (getImportModuleNames f importTableOffset rvaToOffset)
  /\ forall fuel, (List.length f < fuel)%nat ->
       getImportModuleNames_fuel fuel f importTableOffset rvaToOffset
       = getImportModuleNames f importTableOffset rvaToOffset.
Proof.
  intros Hr.
  pose proof (finished_getImportModuleNames f importTableOffset rvaToOffset Hr)
    as Hfin.
  split; [exact Hfin|]. intros fuel Hf.
  unfold getImportModuleNames, getImportModuleNames_fuel in *.
  replace fuel with (S (List.length f) + (fuel - S (List.length f)))%nat by lia.
  now apply getImportModuleNames_loop_more_fuel.
Qed.

Lemma getImportModuleNames_ends_witness :
  getImportModuleNames_fuel 1000 importSection 0 identityRva
  = getImportModuleNames importSection 0 identityRva.
Proof.
  apply (getImportModuleNames_ends importSection 0 identityRva).
  - intros rva. discriminate.
  - vm_compute. lia.
Defined.

Lemma parseStrings_loop_more_fuel fuel :
  forall f stringTableEnd cur strings k,
    finished (parseStrings_loop fuel f stringTableEnd cur strings) ->
    parseStrings_loop (fuel + k) f stringTableEnd cur strings
    = parseStrings_loop fuel f stringTableEnd cur strings.
Proof.
  induction fuel as [|fuel IH]; intros f stringTableEnd cur strings k Hfin.
  - cbn [parseStrings_loop Nat.add] in *.
    destruct (cur <? stringTableEnd) eqn:Hc.
    + now contradiction Hfin.
    + destruct k; cbn [parseStrings_loop]; now rewrite Hc.
  - cbn [parseStrings_loop Nat.add] in *.
    destruct (cur <? stringTableEnd); auto.
    destruct (parseStrings_entry f cur); cbn [bind] in *; auto.
Qed.

Lemma parseStrings_entry_step f cur e :
  parseStrings_entry f cur = Ret e -> cur + 12 <= nextStringOffset e.
Proof.
  intros H. apply parseStrings_entry_inv in H.
  destruct H as [sv [key [eo [_ [Hk [_ [Hsz [Hpos [_ Hn]]]]]]]]].
  destruct (readString_returns f (cur + 6) ucs2_enc) as [s [eo' [Hk' Heo]]].
  rewrite Hk in Hk'. injection Hk' as _ <-. simpl in Heo.
  pose proof (alignDword_ge eo).
  destruct (alignDword_multiple (value (get sv wLength))) as [Hmod Hge].
  pose proof (Z.div_mod (alignDword (value (get sv wLength))) 4 ltac:(lia)).
  lia.
Qed.

(** X7. The loop of [parseStrings] comes to an end on every file and region,
    also where an entry declares a length of zero: an entry that declares
    fewer than ten bytes makes the buffer allocation throw, and every entry
    that is stored moves the offset forward by at least twelve. A number of
    iterations equal to the length of the region is never used up, more
    iterations give the same result, and an empty region gives the empty
    map. *)
Theorem parseStrings_always_ends (f : file) (stringsOffset stringTableEnd : Z) :
  finished (parseStrings f stringsOffset stringTableEnd)
  /\ (forall fuel, (Z.to_nat (stringTableEnd - stringsOffset) <= fuel)%nat ->
        parseStrings_fuel fuel f stringsOffset stringTableEnd
        = parseStrings f stringsOffset stringTableEnd)
  /\ (forall cur e, parseStrings_entry f cur = Ret e ->
                    cur + 12 <= nextStringOffset e)
  /\ (forall cur sv, fromFile f cur STRING_TABLE_STRING = Ret sv ->
                     value (get sv wLength) < 10 ->
                     parseStrings_entry f cur = Throw RangeError)
  /\ (stringTableEnd <= stringsOffset ->
      parseStrings f stringsOffset stringTableEnd = Ret []).
Proof.
  pose proof (finished_parseStrings f stringsOffset stringTableEnd) as Hfin.
  split; [exact Hfin|]. split; [|split; [|split]].
  - intros fuel Hf. unfold parseStrings, parseStrings_fuel in *.
    replace fuel with (Z.to_nat (stringTableEnd - stringsOffset)
                       + (fuel - Z.to_nat (stringTableEnd - stringsOffset)))%nat
      by lia.
    now apply parseStrings_loop_more_fuel.
  - apply parseStrings_entry_step.
  - intros cur sv Hsv Hw. unfold parseStrings_entry. rewrite Hsv. cbn [bind].
    pose proof (fromFile_inv _ _ _ _ Hsv) as [_ [_ Esv]].
    assert (v_size sv = 6) as -> by (subst sv; reflexivity).
    destruct (readString_returns f (cur + 6) ucs2_enc) as [s [eo [-> Heo]]].
    cbn [bind snd fst]. simpl in Heo. unfold bufferAlloc.
    pose proof (alignDword_ge eo).
    assert ((Z.min ((value (get sv wValueLength) - 1) * 2)
                   (value (get sv wLength) - (alignDword eo - cur) - 2) <? 0)
            = true)
      as -> by (apply Z.ltb_lt; lia).
    reflexivity.
  - intros Hempty. unfold parseStrings, parseStrings_fuel.
    replace (Z.to_nat (stringTableEnd - stringsOffset)) with 0%nat by lia.
    cbn [parseStrings_loop].
    assert ((stringsOffset <? stringTableEnd) = false) as ->
        by (apply Z.ltb_ge; lia).
    reflexivity.
Qed.

Lemma parseStrings_always_ends_witness :
  parseStrings_fuel 500 sampleStrings 0 (fileSize sampleStrings)
  = parseStrings sampleStrings 0 (fileSize sampleStrings)
  /\ parseStrings sampleStrings 40 40 = Ret []
  /\ parseStrings_entry (map byteOf (u16 0 ++ u16 5 ++ u16 1 ++ zeros 20)) 0
     = Throw RangeError.
Proof.
  destruct (parseStrings_always_ends sampleStrings 0 (fileSize sampleStrings))
    as [_ [Fuel _]].
  destruct (parseStrings_always_ends sampleStrings 40 40) as [_ [_ [_ [_ Empty]]]].
  destruct (parseStrings_always_ends
              (map byteOf (u16 0 ++ u16 5 ++ u16 1 ++ zeros 20)) 0 0)
    as [_ [_ [_ [Short _]]]].
  split; [|split].
  - apply Fuel. vm_compute. lia.
  - apply Empty. lia.
  - eapply Short; [vm_compute; reflexivity|]. vm_compute. reflexivity.
Defined.

Lemma length_toStringUcs2 buffer :
  List.length (toStringUcs2 buffer) = Nat.div2 (List.length buffer).
Proof.
  assert (forall n b, (List.length b <= n)%nat ->
                      List.length (toStringUcs2 b) = Nat.div2 (List.length b)) as G.
  { induction n as [|n IH]; intros [|lo [|hi rest]] Hn; simpl in *; auto; try lia.
    f_equal. apply IH. lia. }
  apply (G (List.length buffer)). lia.
Qed.

(** X8. The value read for a String entry lies inside the entry as declared: it
    starts at a multiple of four behind the key, at least eight bytes into
    the entry, and ends at least two bytes before the declared end. The
    value stored has half as many characters as bytes were read. *)
Theorem parseStrings_value_inside_entry (f : file) (cur : Z) (e : StringEntry) :
  parseStrings_entry f cur = Ret e ->
  exists sv key endOffset,
    fromFile f cur STRING_TABLE_STRING = Ret sv
    /\ readString f (cur + sizeOf STRING_TABLE_STRING) ucs2_enc = Ret (key, endOffset)
    /\ let valueOffset := alignDword endOffset in
       valueOffset mod 4 = 0
       /\ cur + 8 <= valueOffset
       /\ valueOffset + valueReadSize e + 2 <= cur + value (get sv wLength)
       /\ Z.of_nat (List.length (entryValue e)) = valueReadSize e / 2.
Proof.
  intros H. apply parseStrings_entry_inv in H.
  destruct H as [sv [key [eo [Hsv [Hk [_ [Hsz [Hpos [Hval _]]]]]]]]].
  exists sv, key, eo. split; [exact Hsv|]. split; [exact Hk|]. cbv zeta.
  destruct (readString_returns f (cur + 6) ucs2_enc) as [s [eo' [Hk' Heo]]].
  rewrite Hk in Hk'. injection Hk' as _ <-. simpl in Heo.
  destruct (alignDword_multiple eo) as [Hmod Hge].
  split; [exact Hmod|]. split; [lia|]. split; [lia|].
  rewrite Hval, length_toStringUcs2. unfold readBuffer.
  rewrite length_map, length_seq.
  rewrite Nat.div2_div, Nat2Z.inj_div, Z2Nat.id by lia. reflexivity.
Qed.

Lemma parseStrings_value_inside_entry_witness :
  exists e, parseStrings_entry sampleStrings 0 = Ret e
            /\ List.length (entryValue e) = 11%nat.
Proof.
  eexists. split; [vm_compute; reflexivity|].
  destruct (parseStrings_value_inside_entry sampleStrings 0 _
              ltac:(vm_compute; reflexivity))
    as [sv [key [eo [_ [_ [_ [_ [_ Hlen]]]]]]]].
  vm_compute in Hlen. vm_compute. reflexivity.
Defined.

(* ================================================================== *)
(** ** Edges of the resource walk *)

(** X9. A table without ID entries gives no leaves, whatever the path. With an
    empty path the walk never returns a leaf: it returns the empty list
    when the table has no ID entries and throws a [TypeError] as soon as it
    has read the first one. *)
Theorem getResourceTreeLeafOffsets_edges (f : file) (sectionOffset tableOffset : Z)
  (rvaToOffset : RvaToOffset) (table : StructValue) :
  fromFile f tableOffset IMAGE_RESOURCE_DIRECTORY = Ret table ->
  (forall path,
      value (get table NumberOfIdEntries) = 0 ->
      getResourceTreeLeafOffsets f sectionOffset tableOffset rvaToOffset path
      = Ret [])
  /\ (forall leaves,
        getResourceTreeLeafOffsets f sectionOffset tableOffset rvaToOffset []
        = Ret leaves -> leaves = [])
  /\ (forall entry,
        0 < value (get table NumberOfIdEntries) ->
        fromFile f (tableOffset + sizeOf IMAGE_RESOURCE_DIRECTORY
                    + value (get table NumberOfNameEntries)
                      * sizeOf IMAGE_RESOURCE_DIRECTORY_ID_ENTRY)
          IMAGE_RESOURCE_DIRECTORY_ID_ENTRY = Ret entry ->
        getResourceTreeLeafOffsets f sectionOffset tableOffset rvaToOffset []
        = Throw TypeError).
Proof.
  intros Ht. split; [|split].
  - intros path Hz.
    destruct path; cbn [getResourceTreeLeafOffsets];
      unfold getResourceTreeLeafOffsets_table; rewrite Ht; cbn [bind];
      rewrite Hz; reflexivity.
  - intros leaves H. cbn [getResourceTreeLeafOffsets] in H.
    unfold getResourceTreeLeafOffsets_table in H. rewrite Ht in H.
    cbn [bind] in H. now apply getResourceTreeLeafOffsets_loop_no_ids in H.
  - intros entry Hpos He. cbn [getResourceTreeLeafOffsets].
    unfold getResourceTreeLeafOffsets_table. rewrite Ht. cbn [bind].
    destruct (Z.to_nat (value (get table NumberOfIdEntries))) as [|n] eqn:Hn;
      [lia|].
    cbn [getResourceTreeLeafOffsets_loop]. rewrite He. reflexivity.
Qed.

Lemma getResourceTreeLeafOffsets_edges_witness :
  getResourceTreeLeafOffsets resourceSection 0 0 sampleRvaToOffset []
  = Throw TypeError
  /\ getResourceTreeLeafOffsets (map byteOf (resourceTable 2 0 [])) 0 0
       sampleRvaToOffset [[16]; [1]; [0; 1033]] = Ret [].
Proof.
  split.
  - destruct (getResourceTreeLeafOffsets_edges resourceSection 0 0
                sampleRvaToOffset _ ltac:(vm_compute; reflexivity))
      as [_ [_ Throws]].
    eapply Throws; vm_compute; reflexivity.
  - destruct (getResourceTreeLeafOffsets_edges (map byteOf (resourceTable 2 0 []))
                0 0 sampleRvaToOffset _ ltac:(vm_compute; reflexivity))
      as [Empty _].
    apply Empty. vm_compute. reflexivity.
Defined.

(* ================================================================== *)
(** ** Version information *)

(** X10. [getChildrenOffset] reads the key behind the fixed part of a structure
    and returns the offset behind it, rounded up to a multiple of four and
    at least two bytes behind the fixed part; it throws exactly when a
    validator is given and rejects the key. *)
Theorem getChildrenOffset_result (f : file) (offset : Z) (d : datatype)
  (validateSzKey : option (jsstring -> bool)) :
  exists key endOffset,
    readString f (offset + sizeOf d) ucs2_enc = Ret (key, endOffset)
    /\ alignDword endOffset mod 4 = 0
    /\ offset + sizeOf d + 2 <= alignDword endOffset
    /\ getChildrenOffset f offset d validateSzKey
       = match validateSzKey with
         | Some validate =>
             if validate key then Ret (alignDword endOffset)
             else Throw (InvalidSzKey key)
         | None => Ret (alignDword endOffset)
         end.
Proof.
  destruct (readString_returns f (offset + sizeOf d) ucs2_enc)
    as [key [eo [Hk Heo]]].
  exists key, eo. split; [exact Hk|].
  destruct (alignDword_multiple eo) as [Hmod Hge]. simpl in Heo.
  split; [exact Hmod|]. split; [lia|].
  unfold getChildrenOffset. rewrite Hk. cbn [bind fst snd].
  destruct validateSzKey as [v|]; [destruct (v key)|]; reflexivity.
Qed.

(** X11. [getVsVersionInfoStrings] always returns a map and never throws. When
    the key of the block is not [VS_VERSION_INFO], or the block starts so
    close to the end of the file that its fixed part cannot be read, the map
    is empty. *)
Theorem getVsVersionInfoStrings_absorbs (f : file) (offset : Z) :
  (exists strings, getVsVersionInfoStrings f offset = Ret strings)
  /\ (forall key endOffset,
        readString f (offset + sizeOf VS_VERSIONINFO) ucs2_enc
        = Ret (key, endOffset) ->
        key <> js "VS_VERSION_INFO" ->
        getVsVersionInfoStrings f offset = Ret [])
  /\ (fileSize f < offset + sizeOf VS_VERSIONINFO ->
      getVsVersionInfoStrings f offset = Ret []).
Proof.
  split; [apply getVsVersionInfoStrings_returns|]. split.
  - intros key eo Hk Hne.
    unfold getVsVersionInfoStrings, getVsVersionInfoChildrenOffset,
      getChildrenOffset.
    rewrite Hk. cbn [bind fst snd].
    apply jseqb_neq in Hne. rewrite Hne. reflexivity.
  - intros Hshort.
    unfold getVsVersionInfoStrings, getVsVersionInfoChildrenOffset.
    destruct (getChildrenOffset f offset VS_VERSIONINFO _) as [o|e|] eqn:Hc;
      cbn [bind]; try reflexivity.
    + unfold fromFile.
      assert (((0 <=? offset) && (offset + sizeOf VS_VERSIONINFO <=? fileSize f))
              = false) as ->.
      { apply andb_false_iff. right. apply Z.leb_gt. lia. }
      reflexivity.
    + exfalso. revert Hc. apply finished_getChildrenOffset.
Qed.

Lemma getVsVersionInfoStrings_absorbs_witness :
  getVsVersionInfoStrings sampleStrings 0 = Ret []
  /\ getVsVersionInfoStrings sampleStrings 200 = Ret [].
Proof.
  destruct (getVsVersionInfoStrings_absorbs sampleStrings 0) as [_ [Key _]].
  destruct (getVsVersionInfoStrings_absorbs sampleStrings 200) as [_ [_ Short]].
  split.
  - eapply Key; [vm_compute; reflexivity|]. vm_compute. discriminate.
  - apply Short. vm_compute. reflexivity.
Defined.

(** X12. With a resource table and the leaves the walk returns,
    [getProductName] gives the name of the first leaf whose version block
    has a non-empty name, a file description taking precedence over a
    product name; when no leaf has one it gives what the last leaf gave, and
    [undefined] when there are no leaves. *)
Theorem getProductName_first_named_leaf (fs : FileSystem) (path : jsstring)
  (f : file) (resourceTableOffset : Z) (rvaToOffset : RvaToOffset)
  (leafOffsets : list Z) :
  fs path = Some f ->
  getTableOffset f IMAGE_DIRECTORY_ENTRY_RESOURCE
  = Ret (Some (resourceTableOffset, rvaToOffset)) ->
  getResourceTreeLeafOffsets f resourceTableOffset resourceTableOffset
    rvaToOffset [[16]; [1]; [0; 1033]] = Ret leafOffsets ->
  getProductName fs path
  = Ret (firstNamed (map (fun l => versionName (stringsAt f l)) leafOffsets)).
Proof.
  intros Hf Ht Hl. unfold getProductName, getProductName_try.
  rewrite Hf, Ht. cbn [bind]. rewrite Hl. cbn [bind].
  rewrite getProductName_reduce. reflexivity.
Qed.

Lemma getProductName_first_named_leaf_witness :
  getProductName (fun _ => Some describedApp) chatPath
  = Ret (firstNamed [versionName (stringsAt describedApp 440)])
  /\ versionName (stringsAt describedApp 440) = Some (js "Example Chat").
Proof.
  split; [|vm_compute; reflexivity].
  assert (exists r, getTableOffset describedApp IMAGE_DIRECTORY_ENTRY_RESOURCE
                    = Ret (Some (352, r))
                    /\ getResourceTreeLeafOffsets describedApp 352 352 r
                         [[16]; [1]; [0; 1033]] = Ret [440]) as [r [Ht Hl]].
  { eexists. split; vm_compute; reflexivity. }
  exact (getProductName_first_named_leaf (fun _ => Some describedApp) chatPath
           describedApp 352 r [440] eq_refl Ht Hl).
Defined.

(** X13. [getProductName] never throws, so the [catch] of [getProgramName] is
    never taken: the two give the same result. *)
Theorem getProgramName_is_getProductName (fs : FileSystem) (exePath : jsstring) :
  getProgramName fs exePath = getProductName fs exePath
  /\ exists r, getProgramName fs exePath = Ret r.
Proof.
  unfold getProgramName.
  destruct (getProductName_returns fs exePath) as [r ->]. simpl. eauto.
Qed.

(** X14. [importsDll] answers [false] when the file cannot be opened, and [true]
    exactly when the file opens and its import list has a name equal to the
    one asked for once both are lower-cased; the letter case of the name
    asked for does not matter, and the call never throws. *)
Theorem importsDll_decides (fs : FileSystem) (path dllName : jsstring) :
  (fs path = None -> importsDll fs path dllName = Ret false)
  /\ (importsDll fs path dllName = Ret true <-> importsModule fs path dllName)
  /\ (exists b, importsDll fs path dllName = Ret b)
  /\ (forall other, toLowerCase other = toLowerCase dllName ->
                    importsDll fs path other = importsDll fs path dllName).
Proof.
  split; [|split; [|split]].
  - intros Hf. unfold importsDll. now rewrite Hf.
  - apply importsDll_true.
  - apply importsDll_returns.
  - intros other E. unfold importsDll. now rewrite E.
Qed.

Lemma importsDll_decides_witness :
  importsDll (fs_open host1) (js "C:\nowhere.exe") (js "WS2_32.dll") = Ret false
  /\ importsDll (fs_open host1) chatPath (js "ws2_32.DLL")
     = importsDll (fs_open host1) chatPath (js "WS2_32.dll").
Proof.
  destruct (importsDll_decides (fs_open host1) (js "C:\nowhere.exe")
              (js "WS2_32.dll")) as [Closed _].
  destruct (importsDll_decides (fs_open host1) chatPath (js "WS2_32.dll"))
    as [_ [_ [_ Case]]].
  split; [apply Closed; reflexivity | apply Case; reflexivity].
Defined.

(* ================================================================== *)
(** ** Finding links *)

Lemma startsWith_refl_app p s : startsWith (p ++ s) p = true.
Proof.
  induction p as [|c p IH]; simpl; [now destruct s|].
  now rewrite Z.eqb_refl, IH.
Qed.

Lemma startsWith_app_l x p q :
  startsWith x (p ++ q) = true -> startsWith x p = true.
Proof.
  revert x. induction p as [|c p IH]; intros x H; simpl; [now destruct x|].
  destruct x as [|y x]; simpl in H; [discriminate|].
  apply andb_true_iff in H. destruct H as [Hc H]. simpl. rewrite Hc.
  now apply IH.
Qed.

(** The calls for the items of a directory are a [promiseAll]. *)
Lemma findAllLinks_node_dir path contents :
  findAllLinks_node path (FsDir contents)
  = if endsWith path (js ".lnk") then Ret [path]
    else
      result <- promiseAll
                  (fun item => findAllLinks_node (path ++ js "/" ++ fst item)
                                 (snd item))
                  contents ;;
      Ret (List.concat result).
Proof.
  cbn [findAllLinks_node]. destruct (endsWith path (js ".lnk")); auto.
  f_equal. induction contents as [|item contents IH]; cbn [promiseAll]; auto.
  now rewrite IH.
Qed.

Lemma findAllLinks_node_links :
  forall node path links,
    findAllLinks_node path node = Ret links ->
    forall x, In x links ->
              endsWith x (js ".lnk") = true /\ startsWith x path = true.
Proof.
  fix IH 1. intros node path links H x Hx.
  destruct node as [|contents| |].
  - cbn [findAllLinks_node] in H.
    destruct (endsWith path (js ".lnk")) eqn:E; injection H as <-;
      [|destruct Hx].
    destruct Hx as [<-|[]]. split; auto.
    rewrite <- (app_nil_r path) at 1. apply startsWith_refl_app.
  - rewrite findAllLinks_node_dir in H.
    destruct (endsWith path (js ".lnk")) eqn:E.
    + injection H as <-. destruct Hx as [<-|[]]. split; auto.
      rewrite <- (app_nil_r path) at 1. apply startsWith_refl_app.
    + destruct (promiseAll
                  (fun item => findAllLinks_node (path ++ js "/" ++ fst item)
                                 (snd item)) contents)
        as [result| |] eqn:P; cbn [bind] in H; try discriminate.
      injection H as <-. revert result P Hx.
      induction contents as [|item contents IHc]; intros result P Hx.
      * cbn [promiseAll] in P. injection P as <-. destruct Hx.
      * destruct item as [n child]. cbn [promiseAll fst snd] in P.
        destruct (findAllLinks_node (path ++ js "/" ++ n) child)
          as [found| |] eqn:G; cbn [bind] in P; try discriminate.
        destruct (promiseAll
                    (fun item => findAllLinks_node (path ++ js "/" ++ fst item)
                                   (snd item)) contents)
          as [others| |]; cbn [bind] in P; try discriminate.
        injection P as <-. cbn [List.concat] in Hx.
        apply in_app_iff in Hx. destruct Hx as [Hx|Hx].
        -- destruct (IH child _ _ G x Hx) as [Hl Hp]. split; auto.
           now apply startsWith_app_l in Hp.
        -- now apply (IHc others).
  - cbn [findAllLinks_node] in H.
    destruct (endsWith path (js ".lnk")) eqn:E; [|discriminate].
    injection H as <-. destruct Hx as [<-|[]]. split; auto.
    rewrite <- (app_nil_r path) at 1. apply startsWith_refl_app.
  - cbn [findAllLinks_node] in H.
    destruct (endsWith path (js ".lnk")) eqn:E; [|discriminate].
    injection H as <-. destruct Hx as [<-|[]]. split; auto.
    rewrite <- (app_nil_r path) at 1. apply startsWith_refl_app.
Qed.

(** X15. Every path [findAllLinks] returns ends in [.lnk] and starts with the
    path it was called on. A path that itself ends in [.lnk] is returned as
    it is, without a look at the file system; any other path must be there,
    or the call throws; and a file that is not a link gives nothing. *)
Theorem findAllLinks_returns_links (h : Host) (path : jsstring) :
  (forall links, findAllLinks h path = Ret links ->
     forall x, In x links ->
               endsWith x (js ".lnk") = true /\ startsWith x path = true)
  /\ (endsWith path (js ".lnk") = true -> findAllLinks h path = Ret [path])
  /\ (endsWith path (js ".lnk") = false -> fs_stat h path = None ->
      findAllLinks h path = Throw StatError)
  /\ (endsWith path (js ".lnk") = false -> fs_stat h path = Some FsFile ->
      findAllLinks h path = Ret []).
Proof.
  unfold findAllLinks. split; [|split; [|split]].
  - intros links H x Hx. destruct (endsWith path (js ".lnk")) eqn:E.
    + injection H as <-. destruct Hx as [<-|[]]. split; auto.
      rewrite <- (app_nil_r path) at 1. apply startsWith_refl_app.
    + destruct (fs_stat h path) as [node|]; [|discriminate].
      now apply (findAllLinks_node_links node path links).
  - now intros ->.
  - now intros -> ->.
  - intros E ->. rewrite E. cbn [findAllLinks_node]. now rewrite E.
Qed.

Lemma findAllLinks_returns_links_witness :
  (exists links,
      findAllLinks host1 startMenu = Ret links
      /\ In (startMenu ++ js "/Tools/Chat.lnk") links
      /\ endsWith (startMenu ++ js "/Tools/Chat.lnk") (js ".lnk") = true)
  /\ findAllLinks host1 desktopLink = Ret [desktopLink].
Proof.
  destruct (findAllLinks_returns_links host1 startMenu) as [Sound _].
  destruct (findAllLinks_returns_links host1 desktopLink) as [_ [Link _]].
  split.
  - eexists. split; [vm_compute; reflexivity|]. split.
    + vm_compute. tauto.
    + eapply Sound; [vm_compute; reflexivity|]. vm_compute. tauto.
  - apply Link. vm_compute. reflexivity.
Defined.

(* ================================================================== *)
(** ** Which duplicate is kept *)

Lemma find_app {A} (p : A -> bool) a b :
  find p (a ++ b) = match find p a with Some x => Some x | None => find p b end.
Proof. induction a as [|x a IH]; simpl; auto. destruct (p x); auto. Qed.

Lemma chosen_snoc (h : Host) k seen s :
  chosen h k (seen ++ [s])
  = match find (fun s => jseqb (shortcutKey h s) k && negb (truthy (args s))) seen with
    | Some x => Some x
    | None =>
        if jseqb (shortcutKey h s) k && negb (truthy (args s)) then Some s
        else match find (fun s => jseqb (shortcutKey h s) k) seen with
             | Some x => Some x
             | None => if jseqb (shortcutKey h s) k then Some s else None
             end
    end.
Proof.
  unfold chosen. rewrite !find_app. cbn [find].
  destruct (find (fun s => jseqb (shortcutKey h s) k && negb (truthy (args s))) seen);
    auto.
  destruct (jseqb (shortcutKey h s) k && negb (truthy (args s))); auto.
Qed.

Lemma chosen_other (h : Host) k seen s :
  shortcutKey h s <> k -> chosen h k (seen ++ [s]) = chosen h k seen.
Proof.
  intros N. rewrite chosen_snoc. unfold chosen.
  apply jseqb_neq in N. rewrite N. cbn [andb].
  destruct (find _ seen); auto. destruct (find _ seen); auto.
Qed.

Lemma removeDuplicates_step_chosen (h : Host) unique seen s :
  (forall k, aget unique k = if inherited k then None else chosen h k seen) ->
  forall k, aget (removeDuplicates_step h unique s) k
            = if inherited k then None else chosen h k (seen ++ [s]).
Proof.
  intros Inv k.
  destruct (list_eq_dec Z.eq_dec (shortcutKey h s) k) as [E|N].
  - (* the key of the new shortcut *)
    subst k. unfold removeDuplicates_step, oget. fold (shortcutKey h s).
    pose proof (Inv (shortcutKey h s)) as Hk.
    destruct (inherited (shortcutKey h s)) eqn:I.
    + rewrite Hk. exact Hk.
    + rewrite chosen_snoc, jseqb_refl. cbn [andb].
      unfold chosen in Hk.
      destruct (find (fun s0 => jseqb (shortcutKey h s0) (shortcutKey h s)
                                && negb (truthy (args s0))) seen)
        as [x|] eqn:Fq.
      * (* an earlier shortcut without arguments *)
        rewrite Hk.
        apply find_some in Fq. destruct Fq as [_ Fq].
        apply andb_true_iff in Fq. destruct Fq as [_ Fq].
        apply negb_true_iff in Fq. rewrite Fq. cbn [andb]. exact Hk.
      * destruct (find (fun s0 => jseqb (shortcutKey h s0) (shortcutKey h s)) seen)
          as [x|] eqn:Fp.
        -- (* earlier shortcuts, all with arguments *)
           rewrite Hk.
           assert (truthy (args x) = true) as Tx.
           { pose proof (find_some _ _ Fp) as [Hin Hp].
             pose proof (find_none _ _ Fq x Hin) as Hq. cbv beta in Hq.
             rewrite Hp in Hq. cbn [andb] in Hq.
             now apply negb_false_iff in Hq. }
           rewrite Tx. cbn [andb].
           destruct (truthy (args s)); cbn [negb].
           ++ exact Hk.
           ++ apply aget_aset_same.
        -- (* the first shortcut for this key *)
           rewrite Hk. rewrite aget_aset_same.
           destruct (negb (truthy (args s))); reflexivity.
  - (* any other key *)
    rewrite (chosen_other _ _ _ _ N). rewrite <- Inv.
    unfold removeDuplicates_step, oget. fold (shortcutKey h s).
    destruct (aget unique (shortcutKey h s)).
    + destruct (_ && _); auto. apply aget_aset_other. congruence.
    + destruct (inherited (shortcutKey h s)); auto.
      apply aget_aset_other. congruence.
Qed.

Lemma removeDuplicates_fold_chosen (h : Host) shortcuts :
  forall unique seen,
    (forall k, aget unique k = if inherited k then None else chosen h k seen) ->
    forall k, aget (fold_left (removeDuplicates_step h) shortcuts unique) k
              = if inherited k then None else chosen h k (seen ++ shortcuts).
Proof.
  induction shortcuts as [|s rest IH]; intros unique seen Inv k; simpl.
  - now rewrite app_nil_r.
  - replace (seen ++ s :: rest) with ((seen ++ [s]) ++ rest)
      by (rewrite <- app_assoc; reflexivity).
    apply IH. now apply removeDuplicates_step_chosen.
Qed.

Lemma NoDup_akeys_aget {V} (m : assoc V) k v :
  NoDup (akeys m) -> In (k, v) m -> aget m k = Some v.
Proof.
  induction m as [|[k' v'] m IH]; simpl; [intros _ []|].
  intros Hnd [[= -> ->]|Hin].
  - now rewrite jseqb_refl.
  - inversion Hnd as [|? ? Hfresh Hnd']; subst.
    destruct (jseqb k' k) eqn:E; auto.
    apply jseqb_eq in E. subst k'. exfalso. apply Hfresh.
    unfold akeys. apply in_map_iff. exists (k, v). auto.
Qed.

(** X16. [removeDuplicates] returns, for every lower-cased target of its
    argument, exactly one shortcut: the first one without arguments, or the
    first one when all shortcuts to that target have arguments. (Targets
    that lower-case to the name of an inherited object property are
    dropped.) Nothing else is returned, and no two shortcuts returned have
    the same lower-cased target. *)
Theorem removeDuplicates_keeps_first_plain (h : Host)
  (shortcuts : list ShortcutDetails) :
  (forall d, In d (removeDuplicates h shortcuts) <->
             exists k, inherited k = false /\ chosen h k shortcuts = Some d)
  /\ NoDup (map (shortcutKey h) (removeDuplicates h shortcuts))
  /\ (forall d, In d (removeDuplicates h shortcuts) ->
                In d shortcuts /\ inherited (shortcutKey h d) = false).
Proof.
  assert (forall k, aget (fold_left (removeDuplicates_step h) shortcuts []) k
                    = if inherited k then None else chosen h k shortcuts) as Look.
  { intros k. apply (removeDuplicates_fold_chosen h shortcuts [] []).
    intros k'. simpl. now destruct (inherited k'). }
  assert (uniqueShortcuts h [] []) as H0.
  { split; [intros ? ? []|split; [constructor|intros ? []]]. }
  pose proof (removeDuplicates_fold_unique h shortcuts [] [] H0) as [Hkv [Hnd _]].
  simpl in Hkv.
  destruct (removeDuplicates_result h shortcuts) as [R1 [R2 _]].
  unfold removeDuplicates in *.
  set (unique := fold_left (removeDuplicates_step h) shortcuts []) in *.
  assert (forall d, In d (avalues unique) <->
                    exists k, inherited k = false /\ chosen h k shortcuts = Some d)
    as Char.
  { intros d. unfold avalues. rewrite in_map_iff. split.
    - intros [[k v] [<- Hin]]. exists k. simpl.
      pose proof (NoDup_akeys_aget _ _ _ Hnd Hin) as G. rewrite Look in G.
      destruct (inherited k); [discriminate|auto].
    - intros [k [I C]]. exists (k, d). split; auto.
      apply aget_In. now rewrite Look, I. }
  split; [exact Char|]. split; [exact R2|].
  intros d Hd. split; [now apply R1|].
  apply Char in Hd. destruct Hd as [k [I C]].
  assert (shortcutKey h d = k) as ->; auto.
  unfold chosen in C.
  destruct (find (fun s => jseqb (shortcutKey h s) k && negb (truthy (args s)))
                 shortcuts) eqn:Fq.
  - injection C as <-. apply find_some in Fq. destruct Fq as [_ Fq].
    apply andb_true_iff in Fq. destruct Fq as [Fq _]. now apply jseqb_eq.
  - apply find_some in C. destruct C as [_ C]. now apply jseqb_eq.
Qed.

Lemma removeDuplicates_keeps_first_plain_witness :
  In ecolePlain (removeDuplicates host1 [ecoleFlagged; ecolePlain])
  /\ ~ In ecoleFlagged (removeDuplicates host1 [ecoleFlagged; ecolePlain]).
Proof.
  destruct (removeDuplicates_keeps_first_plain host1 [ecoleFlagged; ecolePlain])
    as [Char _].
  split.
  - apply Char. exists (shortcutKey host1 ecolePlain). split; vm_compute; reflexivity.
  - intros Hin. apply Char in Hin. destruct Hin as [k [_ C]].
    unfold chosen in C. cbn [find] in C.
    destruct (jseqb (shortcutKey host1 ecoleFlagged) k) eqn:Ek.
    + apply jseqb_eq in Ek. subst k. vm_compute in C. discriminate.
    + cbn [andb] in C.
      destruct (jseqb (shortcutKey host1 ecolePlain) k) eqn:Ep;
        cbn [andb negb] in C.
      * apply jseqb_eq in Ep. subst k. vm_compute in Ek. discriminate.
      * discriminate.
Defined.

Lemma aset_fresh {V} (m : assoc V) k v :
  aget m k = None -> aset m k v = m ++ [(k, v)].
Proof.
  induction m as [|[k' v'] m IH]; simpl; auto.
  destruct (jseqb k' k); [discriminate|]. intros H. now rewrite IH.
Qed.

Lemma removeDuplicates_fold_distinct (h : Host) shortcuts :
  forall unique,
    NoDup (akeys unique ++ map (shortcutKey h) shortcuts) ->
    (forall d, In d shortcuts -> inherited (shortcutKey h d) = false) ->
    fold_left (removeDuplicates_step h) shortcuts unique
    = unique ++ map (fun d => (shortcutKey h d, d)) shortcuts.
Proof.
  induction shortcuts as [|s rest IH]; intros unique Hnd Hni; simpl.
  - now rewrite app_nil_r.
  - assert (aget unique (shortcutKey h s) = None) as G.
    { apply aget_None_keys. intros Hin.
      apply NoDup_remove_2 in Hnd. apply Hnd. apply in_or_app. now left. }
    unfold removeDuplicates_step at 2. unfold oget. fold (shortcutKey h s).
    rewrite G, (Hni s (or_introl eq_refl)), (aset_fresh _ _ _ G).
    rewrite IH.
    + now rewrite <- app_assoc.
    + unfold akeys. rewrite map_app. simpl. rewrite <- app_assoc. exact Hnd.
    + intros d Hd. apply Hni. now right.
Qed.

(** X17. A list whose lower-cased targets differ from one another (and name
    no inherited property) goes through [removeDuplicates] unchanged, order
    included; so removing duplicates a second time changes nothing. *)
Theorem removeDuplicates_idempotent (h : Host)
  (shortcuts : list ShortcutDetails) :
  (NoDup (map (shortcutKey h) shortcuts) ->
   (forall d, In d shortcuts -> inherited (shortcutKey h d) = false) ->
   removeDuplicates h shortcuts = shortcuts)
  /\ removeDuplicates h (removeDuplicates h shortcuts)
     = removeDuplicates h shortcuts.
Proof.
  assert (forall l, NoDup (map (shortcutKey h) l) ->
                    (forall d, In d l -> inherited (shortcutKey h d) = false) ->
                    removeDuplicates h l = l) as Fix.
  { intros l Hnd Hni. unfold removeDuplicates.
    rewrite (removeDuplicates_fold_distinct h l []); auto.
    unfold avalues. simpl. rewrite map_map. simpl. apply map_id. }
  split; [apply Fix|].
  destruct (removeDuplicates_result h shortcuts) as [R1 [R2 _]].
  apply Fix; auto.
  intros d Hd. pose proof (R1 d Hd) as Hin.
  (* a shortcut that was stored has a key that is not inherited *)
  assert (uniqueShortcuts h [] []) as H0.
  { split; [intros ? ? []|split; [constructor|intros ? []]]. }
  assert (forall l m, (forall k, In k (akeys m) -> inherited k = false) ->
            forall k, In k (akeys (fold_left (removeDuplicates_step h) l m)) ->
                      inherited k = false) as Keys.
  { induction l as [|s l IHl]; intros m Hm k Hk; simpl in Hk; [auto|].
    apply (IHl (removeDuplicates_step h m s)); auto.
    intros k' Hk'. unfold removeDuplicates_step, oget in Hk'.
    destruct (aget m (str_toLowerCase h (target s))) eqn:G.
    - destruct (_ && _); auto.
      rewrite akeys_aset, G in Hk'. auto.
    - destruct (inherited (str_toLowerCase h (target s))) eqn:I; auto.
      rewrite akeys_aset, G in Hk'. apply in_app_iff in Hk'.
      destruct Hk' as [?|[<-|[]]]; auto. }
  pose proof (removeDuplicates_fold_unique h shortcuts [] [] H0) as [Hkv _].
  unfold removeDuplicates, avalues in Hd. apply in_map_iff in Hd.
  destruct Hd as [[k v] [<- Hkvin]]. simpl.
  destruct (Hkv k v Hkvin) as [Ek _]. unfold shortcutKey. rewrite <- Ek.
  apply (Keys shortcuts []); [intros ? []|].
  unfold akeys. apply in_map_iff. exists (k, v). auto.
Qed.

Lemma removeDuplicates_idempotent_witness :
  removeDuplicates host1 [firefoxShortcut; plainShortcut]
  = [firefoxShortcut; plainShortcut].
Proof.
  destruct (removeDuplicates_idempotent host1 [firefoxShortcut; plainShortcut])
    as [Same _].
  apply Same.
  - vm_compute. repeat constructor; simpl; intuition discriminate.
  - intros d [<-|[<-|[]]]; vm_compute; reflexivity.
Defined.

(* ================================================================== *)
(** ** The shortcut cache over scans *)

Lemma wellKeyed_aset h cache s :
  wellKeyed h cache -> wellKeyed h (aset cache (shortcutKey h s) s).
Proof.
  intros [Hkv Hnd]. split.
  - intros k v H. apply aset_In in H. destruct H as [[= -> ->]|H]; auto.
  - rewrite akeys_aset. destruct (aget cache (shortcutKey h s)) eqn:G; auto.
    apply aget_None_keys in G.
    apply NoDup_app; [auto|repeat constructor; intros []|].
    intros x Hx [<-|[]]. contradiction.
Qed.

Lemma aget_aset_keeps {V} (m : assoc V) k v k' :
  aget m k' <> None -> aget (aset m k v) k' <> None.
Proof.
  intros H. destruct (list_eq_dec Z.eq_dec k' k) as [->|N].
  - rewrite aget_aset_same. discriminate.
  - now rewrite aget_aset_other.
Qed.

Lemma updateShortcutCache_loop_keeps h resolved :
  forall shortcuts cache stored cache',
    updateShortcutCache_loop h resolved shortcuts cache = Ret (stored, cache') ->
    (wellKeyed h cache -> wellKeyed h cache')
    /\ (forall k, aget cache k <> None -> aget cache' k <> None).
Proof.
  induction resolved as [|s rest IH]; intros shortcuts cache stored cache' H.
  - simpl in H. injection H as _ <-. auto.
  - cbn [updateShortcutCache_loop] in H.
    destruct (usesNetwork h s) as [[|]| |]; cbn [bind] in H; try discriminate.
    + destruct (IH _ _ _ _ H) as [I1 I2]. split.
      * intros W. apply I1. now apply wellKeyed_aset.
      * intros k Hk. apply I2. now apply aget_aset_keeps.
    + now apply (IH _ _ _ _ H).
Qed.

(** X18. A scan only adds to the shortcut cache or overwrites: every key that
    was there is still there afterwards, also when the link that once led
    to it is gone. It keeps the cache well keyed (every shortcut under the
    lower-cased form of its target, no key twice), so that every key is
    unchanged by lower-casing, lower-casing twice being the same as once;
    and it leaves the application cache and the additional shortcuts
    alone. *)
Theorem updateShortcutCache_only_grows (h : Host) (c c' : Caches) :
  updateShortcutCache h c = Ret c' ->
  (forall k, aget (shortcutCache c) k <> None ->
             aget (shortcutCache c') k <> None)
  /\ (wellKeyed h (shortcutCache c) ->
      wellKeyed h (shortcutCache c')
      /\ (lowerIdempotent h ->
          forall k, In k (akeys (shortcutCache c')) -> str_toLowerCase h k = k))
  /\ applicationCache c' = applicationCache c
  /\ additionalShortcuts c' = additionalShortcuts c.
Proof.
  unfold updateShortcutCache, updateShortcutCache_scan. intros H.
  destruct (promiseAll (findAllLinks h) (APPLICATION_PATHS h)) as [links| |];
    cbn [bind] in H; try discriminate.
  destruct (updateShortcutCache_loop h _ [] (shortcutCache c))
    as [[stored cache']| |] eqn:Hloop; cbn [bind] in H; try discriminate.
  injection H as <-. cbn [shortcutCache applicationCache additionalShortcuts snd].
  destruct (updateShortcutCache_loop_keeps _ _ _ _ _ _ Hloop) as [W M].
  split; [exact M|]. split; [|auto].
  intros Wc. split; [auto|].
  intros Idem k Hk. destruct (W Wc) as [Hkv _].
  unfold akeys in Hk. apply in_map_iff in Hk. destruct Hk as [[k' v] [<- Hin]].
  simpl. rewrite (Hkv _ _ Hin). apply Idem.
Qed.

Lemma lowerLatin1_idempotent s : lowerLatin1 (lowerLatin1 s) = lowerLatin1 s.
Proof.
  unfold lowerLatin1. rewrite map_map. apply map_ext. intros c.
  unfold lowerLatin1Unit.
  destruct (((65 <=? c) && (c <=? 90))
            || ((192 <=? c) && (c <=? 222) && negb (c =? 215))) eqn:E;
    [|now rewrite E].
  revert E.
  destruct (Z.leb_spec 65 c), (Z.leb_spec c 90), (Z.leb_spec 192 c),
    (Z.leb_spec c 222); cbn [andb orb negb]; intros E; try discriminate;
    destruct (Z.leb_spec 65 (c + 32)), (Z.leb_spec (c + 32) 90),
      (Z.leb_spec 192 (c + 32)), (Z.leb_spec (c + 32) 222);
    cbn [andb orb negb]; try lia; auto.
Qed.

Lemma updateShortcutCache_only_grows_witness :
  exists c',
    updateShortcutCache host2
      (mkCaches [(lowerLatin1 firefoxPath, firefoxShortcut)] [] []) = Ret c'
    /\ aget (shortcutCache c') (lowerLatin1 firefoxPath) <> None
    /\ wellKeyed host2 (shortcutCache c')
    /\ str_toLowerCase host2 (lowerLatin1 firefoxPath) = lowerLatin1 firefoxPath.
Proof.
  eexists. split; [vm_compute; reflexivity|].
  destruct (updateShortcutCache_only_grows host2
              (mkCaches [(lowerLatin1 firefoxPath, firefoxShortcut)] [] []) _
              ltac:(vm_compute; reflexivity)) as [Keeps [Keyed _]].
  assert (wellKeyed host2 [(lowerLatin1 firefoxPath, firefoxShortcut)]) as W.
  { split.
    - intros k v [[= <- <-]|[]]. reflexivity.
    - vm_compute. repeat constructor. intros []. }
  destruct (Keyed W) as [W' Lower].
  split; [|split].
  - apply Keeps. vm_compute. discriminate.
  - exact W'.
  - apply Lower.
    + intros s. apply lowerLatin1_idempotent.
    + vm_compute. left. reflexivity.
Defined.

(* ================================================================== *)
(** ** Adding and removing *)

Lemma getProgramName_returns fs exePath :
  exists r, getProgramName fs exePath = Ret r.
Proof.
  unfold getProgramName.
  destruct (getProductName_returns fs exePath) as [r ->]. simpl. eauto.
Qed.

Lemma addApplicationToAdditionalShortcuts_returns_shape h applicationPath c :
  exists c',
    addApplicationToAdditionalShortcuts h applicationPath c = Ret c'
    /\ shortcutCache c' = shortcutCache c
    /\ applicationCache c' = applicationCache c
    /\ (additionalShortcuts c' = additionalShortcuts c
        \/ exists n, additionalShortcuts c'
                     = additionalShortcuts c
                       ++ [mkShortcut applicationPath n None true]).
Proof.
  unfold addApplicationToAdditionalShortcuts.
  destruct (_ && _).
  - destruct (getProgramName_returns (fs_open h) applicationPath) as [r ->].
    cbn [bind]. eexists. split; [reflexivity|].
    cbn [shortcutCache applicationCache additionalShortcuts]. eauto.
  - exists c. auto.
Qed.

(** X19. [addApplicationToAdditionalShortcuts] always returns. It leaves the
    shortcut cache and the application cache alone and appends at most one
    descriptor, which has the path as its target, no arguments and is
    deletable. Afterwards the path is known, to the shortcut cache or to the
    additional shortcuts, so that a second call with the same path changes
    nothing. *)
Theorem addApplicationToAdditionalShortcuts_once (h : Host)
  (applicationPath : jsstring) (c : Caches) :
  exists c',
    addApplicationToAdditionalShortcuts h applicationPath c = Ret c'
    /\ shortcutCache c' = shortcutCache c
    /\ applicationCache c' = applicationCache c
    /\ (additionalShortcuts c' = additionalShortcuts c
        \/ exists n, additionalShortcuts c'
                     = additionalShortcuts c
                       ++ [mkShortcut applicationPath n None true])
    /\ (oget (shortcutCache c') (str_toLowerCase h applicationPath)
        <> Undefined
        \/ exists s, In s (additionalShortcuts c')
                     /\ str_toLowerCase h (target s)
                        = str_toLowerCase h applicationPath)
    /\ addApplicationToAdditionalShortcuts h applicationPath c' = Ret c'.
Proof.
  unfold addApplicationToAdditionalShortcuts.
  destruct (oget (shortcutCache c) (str_toLowerCase h applicationPath)) eqn:Hc;
    cbn [andb].
  1,2: exists c; rewrite Hc; cbn [andb];
       repeat split; auto; left; discriminate.
  destruct (existsb _ (additionalShortcuts c)) eqn:Hex; cbn [negb].
  - exists c. rewrite Hc, Hex. cbn [andb negb]. repeat split; auto.
    right. apply existsb_exists in Hex. destruct Hex as [s [Hin E]].
    apply jseqb_eq in E. eauto.
  - destruct (getProgramName_returns (fs_open h) applicationPath) as [r ->].
    cbn [bind]. eexists. split; [reflexivity|].
    cbn [shortcutCache applicationCache additionalShortcuts].
    split; [reflexivity|]. split; [reflexivity|]. split; [right; eauto|].
    split.
    + right. eexists. split; [apply in_or_app; right; left; reflexivity|].
      reflexivity.
    + rewrite Hc. cbn [andb]. rewrite existsb_app. cbn [existsb target].
      rewrite jseqb_refl, orb_true_r. reflexivity.
Qed.

(** X20. Adding a path that is not a link and then removing the application
    with that path gives back the additional shortcuts as they were, provided no
    descriptor had exactly that target before; the shortcut cache is the
    same throughout, and the call returns the path itself. *)
Theorem add_then_remove_restores (h : Host) (applicationPath returned : jsstring)
  (c c' : Caches) (application : IWindowsApplication) :
  path_parse_ext h applicationPath <> js ".lnk" ->
  absolutepath application = applicationPath ->
  (forall s, In s (additionalShortcuts c) -> target s <> applicationPath) ->
  addApplicationPathToCache h applicationPath c = Ret (returned, c') ->
  returned = applicationPath
  /\ additionalShortcuts (removeApplicationFromCache h application c')
     = additionalShortcuts c
  /\ shortcutCache (removeApplicationFromCache h application c')
     = shortcutCache c.
Proof.
  intros Hext Happ Hnone H. unfold addApplicationPathToCache in H.
  apply jseqb_neq in Hext. rewrite Hext in H.
  destruct (addApplicationToAdditionalShortcuts_returns_shape h applicationPath c)
    as [c1 [Hadd [Hs [_ Hshape]]]].
  rewrite Hadd in H. cbn [bind] in H. injection H as <- <-.
  split; [reflexivity|]. unfold removeApplicationFromCache.
  cbn [additionalShortcuts shortcutCache]. split; [|exact Hs].
  assert (filter (fun shortcut => negb (jseqb (target shortcut)
                                          (absolutepath application)))
                 (additionalShortcuts c) = additionalShortcuts c) as Keep.
  { apply forallb_filter_id. apply forallb_forall. intros s Hin.
    apply negb_true_iff, jseqb_neq. rewrite Happ. now apply Hnone. }
  destruct Hshape as [->|[n ->]]; [exact Keep|].
  rewrite filter_app, Keep. cbn [filter target]. rewrite Happ, jseqb_refl.
  cbn [negb]. apply app_nil_r.
Qed.

Lemma add_then_remove_restores_witness :
  exists c',
    addApplicationPathToCache host2 notesPath emptyCaches = Ret (notesPath, c')
    /\ List.length (additionalShortcuts c') = 1%nat
    /\ additionalShortcuts (removeApplicationFromCache host2 notesApplication c') = [].
Proof.
  eexists. split; [vm_compute; reflexivity|]. split; [reflexivity|].
  apply (add_then_remove_restores host2 notesPath notesPath emptyCaches _
           notesApplication).
  - vm_compute. discriminate.
  - reflexivity.
  - intros s [].
  - vm_compute. reflexivity.
Defined.

Lemma filter_comm {A} (p q : A -> bool) l :
  filter p (filter q l) = filter q (filter p l).
Proof.
  induction l as [|x l IH]; simpl; auto.
  destruct (p x) eqn:Hp, (q x) eqn:Hq; simpl; rewrite ?Hp, ?Hq, IH; auto.
Qed.

Lemma filter_idem {A} (p : A -> bool) l : filter p (filter p l) = filter p l.
Proof.
  induction l as [|x l IH]; simpl; auto.
  destruct (p x) eqn:Hp; simpl; rewrite ?Hp, IH; auto.
Qed.

(** X21. Removing an application a second time changes nothing, and two
    removals give the same caches in either order. A removal with a path
    that differs from a descriptor's target in letter case only leaves that
    descriptor in the additional shortcuts, while the entry of the
    application cache, which is keyed by the lower-cased path, is deleted
    all the same. *)
Theorem removeApplicationFromCache_composes (h : Host)
  (a b : IWindowsApplication) (c : Caches) :
  removeApplicationFromCache h a (removeApplicationFromCache h a c)
  = removeApplicationFromCache h a c
  /\ removeApplicationFromCache h a (removeApplicationFromCache h b c)
     = removeApplicationFromCache h b (removeApplicationFromCache h a c)
  /\ (forall s, In s (additionalShortcuts c) ->
                target s <> absolutepath a ->
                str_toLowerCase h (target s)
                = str_toLowerCase h (absolutepath a) ->
                In s (additionalShortcuts (removeApplicationFromCache h a c))
                /\ aget (applicationCache (removeApplicationFromCache h a c))
                        (str_toLowerCase h (target s)) = None).
Proof.
  unfold removeApplicationFromCache, adelete.
  cbn [shortcutCache applicationCache additionalShortcuts].
  split; [|split].
  - now rewrite !filter_idem.
  - f_equal; apply filter_comm.
  - intros s Hin Hne Hlow. split.
    + apply filter_In. split; auto. now apply negb_true_iff, jseqb_neq.
    + rewrite Hlow. apply (aget_adelete_same _ (applicationCache c)).
Qed.

Lemma removeApplicationFromCache_composes_witness :
  In (mkShortcut chatPath (js "Chat") None true)
     (additionalShortcuts
        (removeApplicationFromCache host1
           (mkApplication (js "c:\apps\chat\chat.exe") (js "Chat") [] true)
           cachesListed))
  /\ aget (applicationCache
             (removeApplicationFromCache host1
                (mkApplication (js "c:\apps\chat\chat.exe") (js "Chat") [] true)
                cachesListed))
          (str_toLowerCase host1 chatPath) = None.
Proof.
  destruct (removeApplicationFromCache_composes host1
              (mkApplication (js "c:\apps\chat\chat.exe") (js "Chat") [] true)
              notesApplication cachesListed) as [_ [_ Case]].
  apply (Case (mkShortcut chatPath (js "Chat") None true)).
  - left. reflexivity.
  - vm_compute. discriminate.
  - vm_compute. reflexivity.
Defined.

(* ================================================================== *)
(** ** The application cache *)

Lemma storeApplication_other h rt cache s k :
  k <> str_toLowerCase h (target s) ->
  aget (storeApplication h rt cache s) k = aget cache k.
Proof.
  intros N. unfold storeApplication.
  destruct (convertToSplitTunnelingApplication rt s); auto.
  now apply aget_aset_other.
Qed.

Lemma storeApplication_grows h rt cache s k :
  aget cache k <> None -> aget (storeApplication h rt cache s) k <> None.
Proof.
  intros H. unfold storeApplication.
  destruct (convertToSplitTunnelingApplication rt s); auto.
  now apply aget_aset_keeps.
Qed.

Lemma fold_store_other h rt l :
  forall cache k,
    (forall s, In s l -> k <> str_toLowerCase h (target s)) ->
    aget (fold_left (storeApplication h rt) l cache) k = aget cache k.
Proof.
  induction l as [|s l IH]; intros cache k H; simpl; auto.
  rewrite IH by (intros; apply H; now right).
  apply storeApplication_other. apply H. now left.
Qed.

Lemma fold_store_grows h rt l :
  forall cache k,
    aget cache k <> None ->
    aget (fold_left (storeApplication h rt) l cache) k <> None.
Proof.
  induction l as [|s l IH]; intros cache k H; simpl; auto.
  apply IH. now apply storeApplication_grows.
Qed.

Lemma fold_store_origin h rt l :
  forall cache k v,
    aget (fold_left (storeApplication h rt) l cache) k = Some v ->
    aget cache k = Some v
    \/ exists s, In s l /\ str_toLowerCase h (target s) = k
                 /\ convertToSplitTunnelingApplication rt s = Some v.
Proof.
  induction l as [|s l IH]; intros cache k v H; simpl in H; auto.
  apply IH in H. destruct H as [H|[s' [Hin [Hk Hc]]]].
  - unfold storeApplication in H.
    destruct (convertToSplitTunnelingApplication rt s) as [a|] eqn:E; auto.
    destruct (list_eq_dec Z.eq_dec k (str_toLowerCase h (target s))) as [->|N].
    + rewrite aget_aset_same in H. injection H as <-.
      right. exists s. split; [now left|]. auto.
    + rewrite aget_aset_other in H by exact N. auto.
  - right. exists s'. split; [now right|]. auto.
Qed.

Lemma fold_store_stored h rt l :
  forall cache s,
    In s l -> convertToSplitTunnelingApplication rt s <> None ->
    aget (fold_left (storeApplication h rt) l cache) (str_toLowerCase h (target s))
    <> None.
Proof.
  induction l as [|x l IH]; intros cache s Hin Hc; [destruct Hin|].
  destruct Hin as [->|H]; simpl.
  - apply fold_store_grows. unfold storeApplication.
    destruct (convertToSplitTunnelingApplication rt s); [|contradiction].
    rewrite aget_aset_same. discriminate.
  - now apply IH.
Qed.

Lemma convert_absolutepath rt s a :
  convertToSplitTunnelingApplication rt s = Some a ->
  absolutepath a = target s /\ app_name a = name s
  /\ app_deletable a = deletable s
  /\ retrieveIcon rt (target s) = Some (icon a).
Proof.
  unfold convertToSplitTunnelingApplication.
  destruct (retrieveIcon rt (target s)); [|discriminate].
  intros [= <-]. auto.
Qed.

Lemma fold_store_wellKeyed h rt l :
  forall cache,
    applicationsWellKeyed h cache ->
    applicationsWellKeyed h (fold_left (storeApplication h rt) l cache).
Proof.
  induction l as [|s l IH]; intros cache W; simpl; auto.
  apply IH. unfold storeApplication.
  destruct (convertToSplitTunnelingApplication rt s) as [a|] eqn:E; auto.
  intros k v H. apply aset_In in H. destruct H as [[= -> ->]|H]; auto.
  apply convert_absolutepath in E. destruct E as [-> _]. reflexivity.
Qed.

Lemma notCached_true h cache s :
  notCached h cache s = true <->
  aget cache (str_toLowerCase h (target s)) = None
  /\ inherited (str_toLowerCase h (target s)) = false.
Proof.
  unfold notCached, oget.
  destruct (aget cache _); [split; [discriminate|intros [? _]; discriminate]|].
  destruct (inherited _); split; auto; try discriminate.
  intros [_ ?]. discriminate.
Qed.

(** X22. [updateApplicationCache] never converts a shortcut whose key the
    application cache holds already: every entry that was there is there
    unchanged afterwards, in whatever order the icons arrive. Every entry
    that is new is the conversion of a shortcut of the shortcut cache or of
    the additional shortcuts, stored under the lower-cased form of its
    target, which names no inherited property. The shortcut cache and the
    additional shortcuts are left alone. *)
Theorem updateApplicationCache_never_recomputes (h : Host) (rt : Runtime)
  (c c' : Caches) (ok : bool) :
  fair rt ->
  updateApplicationCache h rt c = (ok, c') ->
  shortcutCache c' = shortcutCache c
  /\ additionalShortcuts c' = additionalShortcuts c
  /\ (forall k v, aget (applicationCache c) k = Some v ->
                  aget (applicationCache c') k = Some v)
  /\ (forall k v, aget (applicationCache c') k = Some v ->
                  aget (applicationCache c) k = Some v
                  \/ exists s, In s (allShortcuts c)
                               /\ str_toLowerCase h (target s) = k
                               /\ inherited k = false
                               /\ aget (applicationCache c) k = None
                               /\ v = mkApplication (target s) (name s)
                                        (icon v) (deletable s)
                               /\ retrieveIcon rt (target s) = Some (icon v)).
Proof.
  intros [_ Fair] H. unfold updateApplicationCache in H.
  injection H as _ <-.
  cbn [shortcutCache applicationCache additionalShortcuts].
  split; [reflexivity|]. split; [reflexivity|].
  fold (allShortcuts c).
  set (started := filter (notCached h (applicationCache c)) (allShortcuts c)).
  assert (forall s, In s (iconsOrder rt started) ->
                    In s (allShortcuts c)
                    /\ aget (applicationCache c) (str_toLowerCase h (target s)) = None
                    /\ inherited (str_toLowerCase h (target s)) = false) as Started.
  { intros s Hs. apply (Permutation_in _ (Fair started)) in Hs.
    apply filter_In in Hs. destruct Hs as [Hin Hn].
    apply notCached_true in Hn. tauto. }
  split.
  - intros k v G. rewrite fold_store_other; auto.
    intros s Hs ->. destruct (Started s Hs) as [_ [N _]]. congruence.
  - intros k v G. apply fold_store_origin in G.
    destruct G as [G|[s [Hs [Hk Hc]]]]; auto.
    right. exists s. destruct (Started s Hs) as [Hin [N I]].
    rewrite <- Hk.
    destruct (convert_absolutepath _ _ _ Hc) as [E1 [E2 [E3 E4]]].
    repeat split; auto.
    destruct v as [p n i d]. simpl in *. congruence.
Qed.

Lemma runtime1_fair : fair runtime1.
Proof. split; intros l; apply Permutation_sym, Permutation_rev. Qed.

Lemma updateApplicationCache_never_recomputes_witness :
  aget (applicationCache (snd (updateApplicationCache host1 runtime1 cachesListed)))
       (str_toLowerCase host1 chatPath)
  = Some chatApplication.
Proof.
  destruct (updateApplicationCache_never_recomputes host1 runtime1 cachesListed
              (snd (updateApplicationCache host1 runtime1 cachesListed))
              (fst (updateApplicationCache host1 runtime1 cachesListed)))
    as [_ [_ [Keeps _]]].
  - exact runtime1_fair.
  - reflexivity.
  - apply Keeps. vm_compute. reflexivity.
Defined.

Lemma updateApplicationCache_ok h rt c :
  fst (updateApplicationCache h rt c) = true <->
  forall s, In s (allShortcuts c) ->
            notCached h (applicationCache c) s = true ->
            retrieveIcon rt (target s) <> None.
Proof.
  unfold updateApplicationCache. cbn [fst]. fold (allShortcuts c).
  rewrite forallb_forall. split.
  - intros H s Hin Hn. specialize (H s).
    rewrite filter_In in H. specialize (H (conj Hin Hn)).
    unfold convertToSplitTunnelingApplication in H.
    destruct (retrieveIcon rt (target s)); discriminate.
  - intros H s Hs. apply filter_In in Hs. destruct Hs as [Hin Hn].
    specialize (H s Hin Hn). unfold convertToSplitTunnelingApplication.
    destruct (retrieveIcon rt (target s)); [reflexivity|now elim H].
Qed.

Lemma updateApplicationCache_stores h rt c s :
  fair rt ->
  In s (allShortcuts c) ->
  inherited (str_toLowerCase h (target s)) = false ->
  retrieveIcon rt (target s) <> None
  \/ aget (applicationCache c) (str_toLowerCase h (target s)) <> None ->
  aget (applicationCache (snd (updateApplicationCache h rt c)))
       (str_toLowerCase h (target s)) <> None.
Proof.
  intros [_ Fair] Hin I H. unfold updateApplicationCache.
  cbn [snd applicationCache]. fold (allShortcuts c).
  destruct (aget (applicationCache c) (str_toLowerCase h (target s))) eqn:G.
  - apply fold_store_grows. rewrite G. discriminate.
  - destruct H as [H|H]; [|contradiction].
    apply fold_store_stored.
    + apply (Permutation_in _ (Permutation_sym (Fair _))).
      apply filter_In. split; auto. apply notCached_true. auto.
    + unfold convertToSplitTunnelingApplication.
      destruct (retrieveIcon rt (target s)); [discriminate|contradiction].
Qed.

(** X23. The promise of [updateApplicationCache] is fulfilled exactly when
    the icon of every shortcut that is converted can be retrieved. Fulfilled
    or not, once the conversions have completed every shortcut whose icon
    can be retrieved or whose key was in the cache, and whose key names no
    inherited property, has an application under its key: one icon that
    fails does not stop the others from being stored. *)
Theorem updateApplicationCache_complete (h : Host) (rt : Runtime)
  (c c' : Caches) (ok : bool) :
  fair rt ->
  updateApplicationCache h rt c = (ok, c') ->
  (ok = true <->
   forall s, In s (allShortcuts c) ->
             notCached h (applicationCache c) s = true ->
             retrieveIcon rt (target s) <> None)
  /\ (forall s, In s (allShortcuts c) ->
                inherited (str_toLowerCase h (target s)) = false ->
                retrieveIcon rt (target s) <> None
                \/ aget (applicationCache c) (str_toLowerCase h (target s))
                   <> None ->
                exists a, aget (applicationCache c')
                               (str_toLowerCase h (target s)) = Some a)
  /\ (ok = true ->
      forall s, In s (allShortcuts c) ->
                inherited (str_toLowerCase h (target s)) = false ->
                exists a, aget (applicationCache c')
                               (str_toLowerCase h (target s)) = Some a).
Proof.
  intros Fair H.
  assert (ok = fst (updateApplicationCache h rt c)) as Eok by now rewrite H.
  assert (c' = snd (updateApplicationCache h rt c)) as Ec by now rewrite H.
  assert (forall s, In s (allShortcuts c) ->
                inherited (str_toLowerCase h (target s)) = false ->
                retrieveIcon rt (target s) <> None
                \/ aget (applicationCache c) (str_toLowerCase h (target s)) <> None ->
                exists a, aget (applicationCache c') (str_toLowerCase h (target s))
                          = Some a) as Stores.
  { intros s Hin I Hs.
    pose proof (updateApplicationCache_stores h rt c s Fair Hin I Hs) as N.
    rewrite <- Ec in N.
    destruct (aget (applicationCache c') (str_toLowerCase h (target s))); eauto.
    contradiction. }
  split; [|split].
  - rewrite Eok. apply updateApplicationCache_ok.
  - exact Stores.
  - intros Hok s Hin I. apply Stores; auto.
    rewrite Eok in Hok.
    destruct (aget (applicationCache c) (str_toLowerCase h (target s))) eqn:G.
    + right. discriminate.
    + left. apply (proj1 (updateApplicationCache_ok h rt c) Hok s Hin).
      apply notCached_true. auto.
Qed.

Lemma updateApplicationCache_complete_witness :
  exists a,
    aget (applicationCache (snd (updateApplicationCache host1 runtime1 cachesListed)))
         (str_toLowerCase host1 firefoxPath) = Some a.
Proof.
  destruct (updateApplicationCache_complete host1 runtime1 cachesListed
              (snd (updateApplicationCache host1 runtime1 cachesListed))
              (fst (updateApplicationCache host1 runtime1 cachesListed))
              runtime1_fair eq_refl)
    as [_ [_ Complete]].
  apply (Complete eq_refl firefoxShortcut).
  - left. reflexivity.
  - reflexivity.
Defined.

(* ================================================================== *)
(** ** Several application paths at once *)

Lemma promiseAll_addedShortcut h l :
  exists pushed,
    promiseAll (addedShortcut h) l = Ret pushed
    /\ map target pushed = l
    /\ (forall s, In s pushed -> deletable s = true /\ args s = None).
Proof.
  induction l as [|p l [pushed [E [M D]]]]; simpl.
  - exists []. split; [reflexivity|]. split; [reflexivity|]. intros x [].
  - unfold addedShortcut at 1.
    destruct (getProgramName_returns (fs_open h) p) as [r ->]. cbn [bind].
    rewrite E. cbn [bind]. eexists. split; [reflexivity|]. split.
    + simpl. now rewrite M.
    + intros s [<-|Hs]; auto.
Qed.

Lemma addApplicationsToAdditionalShortcuts_shape h rt applicationPaths c :
  exists pushed,
    addApplicationsToAdditionalShortcuts h rt applicationPaths c
    = Ret (mkCaches (shortcutCache c) (applicationCache c)
             (additionalShortcuts c ++ pushed))
    /\ map target pushed
       = pathsOrder rt (filter (notKnown h c) applicationPaths)
    /\ (forall s, In s pushed -> deletable s = true /\ args s = None).
Proof.
  unfold addApplicationsToAdditionalShortcuts.
  destruct (promiseAll_addedShortcut h
              (pathsOrder rt (filter (notKnown h c) applicationPaths)))
    as [pushed [E [M D]]].
  rewrite E. cbn [bind]. exists pushed. auto.
Qed.

(** X24. Passing a list of paths to [getApplications] adds one deletable
    descriptor without arguments for every occurrence of a path that was
    known neither to the shortcut cache nor to the additional shortcuts
    when the call began: all paths are tested before any descriptor is
    pushed, so that a path listed twice is added twice. The descriptors are
    appended in the order in which their names become available, what was
    there stays in front, and both caches are left alone. A list of one
    path does what [addApplicationToAdditionalShortcuts] does for it. *)
Theorem addApplicationsToAdditionalShortcuts_adds_every_occurrence
  (h : Host) (rt : Runtime) (applicationPaths : list jsstring) (c : Caches) :
  fair rt ->
  (exists pushed,
      addApplicationsToAdditionalShortcuts h rt applicationPaths c
      = Ret (mkCaches (shortcutCache c) (applicationCache c)
               (additionalShortcuts c ++ pushed))
      /\ Permutation (map target pushed)
                     (filter (notKnown h c) applicationPaths)
      /\ (forall s, In s pushed -> deletable s = true /\ args s = None)
      /\ (forall p, notKnown h c p = true ->
                    count_occ (list_eq_dec Z.eq_dec) (map target pushed) p
                    = count_occ (list_eq_dec Z.eq_dec) applicationPaths p))
  /\ (forall p, addApplicationsToAdditionalShortcuts h rt [p] c
                = addApplicationToAdditionalShortcuts h p c).
Proof.
  intros [Fair _]. split.
  - destruct (addApplicationsToAdditionalShortcuts_shape h rt applicationPaths c)
      as [pushed [E [M D]]].
    exists pushed. split; [exact E|].
    assert (Permutation (map target pushed)
                        (filter (notKnown h c) applicationPaths)) as P.
    { rewrite M. apply Fair. }
    split; [exact P|]. split; [exact D|].
    intros p Hp.
    rewrite (Permutation_count_occ (list_eq_dec Z.eq_dec)
               (map target pushed) (filter (notKnown h c) applicationPaths)) in P.
    rewrite P. clear - Hp.
    induction applicationPaths as [|q l IH]; simpl; auto.
    destruct (list_eq_dec Z.eq_dec q p) as [->|N].
    + rewrite Hp. simpl.
      destruct (list_eq_dec Z.eq_dec p p); [|contradiction]. now rewrite IH.
    + destruct (notKnown h c q); auto. simpl.
      destruct (list_eq_dec Z.eq_dec q p); [contradiction|]. exact IH.
  - intros p.
    unfold addApplicationsToAdditionalShortcuts,
           addApplicationToAdditionalShortcuts.
    cbn [filter]. fold (notKnown h c p).
    destruct (notKnown h c p).
    + rewrite (Permutation_length_1_inv (Permutation_sym (Fair [p]))).
      cbn [promiseAll]. unfold addedShortcut.
      destruct (getProgramName (fs_open h) p) as [r| |]; reflexivity.
    + rewrite (Permutation_nil (Permutation_sym (Fair []))).
      destruct c. simpl. now rewrite app_nil_r.
Qed.

Lemma addApplicationsToAdditionalShortcuts_adds_every_occurrence_witness :
  exists pushed,
    addApplicationsToAdditionalShortcuts host1 runtime1
      [notesPath; notesPath] emptyCaches
    = Ret (mkCaches [] [] pushed)
    /\ map target pushed = [notesPath; notesPath].
Proof.
  destruct (addApplicationsToAdditionalShortcuts_adds_every_occurrence
              host1 runtime1 [notesPath; notesPath] emptyCaches runtime1_fair)
    as [[pushed [E [P _]]] _].
  exists pushed. split; [exact E|].
  apply Permutation_sym in P.
  change (filter (notKnown host1 emptyCaches) [notesPath; notesPath])
    with [notesPath; notesPath] in P.
  apply Permutation_length_2_inv in P. destruct P as [P|P]; exact P.
Defined.

(* ================================================================== *)
(** ** Listing the applications *)

Lemma insertApplication_perm rt a l :
  Permutation (insertApplication rt a l) (a :: l).
Proof.
  induction l as [|b l IH]; simpl; auto.
  destruct (localeCompare rt (app_name a) (app_name b) <=? 0); auto.
  eapply perm_trans; [apply perm_skip, IH|apply perm_swap].
Qed.

Lemma sortApplications_perm rt l : Permutation (sortApplications rt l) l.
Proof.
  unfold sortApplications. induction l as [|a l IH]; simpl; auto.
  eapply perm_trans; [apply insertApplication_perm|now apply perm_skip].
Qed.

Lemma promiseAll_outcome {A B} (g : A -> comp B) l :
  (forall a, In a l -> g a <> Running) ->
  (exists bs, promiseAll g l = Ret bs
              /\ forall a, In a l -> exists b, g a = Ret b)
  \/ (exists e a, promiseAll g l = Throw e /\ In a l /\ g a = Throw e).
Proof.
  induction l as [|a l IH]; intros Fin; cbn [promiseAll].
  - left. exists []. split; auto. intros a [].
  - destruct (g a) as [b|e|] eqn:G; cbn [bind].
    + destruct IH as [[bs [-> All]]|[e [a' [-> [Hin Ha]]]]]; cbn [bind].
      * intros a' Ha'. apply Fin. now right.
      * left. eexists. split; [reflexivity|].
        intros a' [<-|Ha']; eauto.
      * right. exists e, a'. split; auto. split; auto. now right.
    + right. exists e, a. split; auto. split; auto. now left.
    + exfalso. apply (Fin a); auto. now left.
Qed.

Lemma findAllLinks_node_finished :
  forall node path, findAllLinks_node path node <> Running.
Proof.
  fix IH 1. intros node path.
  destruct node as [|contents| |].
  - cbn [findAllLinks_node]. destruct (endsWith path (js ".lnk")); discriminate.
  - rewrite findAllLinks_node_dir.
    destruct (endsWith path (js ".lnk")); [discriminate|].
    assert (promiseAll
              (fun item => findAllLinks_node (path ++ js "/" ++ fst item)
                             (snd item)) contents <> Running) as Fin.
    { induction contents as [|item contents IHc]; cbn [promiseAll];
        [discriminate|].
      destruct item as [n child]. cbn [fst snd].
      pose proof (IH child (path ++ js "/" ++ n)) as Hc.
      destruct (findAllLinks_node (path ++ js "/" ++ n) child);
        cbn [bind]; [|discriminate|contradiction].
      destruct (promiseAll
                  (fun item => findAllLinks_node (path ++ js "/" ++ fst item)
                                 (snd item)) contents);
        cbn [bind]; [discriminate|discriminate|contradiction]. }
    destruct (promiseAll
                (fun item => findAllLinks_node (path ++ js "/" ++ fst item)
                               (snd item)) contents);
      cbn [bind]; [discriminate|discriminate|contradiction].
  - cbn [findAllLinks_node]. destruct (endsWith path (js ".lnk")); discriminate.
  - cbn [findAllLinks_node]. destruct (endsWith path (js ".lnk")); discriminate.
Qed.

(** A call throws exactly when an item cannot be examined, and what it
    throws is the rejection of [stat] or of [readdir]. *)
Lemma findAllLinks_node_throws_unreadable :
  forall node path e,
    findAllLinks_node path node = Throw e ->
    unreadable path node /\ (e = StatError \/ e = ReaddirError).
Proof.
  fix IH 1. intros node path e H.
  destruct node as [|contents| |].
  - cbn [findAllLinks_node] in H.
    destruct (endsWith path (js ".lnk")); discriminate.
  - rewrite findAllLinks_node_dir in H.
    destruct (endsWith path (js ".lnk")) eqn:E; [discriminate|].
    destruct (promiseAll
                (fun item => findAllLinks_node (path ++ js "/" ++ fst item)
                               (snd item)) contents)
      as [result|e'|] eqn:P; cbn [bind] in H; try discriminate.
    injection H as <-.
    assert (exists item, In item contents
                         /\ unreadable (path ++ js "/" ++ fst item) (snd item)
                         /\ (e' = StatError \/ e' = ReaddirError))
      as [item [Hin [Hu He]]].
    { revert P. induction contents as [|item contents IHc]; intros P;
        cbn [promiseAll] in P; [discriminate|].
      destruct item as [n child]. cbn [fst snd] in P.
      destruct (findAllLinks_node (path ++ js "/" ++ n) child)
        as [found|e1|] eqn:G; cbn [bind] in P; try discriminate.
      - destruct (promiseAll
                    (fun item => findAllLinks_node (path ++ js "/" ++ fst item)
                                   (snd item)) contents)
          as [others|e2|]; cbn [bind] in P; try discriminate.
        injection P as <-. destruct (IHc eq_refl) as [item [Hin Hrest]].
        exists item. split; [now right|exact Hrest].
      - injection P as <-. destruct (IH child _ _ G) as [Hu He].
        exists (n, child). split; [now left|]. split; auto. }
    split; auto. now apply (unreadable_below path contents item).
  - cbn [findAllLinks_node] in H.
    destruct (endsWith path (js ".lnk")) eqn:E; [discriminate|].
    injection H as <-. split; [now constructor|now left].
  - cbn [findAllLinks_node] in H.
    destruct (endsWith path (js ".lnk")) eqn:E; [discriminate|].
    injection H as <-. split; [now constructor|now right].
Qed.

Lemma findAllLinks_node_unreadable_throws path node :
  unreadable path node -> exists e, findAllLinks_node path node = Throw e.
Proof.
  induction 1 as [path E|path E|path contents item E Hin Hu [e He]].
  - cbn [findAllLinks_node]. rewrite E. eauto.
  - cbn [findAllLinks_node]. rewrite E. eauto.
  - rewrite findAllLinks_node_dir, E.
    destruct (promiseAll_outcome
                (fun item => findAllLinks_node (path ++ js "/" ++ fst item)
                               (snd item)) contents)
      as [[bs [_ All]]|[e' [a [-> _]]]].
    + intros a _. apply findAllLinks_node_finished.
    + destruct (All item Hin) as [b Hb]. cbv beta in Hb. congruence.
    + cbn [bind]. eauto.
Qed.

Lemma findAllLinks_outcome h path :
  (exists links, findAllLinks h path = Ret links /\ ~ unreadableFrom h path)
  \/ (exists e, findAllLinks h path = Throw e
                /\ (e = StatError \/ e = ReaddirError)
                /\ unreadableFrom h path).
Proof.
  unfold findAllLinks, unreadableFrom.
  destruct (endsWith path (js ".lnk")) eqn:E.
  - left. eexists. split; [reflexivity|]. intros [? _]. discriminate.
  - destruct (fs_stat h path) as [node|].
    + destruct (findAllLinks_node path node) as [links|e|] eqn:G.
      * left. exists links. split; auto. intros [_ Hu].
        destruct (findAllLinks_node_unreadable_throws _ _ Hu). congruence.
      * right. destruct (findAllLinks_node_throws_unreadable _ _ _ G).
        exists e. auto.
      * exfalso. now apply (findAllLinks_node_finished node path).
    + right. exists StatError. auto.
Qed.

Lemma promiseAll_findAllLinks h paths :
  (exists links, promiseAll (findAllLinks h) paths = Ret links
                 /\ forall p, In p paths -> ~ unreadableFrom h p)
  \/ (exists e, promiseAll (findAllLinks h) paths = Throw e
                /\ (e = StatError \/ e = ReaddirError)
                /\ exists p, In p paths /\ unreadableFrom h p).
Proof.
  destruct (promiseAll_outcome (findAllLinks h) paths)
    as [[links [E All]]|[e [p [E [Hin Hp]]]]].
  - intros p _ R. destruct (findAllLinks_outcome h p)
      as [[l [El _]]|[e [Ee _]]]; congruence.
  - left. exists links. split; auto. intros p Hin Hu.
    destruct (All p Hin) as [l Hl].
    destruct (findAllLinks_outcome h p) as [[l' [_ N]]|[e [Ee _]]];
      [contradiction|congruence].
  - right. exists e. split; auto.
    destruct (findAllLinks_outcome h p) as [[l [El _]]|[e' [Ee [Hk Hu]]]];
      [congruence|].
    assert (e' = e) as <- by congruence. split; auto. exists p. auto.
Qed.

Lemma updateShortcutCache_outcome h c :
  (exists c', updateShortcutCache h c = Ret c'
              /\ (wellKeyed h (shortcutCache c) -> wellKeyed h (shortcutCache c'))
              /\ applicationCache c' = applicationCache c
              /\ additionalShortcuts c' = additionalShortcuts c
              /\ ~ startMenuUnreadable h)
  \/ (exists e, updateShortcutCache h c = Throw e
                /\ (e = StatError \/ e = ReaddirError)
                /\ startMenuUnreadable h).
Proof.
  unfold updateShortcutCache, updateShortcutCache_scan.
  destruct (promiseAll_findAllLinks h (APPLICATION_PATHS h))
    as [[links [-> Hr]]|[e [-> Hp]]]; cbn [bind]; [|right; eauto].
  left.
  destruct (updateShortcutCache_loop_returns h
              (removeDuplicates h (resolveLinks h (List.concat links))) []
              (shortcutCache c)) as [[stored cache'] E].
  rewrite E. cbn [bind snd]. eexists. split; [reflexivity|].
  cbn [shortcutCache applicationCache additionalShortcuts].
  split; [apply (updateShortcutCache_loop_keeps _ _ _ _ _ _ E)|].
  split; [reflexivity|]. split; [reflexivity|].
  intros [p [Hin Hu]]. now apply (Hr p).
Qed.

Lemma getApplications_scan_outcome h options c :
  (exists c1, getApplications_scan h options c = Ret c1
              /\ (wellKeyed h (shortcutCache c) -> wellKeyed h (shortcutCache c1))
              /\ applicationCache c1 = applicationCache c
              /\ additionalShortcuts c1 = additionalShortcuts c
              /\ (updateCaches options || cacheIsEmpty c = false -> c1 = c)
              /\ (updateCaches options || cacheIsEmpty c = true ->
                  updateShortcutCache h c = Ret c1
                  /\ ~ startMenuUnreadable h))
  \/ (exists e, getApplications_scan h options c = Throw e
                /\ (e = StatError \/ e = ReaddirError)
                /\ updateShortcutCache h c = Throw e
                /\ updateCaches options || cacheIsEmpty c = true
                /\ startMenuUnreadable h).
Proof.
  unfold getApplications_scan.
  destruct (updateCaches options || cacheIsEmpty c).
  - destruct (updateShortcutCache_outcome h c)
      as [[c1 [E [W [A [S R]]]]]|[e [E [Hk Hp]]]].
    + left. exists c1. rewrite E.
      split; [reflexivity|]. split; [exact W|]. split; [exact A|].
      split; [exact S|]. split; [discriminate|]. intros _. split; auto.
    + right. exists e. rewrite E. auto.
  - left. exists c.
    split; [reflexivity|]. split; [auto|]. split; [reflexivity|].
    split; [reflexivity|]. split; [reflexivity|discriminate].
Qed.

Lemma getApplications_add_outcome h rt options c :
  exists pushed,
    getApplications_add h rt options c
    = Ret (mkCaches (shortcutCache c) (applicationCache c)
             (additionalShortcuts c ++ pushed))
    /\ match applicationPaths options with
       | Some paths =>
           map target pushed = pathsOrder rt (filter (notKnown h c) paths)
       | None => pushed = []
       end.
Proof.
  unfold getApplications_add. destruct (applicationPaths options) as [paths|].
  - destruct (addApplicationsToAdditionalShortcuts_shape h rt paths c)
      as [pushed [E [M _]]]. eauto.
  - exists []. rewrite app_nil_r. destruct c. auto.
Qed.

(** What a fulfilled call went through. *)
Lemma getApplications_fulfilled h rt options c r c' :
  getApplications h rt options c = (Fulfilled r, c') ->
  exists c1 c2,
    getApplications_scan h options c = Ret c1
    /\ getApplications_add h rt options c1 = Ret c2
    /\ updateApplicationCache h rt c2 = (true, c')
    /\ r = mkApplications
             (negb (updateCaches options) && negb (cacheIsEmpty c))
             (sortApplications rt
                (filter (requested h options) (avalues (applicationCache c')))).
Proof.
  unfold getApplications. intros H.
  destruct (getApplications_scan h options c) as [c1| |]; try discriminate.
  destruct (getApplications_add h rt options c1) as [c2| |] eqn:A;
    try discriminate.
  destruct (updateApplicationCache h rt c2) as [[|] c3] eqn:U; try discriminate.
  injection H as <- <-. exists c1, c2.
  split; [reflexivity|]. split; [exact A|]. split; [exact U|reflexivity].
Qed.

Lemma getApplications_caches h rt options c :
  cachesWellKeyed h c -> cachesWellKeyed h (snd (getApplications h rt options c)).
Proof.
  intros [Ws Wa]. unfold getApplications.
  destruct (getApplications_scan_outcome h options c)
    as [[c1 [-> [W1 [A1 _]]]]|[e [-> _]]]; [|split; auto].
  destruct (getApplications_add_outcome h rt options c1) as [pushed [-> _]].
  unfold updateApplicationCache.
  cbn [shortcutCache applicationCache additionalShortcuts].
  assert (cachesWellKeyed h
            (mkCaches (shortcutCache c1)
               (fold_left (storeApplication h rt)
                  (iconsOrder rt
                     (filter (notCached h (applicationCache c1))
                        (avalues (shortcutCache c1)
                         ++ additionalShortcuts c1 ++ pushed)))
                  (applicationCache c1))
               (additionalShortcuts c1 ++ pushed))) as W.
  { split; cbn [shortcutCache applicationCache]; auto.
    apply fold_store_wellKeyed. now rewrite A1. }
  destruct (forallb _ _); exact W.
Qed.

(** X25. Every exported operation keeps the caches well keyed: every
    shortcut of the shortcut cache is stored under the lower-cased form of its
    target and no key occurs twice, and every application of the
    application cache is stored under the lower-cased form of its absolute
    path. The caches the module starts with are well keyed, so they are at
    all times, however a call of [getApplications] ends. *)
Theorem operations_keep_caches_well_keyed (h : Host) (c : Caches) :
  cachesWellKeyed h c ->
  (forall rt options,
      cachesWellKeyed h (snd (getApplications h rt options c)))
  /\ (forall applicationPath returned c',
         addApplicationPathToCache h applicationPath c = Ret (returned, c') ->
         cachesWellKeyed h c')
  /\ (forall application,
         cachesWellKeyed h (removeApplicationFromCache h application c))
  /\ cachesWellKeyed h emptyCaches.
Proof.
  intros W. split; [|split; [|split]].
  - intros rt options. now apply getApplications_caches.
  - intros p returned c' H. unfold addApplicationPathToCache in H.
    destruct (jseqb (path_parse_ext h p) (js ".lnk")).
    + destruct (readShortcutLink h (path_resolve h p)) as [[t a]|];
        try discriminate.
      injection H as _ <-. exact W.
    + destruct (addApplicationToAdditionalShortcuts_returns_shape h p c)
        as [c1 [E [S [A _]]]].
      rewrite E in H. cbn [bind] in H. injection H as _ <-.
      unfold cachesWellKeyed. now rewrite S, A.
  - intros application. destruct W as [Ws Wa]. split; auto.
    cbn [removeApplicationFromCache applicationCache].
    intros k v H. unfold adelete in H. apply filter_In in H. apply Wa, H.
  - split.
    + split; [intros k v []|constructor].
    + intros k v [].
Qed.

Lemma operations_keep_caches_well_keyed_witness :
  cachesWellKeyed host1
    (snd (getApplications host1 runtime1
            (mkOptions (Some [notesPath]) false) emptyCaches)).
Proof.
  destruct (operations_keep_caches_well_keyed host1 emptyCaches) as [G _].
  - split.
    + split; [intros k v []|constructor].
    + intros k v [].
  - apply G.
Defined.

Lemma known_shortcut h c applicationPath :
  wellKeyed h (shortcutCache c) ->
  inherited (str_toLowerCase h applicationPath) = false ->
  notKnown h c applicationPath = false ->
  exists s, In s (allShortcuts c)
            /\ str_toLowerCase h (target s) = str_toLowerCase h applicationPath.
Proof.
  intros [Hkv _] I H. unfold notKnown, oget in H. rewrite I in H.
  unfold allShortcuts.
  destruct (aget (shortcutCache c) (str_toLowerCase h applicationPath)) as [v|] eqn:G.
  - exists v. apply aget_In in G. split.
    + apply in_or_app. left. unfold avalues.
      apply in_map_iff. exists (str_toLowerCase h applicationPath, v). auto.
    + symmetry. apply (Hkv _ _ G).
  - simpl in H. apply negb_false_iff, existsb_exists in H.
    destruct H as [s [Hs E]]. apply jseqb_eq in E.
    exists s. split; auto. apply in_or_app. now right.
Qed.

(** X26. When [getApplications] is given application paths and is
    fulfilled, the applications it returns are those asked for: every path whose
    lower-cased form names no inherited property has an application with
    that absolute path, up to case, in the result, whether it was found in
    the start menu, added before or added by this call; and every
    application of the result has, up to case, the absolute path of one of
    the paths given. *)
Theorem getApplications_returns_requested (h : Host) (rt : Runtime)
  (paths : list jsstring) (update : bool) (c c' : Caches) (r : Applications) :
  fair rt ->
  cachesWellKeyed h c ->
  getApplications h rt (mkOptions (Some paths) update) c = (Fulfilled r, c') ->
  (forall p, In p paths -> inherited (str_toLowerCase h p) = false ->
             exists a, In a (applications r)
                       /\ str_toLowerCase h (absolutepath a)
                          = str_toLowerCase h p)
  /\ (forall a, In a (applications r) ->
                exists p, In p paths
                          /\ str_toLowerCase h p
                             = str_toLowerCase h (absolutepath a)).
Proof.
  intros Fair W H.
  pose proof (getApplications_caches h rt (mkOptions (Some paths) update) c W)
    as W'.
  rewrite H in W'. cbn [snd] in W'. destruct W' as [_ Wa'].
  apply getApplications_fulfilled in H.
  destruct H as [c1 [c2 [Hscan [Hadd [Hupd ->]]]]].
  cbn [applications].
  assert (forall a,
             In a (sortApplications rt
                     (filter (requested h (mkOptions (Some paths) update))
                             (avalues (applicationCache c'))))
             <-> In a (avalues (applicationCache c'))
                 /\ exists p, In p paths
                              /\ str_toLowerCase h p = str_toLowerCase h (absolutepath a))
    as Result.
  { intros a. split.
    - intros Ha. apply (Permutation_in _ (sortApplications_perm rt _)) in Ha.
      apply filter_In in Ha. destruct Ha as [Ha R]. split; auto.
      unfold requested in R. cbn [applicationPaths] in R.
      apply existsb_exists in R. destruct R as [p [Hp E]].
      apply jseqb_eq in E. eauto.
    - intros [Ha [p [Hp E]]].
      apply (Permutation_in _ (Permutation_sym (sortApplications_perm rt _))).
      apply filter_In. split; auto.
      unfold requested. cbn [applicationPaths].
      apply existsb_exists. exists p. split; auto. now apply jseqb_eq. }
  split.
  - intros p Hp I.
    destruct (getApplications_scan_outcome h (mkOptions (Some paths) update) c)
      as [[c1' [E1 [W1 _]]]|[e [E1 _]]]; [|congruence].
    assert (c1' = c1) as -> by congruence.
    destruct W as [Ws _]. specialize (W1 Ws).
    destruct (getApplications_add_outcome h rt (mkOptions (Some paths) update) c1)
      as [pushed [E2 M]]. cbn [applicationPaths] in M.
    assert (c2 = mkCaches (shortcutCache c1) (applicationCache c1)
                   (additionalShortcuts c1 ++ pushed)) as Ec2 by congruence.
    assert (exists s, In s (allShortcuts c2)
                      /\ str_toLowerCase h (target s) = str_toLowerCase h p) as [s [Hs Ks]].
    { destruct (notKnown h c1 p) eqn:N.
      - assert (In p (map target pushed)) as Hin.
        { rewrite M. destruct Fair as [Fair _].
          apply (Permutation_in _ (Permutation_sym (Fair _))).
          apply filter_In. auto. }
        apply in_map_iff in Hin. destruct Hin as [s [<- Hs]].
        exists s. split; auto. rewrite Ec2. unfold allShortcuts.
        cbn [shortcutCache additionalShortcuts].
        apply in_or_app. right. apply in_or_app. now right.
      - destruct (known_shortcut h c1 p W1 I N) as [s [Hs Ks]].
        exists s. split; auto. rewrite Ec2. unfold allShortcuts in *.
        cbn [shortcutCache additionalShortcuts].
        apply in_app_or in Hs. apply in_or_app.
        destruct Hs as [Hs|Hs]; auto. right. apply in_or_app. now left. }
    assert (aget (applicationCache c') (str_toLowerCase h (target s)) <> None) as G.
    { replace c' with (snd (updateApplicationCache h rt c2)) by now rewrite Hupd.
      apply updateApplicationCache_stores; auto; [congruence|].
      destruct (aget (applicationCache c2) (str_toLowerCase h (target s))) eqn:G;
        [right; discriminate|left].
      apply (proj1 (updateApplicationCache_ok h rt c2)); auto.
      - now rewrite Hupd.
      - apply notCached_true. split; auto. congruence. }
    rewrite Ks in G.
    destruct (aget (applicationCache c') (str_toLowerCase h p)) as [a|] eqn:Ga;
      [|contradiction].
    apply aget_In in Ga. exists a.
    assert (str_toLowerCase h (absolutepath a) = str_toLowerCase h p) as Ea.
    { symmetry. apply (Wa' _ _ Ga). }
    split; auto. apply Result. split.
    + unfold avalues. apply in_map_iff. exists (str_toLowerCase h p, a). auto.
    + exists p. auto.
  - intros a Ha. apply Result in Ha. tauto.
Qed.

Lemma getApplications_returns_requested_witness :
  exists a,
    In a (match fst (getApplications host1 runtime1
                       (mkOptions (Some [notesPath]) false) emptyCaches) with
          | Fulfilled r => applications r
          | _ => []
          end)
    /\ str_toLowerCase host1 (absolutepath a) = str_toLowerCase host1 notesPath.
Proof.
  destruct (getApplications host1 runtime1
              (mkOptions (Some [notesPath]) false) emptyCaches)
    as [[r| |] c'] eqn:E; try (vm_compute in E; discriminate).
  cbn [fst].
  destruct (getApplications_returns_requested host1 runtime1 [notesPath] false
              emptyCaches c' r runtime1_fair) as [Each _].
  - split.
    + split; [intros k v []|constructor].
    + intros k v [].
  - exact E.
  - apply (Each notesPath); [now left|reflexivity].
Defined.

Lemma forallb_false {A} (f : A -> bool) l :
  forallb f l = false -> exists x, In x l /\ f x = false.
Proof.
  induction l as [|a l IH]; simpl; [discriminate|].
  destruct (f a) eqn:E; simpl.
  - intros H. destruct (IH H) as [x [Hx Fx]]. eauto.
  - intros _. eauto.
Qed.

(** X27. [getApplications] always settles, and it is rejected in two cases
    only. Either a scan of the start menu was due and one of the two
    start-menu directories or an item below them could not be examined
    ([stat] or [readdir] was rejected); then nothing was written to the
    caches, and whenever a scan is due and there is such an item the call
    is rejected in this way. Or the icon of one of the shortcuts could not
    be retrieved. *)
Theorem getApplications_settles (h : Host) (rt : Runtime) (options : Options)
  (c : Caches) :
  ((exists r c', getApplications h rt options c = (Fulfilled r, c'))
   \/ (exists e,
          getApplications h rt options c = (Rejected (Thrown e), c)
          /\ (e = StatError \/ e = ReaddirError)
          /\ updateCaches options || cacheIsEmpty c = true
          /\ startMenuUnreadable h)
   \/ (exists c' s,
          getApplications h rt options c = (Rejected IconUnavailable, c')
          /\ In s (allShortcuts c')
          /\ retrieveIcon rt (target s) = None))
  /\ (updateCaches options || cacheIsEmpty c = true ->
      startMenuUnreadable h ->
      exists e, getApplications h rt options c = (Rejected (Thrown e), c)).
Proof.
  unfold getApplications.
  destruct (getApplications_scan_outcome h options c)
    as [[c1 [-> [_ [_ [_ [_ Scan]]]]]]|[e [-> [Hk [_ [D Hp]]]]]].
  - split.
    + destruct (getApplications_add_outcome h rt options c1)
        as [pushed [-> _]].
      set (c2 := mkCaches (shortcutCache c1) (applicationCache c1)
                   (additionalShortcuts c1 ++ pushed)).
      destruct (updateApplicationCache h rt c2) as [[|] c3] eqn:U.
      * left. eauto.
      * right. right.
        assert (fst (updateApplicationCache h rt c2) = false) as F
          by now rewrite U.
        assert (c3 = snd (updateApplicationCache h rt c2)) as E3
          by now rewrite U.
        unfold updateApplicationCache in F, E3. cbn [fst snd] in F, E3.
        apply forallb_false in F. destruct F as [s [Hs Fs]].
        apply filter_In in Hs. destruct Hs as [Hs _].
        exists c3, s. split; [reflexivity|]. split.
        -- rewrite E3. exact Hs.
        -- unfold convertToSplitTunnelingApplication in Fs.
           destruct (retrieveIcon rt (target s)); [discriminate|reflexivity].
    + intros Due Hu. destruct (Scan Due) as [_ N]. contradiction.
  - split.
    + right. left. exists e. auto.
    + intros _ _. eauto.
Qed.

Lemma getApplications_settles_witness :
  startMenuUnreadable host3
  /\ getApplications host3 runtime1 (mkOptions None false) emptyCaches
     = (Rejected (Thrown StatError), emptyCaches).
Proof.
  assert (startMenuUnreadable host3) as Hu.
  { exists startMenu. split; [left; reflexivity|].
    split; [reflexivity|].
    change (fs_stat host3 startMenu) with (Some brokenMenu).
    apply (unreadable_below _ _ (js "Tools",
                                 FsDir [ (js "Chat.lnk", FsFile);
                                         (js "Gone", FsNoStat) ]));
      [reflexivity|right; left; reflexivity|].
    apply (unreadable_below _ _ (js "Gone", FsNoStat));
      [reflexivity|right; left; reflexivity|].
    apply unreadable_stat. reflexivity. }
  split; [exact Hu|].
  destruct (getApplications_settles host3 runtime1 (mkOptions None false)
              emptyCaches) as [_ Rejects].
  destruct (Rejects eq_refl Hu) as [e He].
  rewrite He. vm_compute in He. injection He as <-. reflexivity.
Defined.

(** X28. A result that says it comes from the cache was made without a scan of
    the start menu: no update was asked for, the shortcut cache was not
    empty and it is as it was. A result that says otherwise was made after a
    scan, also when the scan found nothing new. Without application paths
    no additional shortcut is added, and the result holds every application
    of the application cache, each once. *)
Theorem getApplications_fromCache (h : Host) (rt : Runtime) (options : Options)
  (c c' : Caches) (r : Applications) :
  getApplications h rt options c = (Fulfilled r, c') ->
  (fromCache r = true ->
   updateCaches options = false
   /\ shortcutCache c <> []
   /\ shortcutCache c' = shortcutCache c)
  /\ (fromCache r = false ->
      exists c1, updateShortcutCache h c = Ret c1
                 /\ shortcutCache c' = shortcutCache c1)
  /\ (applicationPaths options = None ->
      additionalShortcuts c' = additionalShortcuts c
      /\ Permutation (applications r) (avalues (applicationCache c'))).
Proof.
  intros H. apply getApplications_fulfilled in H.
  destruct H as [c1 [c2 [Hscan [Hadd [Hupd ->]]]]].
  cbn [fromCache applications].
  destruct (getApplications_scan_outcome h options c)
    as [[c1' [E1 [_ [_ [S1 [Same Scan]]]]]]|[e [E1 _]]]; [|congruence].
  assert (c1' = c1) as -> by congruence.
  destruct (getApplications_add_outcome h rt options c1) as [pushed [E2 M]].
  assert (c2 = mkCaches (shortcutCache c1) (applicationCache c1)
                 (additionalShortcuts c1 ++ pushed)) as Ec2 by congruence.
  assert (shortcutCache c' = shortcutCache c1
          /\ additionalShortcuts c' = additionalShortcuts c1 ++ pushed)
    as [Es Ea].
  { assert (c' = snd (updateApplicationCache h rt c2)) as -> by now rewrite Hupd.
    rewrite Ec2. split; reflexivity. }
  split; [|split].
  - intros F. apply andb_true_iff in F. destruct F as [F1 F2].
    apply negb_true_iff in F1, F2.
    split; [exact F1|]. split.
    + intros E. unfold cacheIsEmpty in F2. now rewrite E in F2.
    + rewrite Es, Same; auto. now rewrite F1, F2.
  - intros F. exists c1. split; [|exact Es]. apply Scan.
    destruct (updateCaches options); [reflexivity|].
    destruct (cacheIsEmpty c); [reflexivity|discriminate].
  - intros N. rewrite N in M. subst pushed. split.
    + now rewrite Ea, app_nil_r.
    + eapply perm_trans; [apply sortApplications_perm|].
      unfold requested. rewrite N.
      clear. induction (avalues (applicationCache c')); simpl; auto.
Qed.

Lemma getApplications_fromCache_witness :
  exists r c',
    getApplications host1 runtime1 (mkOptions None false) cachesListed
    = (Fulfilled r, c')
    /\ fromCache r = true
    /\ shortcutCache c' = shortcutCache cachesListed
    /\ Permutation (applications r) (avalues (applicationCache c')).
Proof.
  destruct (getApplications host1 runtime1 (mkOptions None false) cachesListed)
    as [[r| |] c'] eqn:E; try (vm_compute in E; discriminate).
  exists r, c'. split; [reflexivity|].
  assert (fromCache r = true) as F.
  { assert (fst (getApplications host1 runtime1 (mkOptions None false)
                   cachesListed) = Fulfilled r) as E' by now rewrite E.
    vm_compute in E'. injection E' as <-. reflexivity. }
  destruct (getApplications_fromCache host1 runtime1 (mkOptions None false)
              cachesListed c' r E) as [Cached [_ All]].
  split; [exact F|]. split.
  - apply (Cached F).
  - apply (All eq_refl).
Defined.
